(** * Goszakup tender parser: a shallow embedding and its properties

    The embedding follows the Python sources module by module:
    - [Py]         exceptions and the outcome of a call (returned / raised);
    - [Config]     config.py (the constants the other modules read);
    - [Parsers]    parsers.py  (extract_lot_ids, parse_lot_table,
                   determine_parse_status, extract_announce_id);
    - [HttpClient] http_client.py (post_with_retry and its two callers);
    - [Database]   database.py (lot_details and scraping_progress tables);
    - [Main]       main.py (TenderParser: load_urls, process_url, process_lot, run);
    - [Scraper]    scraper.py (extract_links, scrape_page and the page loop of run).

    External collaborators (lxml, requests, sqlite3, playwright, the clock and
    the signal handler) are oracles: they give the answer of the
    collaborator at each call and are bound by every statement.

    The modules [..Spec] hold the vocabulary of the statements and concrete
    instances of the oracles; the modules [..Facts] hold the proofs. *)

From Stdlib Require Import Ascii.
From stdpp Require Import gmap strings list fin_maps pretty.

Open Scope string_scope.
Open Scope Z_scope.
Open Scope list_scope.

(* ===================================================================== *)
(** ** Python values, exceptions, outcomes *)
(* ===================================================================== *)

Module Py.

(** The exception classes the sources catch or let through.  All of them
    derive from [Exception]; the first four are [requests.exceptions]
    classes, with [RequestException] their common base. *)
Inductive exn : Type :=
| HTTPError            (* raised by response.raise_for_status() *)
| Timeout
| ConnectionError
| RequestException     (* any other requests failure *)
| IntegrityError       (* sqlite3: UNIQUE constraint failed *)
| OtherError (msg : string).

(** isinstance(e, requests.exceptions.RequestException) *)
Definition is_RequestException (e : exn) : bool :=
  match e with
  | HTTPError | Timeout | ConnectionError | RequestException => true
  | IntegrityError | OtherError _ => false
  end.

Inductive outcome (A : Type) : Type :=
| Ret (a : A)
| Raise (e : exn).
Arguments Ret {A} a.
Arguments Raise {A} e.

Definition bind {A B} (c : outcome A) (k : A → outcome B) : outcome B :=
  match c with
  | Ret a => k a
  | Raise e => Raise e
  end.

(** try: c  except Exception as e: h e *)
Definition try_except {A} (c : outcome A) (h : exn → outcome A) : outcome A :=
  match c with
  | Ret a => Ret a
  | Raise e => h e
  end.

Definition returns {A} (c : outcome A) : Prop := ∃ a, c = Ret a.

(** Truthiness of a str and of an Optional[str]. *)
Definition truthy_str (s : string) : bool := bool_decide (s ≠ "").
Definition truthy_opt_str (o : option string) : bool :=
  match o with
  | Some s => truthy_str s
  | None => false
  end.

(** Truthiness of an Optional[int]: None and 0 are falsy. *)
Definition truthy_opt_int (o : option Z) : bool :=
  match o with
  | Some n => bool_decide (n ≠ 0)
  | None => false
  end.

End Py.

Export Py.

(* ===================================================================== *)
(** ** config.py *)
(* ===================================================================== *)

Module Config.

Definition MAX_RETRIES : Z := 3.
Definition CHECKPOINT_INTERVAL : Z := 50.

(** FIELD_MAPPING: Russian table header -> database column.  A dict
    literal with twelve distinct keys, kept in insertion order. *)
Definition FIELD_MAPPING : list (string * string) :=
  [ ("Лот №", "lot_number");
    ("Статус лота", "lot_status");
    ("БИН заказчика", "customer_bin");
    ("Наименование заказчика", "customer_name");
    ("Код ТРУ", "tru_code");
    ("Наименование ТРУ", "tru_name");
    ("Краткая характеристика", "brief_description");
    ("Дополнительная характеристика", "additional_description");
    ("Цена за единицу", "price_per_unit");
    ("Единица измерения", "unit_of_measurement");
    ("Количество", "quantity");
    ("Место поставки товара, КАТО", "delivery_location_kato") ].

(** FIELD_MAPPING.values() *)
Definition FIELD_KEYS : list string := FIELD_MAPPING.*2.

Definition AJAX_LOAD_LOT_URL (announce_id : string) : string :=
  "https://goszakup.gov.kz/ru/announce/ajax_load_lot/" +:+ announce_id +:+ "?tab=lots".

End Config.

(* ===================================================================== *)
(** ** parsers.py *)
(* ===================================================================== *)

Module Parsers.
Import Config.

(** A parsed record: the dict [parsed_data], field key -> Optional[str]. *)
Abbreviation parsed_dict := (gmap string (option string)).

(** One table row as lxml shows it: the stripped text of its th cells and
    of its td cells, in document order. *)
Definition table_row : Type := list string * list string.

Section WithLxml.

(** lxml: html.fromstring(html_content) followed by
    tree.xpath('//a[@data-lot-id]/@data-lot-id'): the attribute values in
    document order, or an exception (e.g. on an empty document). *)
Variable lxml_lot_ids : string → outcome (list string).

(** lxml: html.fromstring followed by the three row queries of
    parse_lot_table (styled table, any table, any tbody). *)
Variable lxml_rows :
  string → outcome (list table_row * list table_row * list table_row).

(** The body of the loop of extract_lot_ids on the pair (seen, unique_lot_ids). *)
Definition dedup_step (st : gset string * list string) (lot_id : string)
  : gset string * list string :=
  if truthy_str lot_id && bool_decide (lot_id ∉ st.1)
  then ({[lot_id]} ∪ st.1, (st.2 ++ [lot_id]))
  else st.

Definition unique_in_order (lot_ids : list string) : list string :=
  (foldl dedup_step (∅, []) lot_ids).2.

Definition extract_lot_ids (html_content announce_url : string)
  : outcome (list string) :=
  try_except
    (Py.bind (lxml_lot_ids html_content) (λ lot_ids,
       Ret (unique_in_order lot_ids)))
    (λ _, Ret []).

(** result = {field: None for field in FIELD_MAPPING.values()} *)
Definition all_none : parsed_dict :=
  list_to_map ((λ field, (field, None)) <$> FIELD_KEYS).

(** FIELD_MAPPING[field_name], when field_name in FIELD_MAPPING *)
Definition field_mapping_get (field_name : string) : option string :=
  (list_to_map FIELD_MAPPING : gmap string string) !! field_name.

(** The body of the row loop of parse_lot_table. *)
Definition parse_row (result : parsed_dict) (row : table_row) : parsed_dict :=
  match row with
  | (field_name :: _, field_value :: _) =>
      match field_mapping_get field_name with
      | Some english_name =>
          <[english_name := if truthy_str field_value
                            then Some field_value else None]> result
      | None => result
      end
  | _ => result
  end.

Definition parse_lot_table (html_content data_lot_id : string)
  : outcome parsed_dict :=
  try_except
    (Py.bind (lxml_rows html_content) (λ '(rows1, rows2, rows3),
       let rows := match rows1 with [] => rows2 | _ => rows1 end in
       let rows := match rows with [] => rows3 | _ => rows end in
       match rows with
       | [] => Ret all_none
       | _ => Ret (foldl parse_row all_none rows)
       end))
    (λ _, Ret all_none).

End WithLxml.

(** parsed_data.values() *)
Definition dict_values (parsed_data : parsed_dict) : list (option string) :=
  (map_to_list parsed_data).*2.

(** sum(1 for v in parsed_data.values() if v is not None) *)
Definition filled_count (parsed_data : parsed_dict) : Z :=
  Z.of_nat (length (filter is_Some (dict_values parsed_data))).

Definition str_of_int (n : Z) : string := pretty n.

Definition determine_parse_status (parsed_data : parsed_dict)
  : string * option string :=
  let filled_fields := filled_count parsed_data in
  let total_fields := Z.of_nat (length FIELD_MAPPING) in
  if bool_decide (filled_fields = 0) then
    ("failed", Some "No fields could be parsed")
  else if bool_decide (filled_fields < total_fields) then
    let missing := total_fields - filled_fields in
    ("partial",
     Some ("Only " +:+ str_of_int filled_fields +:+ "/" +:+ str_of_int total_fields
           +:+ " fields parsed (" +:+ str_of_int missing +:+ " missing)"))
  else
    ("success", None).

(** url.rstrip('/') *)
Fixpoint rstrip_slash (s : string) : string :=
  match s with
  | EmptyString => EmptyString
  | String c s' =>
      match rstrip_slash s' with
      | EmptyString => if bool_decide (c = "/"%char) then EmptyString
                       else String c EmptyString
      | t => String c t
      end
  end.

(** s.split('/'): always at least one part. *)
Fixpoint split_slash (s : string) : list string :=
  match s with
  | EmptyString => [EmptyString]
  | String c s' =>
      if bool_decide (c = "/"%char) then EmptyString :: split_slash s'
      else match split_slash s' with
           | p :: ps => String c p :: ps
           | [] => [String c EmptyString]
           end
  end.

(** parts.index('index'), when 'index' in parts *)
Fixpoint list_index (x : string) (parts : list string) : option nat :=
  match parts with
  | [] => None
  | p :: ps => if bool_decide (p = x) then Some 0%nat
               else S <$> list_index x ps
  end.

Definition extract_announce_id (url : string) : option string :=
  let parts := split_slash (rstrip_slash url) in
  match list_index "index" parts with
  | Some idx => parts !! (idx + 1)%nat
  | None => None
  end.

End Parsers.

(* ===================================================================== *)
(** ** http_client.py *)
(* ===================================================================== *)

Module HttpClient.

(** requests.Response, as far as the sources read it. *)
Record response : Type := { status_code : Z; text : string }.

(** What one call of session.post gives: a response or an exception. *)
Inductive attempt_result : Type :=
| Responds (r : response)
| Fails (e : exn).

(** The form body of a POST: None, or the dict {"id": data_lot_id}. *)
Definition form : Type := option (list (string * string)).

(** The collaborators of the client.  Delays are Python floats; the client
    only multiplies a configured delay by an int, so the type of delays and
    that product are kept abstract.  [transport k url data] is the answer to
    the k-th POST ever issued (k counted from 0). *)
Class net_env : Type :=
  { delay : Type;
    mul : delay → Z → delay;
    transport : nat → string → form → attempt_result }.

Section Client.

Context {N : net_env}.

(** The network and the clock as the client changes them: the POST
    requests issued and the time.sleep calls made, oldest first. *)
Record net : Type := { posts : list (string * form); sleeps : list delay }.

Definition net0 : net := {| posts := []; sleeps := [] |}.

(** GoszakupHTTPClient, without its timeout and session. *)
Record client : Type :=
  { max_retries : Z; base_delay : delay; rate_limit_delay : delay }.

Variable self : client.

Definition session_post (url : string) (data : form) (st : net)
  : attempt_result * net :=
  (transport (length (posts st)) url data,
   {| posts := posts st ++ [(url, data)]; sleeps := sleeps st |}).

Definition time_sleep (wait_time : delay) (st : net) : net :=
  {| posts := posts st; sleeps := sleeps st ++ [wait_time] |}.

(** response.raise_for_status() *)
Definition raise_for_status (r : response) : outcome unit :=
  if bool_decide (400 ≤ status_code r < 600) then Raise HTTPError else Ret ().

(** range(1, self.max_retries + 1) *)
Definition attempts_range : list Z :=
  Z.of_nat <$> seq 1 (Z.to_nat (max_retries self)).

(** self.base_delay * (2 ** (attempt - 1)) *)
Definition backoff (attempt : Z) : delay :=
  mul (base_delay self) (2 ^ (attempt - 1)).

(** The for loop of post_with_retry over the attempts still to make;
    the empty list is the code after the loop. *)
Fixpoint post_attempts (url : string) (data : form) (attempts : list Z)
    (st : net) : outcome (option response) * net :=
  match attempts with
  | [] => (Ret None, st)
  | attempt :: rest =>
      (* each of the three handlers: sleep and go on, or return None *)
      let retry_or_none st1 :=
        if bool_decide (attempt < max_retries self)
        then post_attempts url data rest (time_sleep (backoff attempt) st1)
        else (Ret None, st1) in
      let handle e st1 :=
        match e with
        | Timeout => retry_or_none st1
        | ConnectionError => retry_or_none st1
        | HTTPError | RequestException => retry_or_none st1
        | _ => (Raise e, st1)
        end in
      let '(res, st1) := session_post url data st in
      match res with
      | Responds response =>
          if bool_decide (status_code response = 429) then
            let wait_time := mul (rate_limit_delay self) attempt in
            post_attempts url data rest (time_sleep wait_time st1)
          else if bool_decide (500 ≤ status_code response < 600) then
            if bool_decide (attempt < max_retries self)
            then post_attempts url data rest (time_sleep (backoff attempt) st1)
            else (Ret None, st1)
          else
            match raise_for_status response with
            | Ret _ => (Ret (Some response), st1)
            | Raise e => handle e st1
            end
      | Fails e => handle e st1
      end
  end.

Definition post_with_retry (url : string) (data : form) (st : net)
  : outcome (option response) * net :=
  post_attempts url data attempts_range st.

(** if response and response.status_code == 200: return response.text *)
Definition text_if_200 (r : option response) : option string :=
  match r with
  | Some response =>
      if bool_decide (status_code response = 200) then Some (text response)
      else None
  | None => None
  end.

Definition get_lot_ids_page (announce_url : string) (st : net)
  : outcome (option string) * net :=
  let url := announce_url +:+ "?tab=lots#" in
  let '(res, st1) := post_with_retry url None st in
  (Py.bind res (λ response, Ret (text_if_200 response)), st1).

Definition get_lot_detail (announce_id data_lot_id : string) (st : net)
  : outcome (option string) * net :=
  let url := Config.AJAX_LOAD_LOT_URL announce_id in
  let payload := Some [("id", data_lot_id)] in
  let '(res, st1) := post_with_retry url payload st in
  (Py.bind res (λ response, Ret (text_if_200 response)), st1).

End Client.

End HttpClient.

(* ===================================================================== *)
(** ** database.py *)
(* ===================================================================== *)

Module Database.
Import Parsers.

(** Timestamps (datetime.now(), CURRENT_TIMESTAMP) are readings of a clock. *)
Definition timestamp : Type := Z.

(** A row of lot_details.  The id column is the position in the table:
    rows are only ever appended, so list order is id order. *)
Record lot_detail : Type :=
  { lot_url : string;
    data_lot_id : string;
    announce_id : string;
    lot_number : option string;
    lot_status : option string;
    customer_bin : option string;
    customer_name : option string;
    tru_code : option string;
    tru_name : option string;
    brief_description : option string;
    additional_description : option string;
    price_per_unit : option string;
    unit_of_measurement : option string;
    quantity : option string;
    delivery_location_kato : option string;
    scraped_at : timestamp;
    parse_status : string;
    error_message : option string }.

(** A row of scraping_progress. *)
Record progress : Type :=
  { p_lot_url : string;
    p_announce_id : string;
    status : string;
    lot_ids_found : Z;
    lot_ids_processed : Z;
    started_at : option timestamp;
    completed_at : option timestamp;
    error_count : Z;
    last_error : option string }.

Record database : Type :=
  { lot_details : list lot_detail;
    scraping_progress : list progress }.

(** create_schema on a fresh file: two empty tables. *)
Definition empty_db : database :=
  {| lot_details := []; scraping_progress := [] |}.

(** The columns of UNIQUE(lot_url, data_lot_id). *)
Definition lot_key (r : lot_detail) : string * string :=
  (lot_url r, data_lot_id r).

(** The table constraint of lot_details. *)
Definition unique_lots (db : database) : Prop :=
  NoDup (lot_key <$> lot_details db).

(** The column constraint lot_url TEXT UNIQUE of scraping_progress. *)
Definition unique_progress (db : database) : Prop :=
  NoDup (p_lot_url <$> scraping_progress db).

(** parsed_data.get(key) *)
Definition dict_get (parsed_data : parsed_dict) (key : string) : option string :=
  match parsed_data !! key with
  | Some v => v
  | None => None
  end.

(** The VALUES tuple of insert_lot_detail. *)
Definition lot_row (lot_url data_lot_id announce_id : string)
    (parsed_data : parsed_dict) (parse_status : string)
    (error_message : option string) (now : timestamp) : lot_detail :=
  {| lot_url := lot_url;
     data_lot_id := data_lot_id;
     announce_id := announce_id;
     lot_number := dict_get parsed_data "lot_number";
     lot_status := dict_get parsed_data "lot_status";
     customer_bin := dict_get parsed_data "customer_bin";
     customer_name := dict_get parsed_data "customer_name";
     tru_code := dict_get parsed_data "tru_code";
     tru_name := dict_get parsed_data "tru_name";
     brief_description := dict_get parsed_data "brief_description";
     additional_description := dict_get parsed_data "additional_description";
     price_per_unit := dict_get parsed_data "price_per_unit";
     unit_of_measurement := dict_get parsed_data "unit_of_measurement";
     quantity := dict_get parsed_data "quantity";
     delivery_location_kato := dict_get parsed_data "delivery_location_kato";
     scraped_at := now;
     parse_status := parse_status;
     error_message := error_message |}.

(** SELECT * FROM lot_details WHERE lot_url = ? AND data_lot_id = ? *)
Definition select_lots (key : string * string) (db : database) : list lot_detail :=
  filter (λ r, lot_key r = key) (lot_details db).

(** cursor.execute("INSERT INTO lot_details ..."): sqlite3 raises
    IntegrityError when the UNIQUE constraint fails, and the row is not
    stored. *)
Definition sql_insert_lot (row : lot_detail) (db : database) : outcome database :=
  if bool_decide (lot_key row ∈ lot_key <$> lot_details db)
  then Raise IntegrityError
  else Ret {| lot_details := lot_details db ++ [row];
              scraping_progress := scraping_progress db |}.

(** insert_lot_detail: the connection commits when the block returns and
    rolls back when it raises. *)
Definition insert_lot_detail (lot_url data_lot_id announce_id : string)
    (parsed_data : parsed_dict) (parse_status : string)
    (error_message : option string) (now : timestamp) (db : database)
  : outcome bool * database :=
  match sql_insert_lot
          (lot_row lot_url data_lot_id announce_id parsed_data
                   parse_status error_message now) db with
  | Ret db' => (Ret true, db')
  | Raise IntegrityError => (Ret false, db)
  | Raise e => (Raise e, db)
  end.

(** SELECT * FROM scraping_progress WHERE lot_url = ?  (fetchone) *)
Definition select_progress (url : string) (db : database) : option progress :=
  head (filter (λ p, p_lot_url p = url) (scraping_progress db)).

(** The row get_or_create_progress inserts; the integer columns take
    their DEFAULT 0, the other columns NULL. *)
Definition new_progress (lot_url announce_id : string) (now : timestamp) : progress :=
  {| p_lot_url := lot_url;
     p_announce_id := announce_id;
     status := "pending";
     lot_ids_found := 0;
     lot_ids_processed := 0;
     started_at := Some now;
     completed_at := None;
     error_count := 0;
     last_error := None |}.

Definition get_or_create_progress (lot_url announce_id : string)
    (now : timestamp) (db : database) : progress * database :=
  match select_progress lot_url db with
  | Some row => (row, db)
  | None =>
      let row := new_progress lot_url announce_id now in
      (row, {| lot_details := lot_details db;
               scraping_progress := scraping_progress db ++ [row] |})
  end.

(** One "column = ?" of the UPDATE statement built by update_progress,
    with its parameter. *)
Inductive assignment : Type :=
| SetStatus (v : string)
| SetStartedAt (v : timestamp)
| SetCompletedAt (v : timestamp)
| SetLotIdsFound (v : Z)
| SetLotIdsProcessed (v : Z)
| SetErrorCount (v : Z)
| SetLastError (v : string).

Definition assign (p : progress) (a : assignment) : progress :=
  match a with
  | SetStatus v =>
      {| p_lot_url := p_lot_url p; p_announce_id := p_announce_id p;
         status := v; lot_ids_found := lot_ids_found p;
         lot_ids_processed := lot_ids_processed p; started_at := started_at p;
         completed_at := completed_at p; error_count := error_count p;
         last_error := last_error p |}
  | SetStartedAt v =>
      {| p_lot_url := p_lot_url p; p_announce_id := p_announce_id p;
         status := status p; lot_ids_found := lot_ids_found p;
         lot_ids_processed := lot_ids_processed p; started_at := Some v;
         completed_at := completed_at p; error_count := error_count p;
         last_error := last_error p |}
  | SetCompletedAt v =>
      {| p_lot_url := p_lot_url p; p_announce_id := p_announce_id p;
         status := status p; lot_ids_found := lot_ids_found p;
         lot_ids_processed := lot_ids_processed p; started_at := started_at p;
         completed_at := Some v; error_count := error_count p;
         last_error := last_error p |}
  | SetLotIdsFound v =>
      {| p_lot_url := p_lot_url p; p_announce_id := p_announce_id p;
         status := status p; lot_ids_found := v;
         lot_ids_processed := lot_ids_processed p; started_at := started_at p;
         completed_at := completed_at p; error_count := error_count p;
         last_error := last_error p |}
  | SetLotIdsProcessed v =>
      {| p_lot_url := p_lot_url p; p_announce_id := p_announce_id p;
         status := status p; lot_ids_found := lot_ids_found p;
         lot_ids_processed := v; started_at := started_at p;
         completed_at := completed_at p; error_count := error_count p;
         last_error := last_error p |}
  | SetErrorCount v =>
      {| p_lot_url := p_lot_url p; p_announce_id := p_announce_id p;
         status := status p; lot_ids_found := lot_ids_found p;
         lot_ids_processed := lot_ids_processed p; started_at := started_at p;
         completed_at := completed_at p; error_count := v;
         last_error := last_error p |}
  | SetLastError v =>
      {| p_lot_url := p_lot_url p; p_announce_id := p_announce_id p;
         status := status p; lot_ids_found := lot_ids_found p;
         lot_ids_processed := lot_ids_processed p; started_at := started_at p;
         completed_at := completed_at p; error_count := error_count p;
         last_error := Some v |}
  end.

(** UPDATE scraping_progress SET <updates> WHERE lot_url = ? *)
Definition sql_update_progress (updates : list assignment) (url : string)
    (db : database) : database :=
  {| lot_details := lot_details db;
     scraping_progress :=
       (λ p, if bool_decide (p_lot_url p = url) then foldl assign p updates else p)
         <$> scraping_progress db |}.

(** The keyword arguments of update_progress; None is "not passed". *)
Record progress_fields : Type :=
  { f_status : option string;
    f_lot_ids_found : option Z;
    f_lot_ids_processed : option Z;
    f_error_count : option Z;
    f_last_error : option string }.

Definition no_fields : progress_fields :=
  {| f_status := None; f_lot_ids_found := None; f_lot_ids_processed := None;
     f_error_count := None; f_last_error := None |}.

Definition opt_list {A} (o : option A) (f : A → assignment) : list assignment :=
  match o with
  | Some v => [f v]
  | None => []
  end.

(** The list [updates] (with [params]) that update_progress builds. *)
Definition build_updates (a : progress_fields) (now : timestamp) : list assignment :=
  (match f_status a with
   | Some status =>
       if truthy_str status then
         SetStatus status ::
         (if bool_decide (status = "processing")
             && bool_decide (f_lot_ids_found a = None)
          then [SetStartedAt now]
          else if bool_decide (status = "completed")
          then [SetCompletedAt now]
          else [])
       else []
   | None => []
   end)
  ++ opt_list (f_lot_ids_found a) SetLotIdsFound
  ++ opt_list (f_lot_ids_processed a) SetLotIdsProcessed
  ++ opt_list (f_error_count a) SetErrorCount
  ++ opt_list (f_last_error a) SetLastError.

Definition update_progress (lot_url : string) (a : progress_fields)
    (now : timestamp) (db : database) : database :=
  match build_updates a now with
  | [] => db
  | updates => sql_update_progress updates lot_url db
  end.

(** SELECT lot_url ... WHERE status IN ('pending', 'failed') ORDER BY id *)
Definition get_pending_urls (db : database) : list string :=
  p_lot_url <$>
    filter (λ p, status p = "pending" ∨ status p = "failed") (scraping_progress db).

(** UPDATE ... SET lot_ids_processed = lot_ids_processed + 1 WHERE lot_url = ? *)
Definition increment_processed (url : string) (db : database) : database :=
  {| lot_details := lot_details db;
     scraping_progress :=
       (λ p, if bool_decide (p_lot_url p = url)
             then assign p (SetLotIdsProcessed (lot_ids_processed p + 1))
             else p)
         <$> scraping_progress db |}.

(** SELECT key, COUNT( * ) FROM ... GROUP BY key, read with
    dict(cursor.fetchall()): a count for every key that occurs. *)
Definition group_count (keys : list string) : gmap string Z :=
  foldr (λ key counts, <[key := default 0 (counts !! key) + 1]> counts) ∅ keys.

(** The dict that get_statistics returns; its keys 'parse_status' and
    'progress_status' are the fields by_parse_status and
    by_progress_status (parse_status is a column of lot_details here). *)
Record statistics : Type :=
  { total_lots : Z;
    total_urls : Z;
    by_parse_status : gmap string Z;
    by_progress_status : gmap string Z }.

Definition get_statistics (db : database) : statistics :=
  {| total_lots := Z.of_nat (length (lot_details db));
     total_urls := Z.of_nat (length (scraping_progress db));
     by_parse_status := group_count (parse_status <$> lot_details db);
     by_progress_status := group_count (status <$> scraping_progress db) |}.

End Database.

(* ===================================================================== *)
(** ** main.py *)
(* ===================================================================== *)

Module Main.
Import Parsers HttpClient Database.

(** self.stats, without start_time. *)
Record stats : Type :=
  { urls_processed : Z; lots_found : Z; lots_saved : Z; lots_failed : Z }.

Definition stats0 : stats :=
  {| urls_processed := 0; lots_found := 0; lots_saved := 0; lots_failed := 0 |}.

(** The arguments of TenderParser.__init__ that the methods read. *)
Record tender_parser : Type := { max_urls : option Z; resume : bool }.

(** The collaborators of the orchestrator. *)
Class env : Type :=
  { env_net :: net_env;
    (* lxml, see Parsers *)
    lxml_lot_ids : string → outcome (list string);
    lxml_rows : string → outcome (list table_row * list table_row * list table_row);
    (* the k-th reading of the clock (datetime.now(), CURRENT_TIMESTAMP) *)
    clock : nat → timestamp;
    (* the value of self.shutdown_requested at its k-th reading; the signal
       handler sets the flag between readings *)
    shutdown_flag : nat → bool;
    (* config.REQUEST_DELAY *)
    REQUEST_DELAY : delay;
    (* self.http_client *)
    http_client : client }.

Section Orchestrator.

Context {E : env}.
Variable self : tender_parser.

(** Everything the orchestrator reads and changes. *)
Record world : Type :=
  { w_db : database;
    w_net : net;
    w_ticks : nat;        (* clock readings so far *)
    w_polls : nat;        (* readings of shutdown_requested so far *)
    w_stats : stats }.

Definition world0 : world :=
  {| w_db := empty_db; w_net := net0; w_ticks := 0%nat;
     w_polls := 0%nat; w_stats := stats0 |}.

Definition set_db (db : database) (w : world) : world :=
  {| w_db := db; w_net := w_net w; w_ticks := w_ticks w;
     w_polls := w_polls w; w_stats := w_stats w |}.
Definition set_net (n : net) (w : world) : world :=
  {| w_db := w_db w; w_net := n; w_ticks := w_ticks w;
     w_polls := w_polls w; w_stats := w_stats w |}.
Definition set_stats (s : stats) (w : world) : world :=
  {| w_db := w_db w; w_net := w_net w; w_ticks := w_ticks w;
     w_polls := w_polls w; w_stats := s |}.
Definition tick (w : world) : world :=
  {| w_db := w_db w; w_net := w_net w; w_ticks := S (w_ticks w);
     w_polls := w_polls w; w_stats := w_stats w |}.
Definition polled (w : world) : world :=
  {| w_db := w_db w; w_net := w_net w; w_ticks := w_ticks w;
     w_polls := S (w_polls w); w_stats := w_stats w |}.

(** A method call: it changes the world and returns or raises. *)
Definition M (A : Type) : Type := world → outcome A * world.

Definition ret {A} (a : A) : M A := λ w, (Ret a, w).

Definition bindM {A B} (c : M A) (k : A → M B) : M B := λ w,
  match c w with
  | (Ret a, w') => k a w'
  | (Raise e, w') => (Raise e, w')
  end.

(** try: c  except Exception as e: h e *)
Definition try_catch {A} (c : M A) (h : exn → M A) : M A := λ w,
  match c w with
  | (Ret a, w') => (Ret a, w')
  | (Raise e, w') => h e w'
  end.

Definition lift {A} (o : outcome A) : M A := λ w, (o, w).

#[global] Instance M_ret : MRet M := @ret.
#[global] Instance M_bind : MBind M := λ A B k c, bindM c k.

(** self.db.* *)
Definition db_get_or_create_progress (lot_url announce_id : string) : M progress :=
  λ w,
    match select_progress lot_url (w_db w) with
    | Some row => (Ret row, w)
    | None =>
        let '(row, db) :=
          get_or_create_progress lot_url announce_id (clock (w_ticks w)) (w_db w) in
        (Ret row, set_db db (tick w))
    end.

(** Whether this call of update_progress evaluates datetime.now(). *)
Definition stamps (a : progress_fields) : bool :=
  match f_status a with
  | Some s =>
      truthy_str s &&
      ((bool_decide (s = "processing") && bool_decide (f_lot_ids_found a = None))
       || bool_decide (s = "completed"))
  | None => false
  end.

Definition db_update_progress (lot_url : string) (a : progress_fields) : M unit :=
  λ w,
    let db := update_progress lot_url a (clock (w_ticks w)) (w_db w) in
    (Ret (), set_db db (if stamps a then tick w else w)).

Definition db_insert_lot_detail (lot_url data_lot_id announce_id : string)
    (parsed_data : parsed_dict) (parse_status : string)
    (error_message : option string) : M bool :=
  λ w,
    let '(res, db) :=
      insert_lot_detail lot_url data_lot_id announce_id parsed_data
                        parse_status error_message (clock (w_ticks w)) (w_db w) in
    (res, set_db db (tick w)).

Definition db_increment_processed (lot_url : string) : M unit :=
  λ w, (Ret (), set_db (increment_processed lot_url (w_db w)) w).

(** self.http_client.* *)
Definition http_get_lot_ids_page (announce_url : string) : M (option string) :=
  λ w,
    let '(res, n) :=
      get_lot_ids_page http_client announce_url (w_net w) in
    (res, set_net n w).

Definition http_get_lot_detail (announce_id data_lot_id : string)
  : M (option string) :=
  λ w,
    let '(res, n) :=
      get_lot_detail http_client announce_id data_lot_id (w_net w) in
    (res, set_net n w).

Definition sleep (d : delay) : M unit :=
  λ w, (Ret (), set_net (time_sleep d (w_net w)) w).

(** Reading self.shutdown_requested. *)
Definition shutdown_requested : M bool :=
  λ w, (Ret (shutdown_flag (w_polls w)), polled w).

(** self.stats[...] += n *)
Definition add_lots_found (n : Z) : M unit := λ w,
  let s := w_stats w in
  (Ret (), set_stats {| urls_processed := urls_processed s;
                        lots_found := lots_found s + n;
                        lots_saved := lots_saved s;
                        lots_failed := lots_failed s |} w).
Definition add_lots_saved : M unit := λ w,
  let s := w_stats w in
  (Ret (), set_stats {| urls_processed := urls_processed s;
                        lots_found := lots_found s;
                        lots_saved := lots_saved s + 1;
                        lots_failed := lots_failed s |} w).
Definition add_lots_failed : M unit := λ w,
  let s := w_stats w in
  (Ret (), set_stats {| urls_processed := urls_processed s;
                        lots_found := lots_found s;
                        lots_saved := lots_saved s;
                        lots_failed := lots_failed s + 1 |} w).
Definition add_urls_processed : M unit := λ w,
  let s := w_stats w in
  (Ret (), set_stats {| urls_processed := urls_processed s + 1;
                        lots_found := lots_found s;
                        lots_saved := lots_saved s;
                        lots_failed := lots_failed s |} w).

(** str(e) *)
Definition str_exn (e : exn) : string :=
  match e with
  | HTTPError => "HTTPError"
  | Timeout => "Timeout"
  | ConnectionError => "ConnectionError"
  | RequestException => "RequestException"
  | IntegrityError => "IntegrityError"
  | OtherError msg => msg
  end.

(** urls[:n] on a Python list. *)
Definition slice_to (n : Z) (urls : list string) : list string :=
  if bool_decide (0 ≤ n) then take (Z.to_nat n) urls
  else take (length urls - Z.to_nat (- n)) urls.

(** load_urls, from data.get('links', []) on. *)
Definition load_urls (links : list string) : M (list string) := λ w,
  let urls := links in
  let urls :=
    if resume self then
      let pending : gset string := list_to_set (get_pending_urls (w_db w)) in
      if bool_decide (pending ≠ ∅) then
        filter (λ url, url ∈ pending ∨ url ∉ pending) urls
      else urls
    else urls in
  let urls :=
    match max_urls self with
    | Some n =>
        if bool_decide (n ≠ 0) && bool_decide (Z.of_nat (length urls) > n)
        then slice_to n urls
        else urls
    | None => urls
    end in
  (Ret urls, w).

Definition with_status (s : string) : progress_fields :=
  {| f_status := Some s; f_lot_ids_found := None; f_lot_ids_processed := None;
     f_error_count := None; f_last_error := None |}.

Definition failed_with (msg : string) : progress_fields :=
  {| f_status := Some "failed"; f_lot_ids_found := None;
     f_lot_ids_processed := None; f_error_count := None;
     f_last_error := Some msg |}.

Definition process_lot (announce_url announce_id lot_id : string) : M unit :=
  try_catch
    (html_content ← http_get_lot_detail announce_id lot_id;
     match html_content with
     | Some html_content =>
         if truthy_str html_content then
           parsed_data ← lift (parse_lot_table lxml_rows html_content lot_id);
           let '(parse_status, error_message) :=
             determine_parse_status parsed_data in
           success ← db_insert_lot_detail announce_url lot_id announce_id
                        parsed_data parse_status error_message;
           if (success : bool) then
             (add_lots_saved;; db_increment_processed announce_url)
           else ret ()
         else add_lots_failed
     | None => add_lots_failed
     end)
    (λ e, add_lots_failed).

(** for lot_id in lot_ids: ... *)
Fixpoint lot_loop (announce_url announce_id : string) (lot_ids : list string)
  : M unit :=
  match lot_ids with
  | [] => ret ()
  | lot_id :: rest =>
      stop ← shutdown_requested;
      if (stop : bool) then ret ()
      else
        (process_lot announce_url announce_id lot_id;;
         sleep REQUEST_DELAY;;
         lot_loop announce_url announce_id rest)
  end.

(** The try block of process_url, once the lot IDs are known. *)
Definition process_lot_ids (announce_url announce_id : string)
    (lot_ids : list string) : M unit :=
  match lot_ids with
  | [] =>
      db_update_progress announce_url
        {| f_status := Some "completed"; f_lot_ids_found := Some 0;
           f_lot_ids_processed := Some 0; f_error_count := None;
           f_last_error := None |}
  | _ =>
      (db_update_progress announce_url
         {| f_status := None;
            f_lot_ids_found := Some (Z.of_nat (length lot_ids));
            f_lot_ids_processed := None; f_error_count := None;
            f_last_error := None |};;
       add_lots_found (Z.of_nat (length lot_ids));;
       lot_loop announce_url announce_id lot_ids;;
       db_update_progress announce_url (with_status "completed");;
       add_urls_processed)
  end.

(** The try statement of process_url with its except clause. *)
Definition process_url_try (announce_url announce_id : string) : M unit :=
  try_catch
    (html_content ← http_get_lot_ids_page announce_url;
     if truthy_opt_str html_content then
       lot_ids ← lift (extract_lot_ids lxml_lot_ids
                          (default "" html_content) announce_url);
       process_lot_ids announce_url announce_id lot_ids
     else
       db_update_progress announce_url
         (failed_with "Failed to fetch lot IDs page"))
    (λ e, db_update_progress announce_url (failed_with (str_exn e))).

Definition process_url (announce_url : string) : M unit :=
  match extract_announce_id announce_url with
  | Some announce_id =>
      if truthy_str announce_id then
        progress ← db_get_or_create_progress announce_url announce_id;
        if bool_decide (status progress = "completed") && resume self
        then ret ()
        else
          (db_update_progress announce_url (with_status "processing");;
           process_url_try announce_url announce_id)
      else ret ()
  | None => ret ()
  end.

(** for i, url in enumerate(url_iterator, 1): ... *)
Fixpoint url_loop (urls : list string) : M unit :=
  match urls with
  | [] => ret ()
  | url :: rest =>
      stop ← shutdown_requested;
      if (stop : bool) then ret ()
      else (process_url url;; url_loop rest)
  end.

(** run, from the parsed JSON document on; cleanup changes nothing
    that is modelled. *)
Definition run (links : list string) : M unit :=
  try_catch
    (urls ← load_urls links;
     match urls with
     | [] => ret ()
     | _ => url_loop urls
     end)
    (λ e, ret ()).

End Orchestrator.

End Main.


(* ===================================================================== *)
(** ** scraper.py *)
(* ===================================================================== *)

Module Scraper.

(** The BaseExceptions that "except Exception" lets through.  Ctrl+C
    reaches the coroutine as KeyboardInterrupt or, when asyncio.run cancels
    the main task, as CancelledError; CancelledError stands for every
    BaseException that run has no handler for. *)
Inductive interrupt : Type :=
| KeyboardInterrupt
| CancelledError.

(** How an awaited call of the browser ends: with a value, with an
    Exception, or with an interrupt delivered while it was awaited. *)
Inductive awaited (A : Type) : Type :=
| Gives (a : A)
| Throws (e : exn)
| Interrupts (i : interrupt).
Arguments Gives {A} a.
Arguments Throws {A} e.
Arguments Interrupts {A} i.

(** How a method that catches every Exception ends: it returns, or an
    interrupt passes through it. *)
Inductive guarded (A : Type) : Type :=
| Returned (a : A)
| Interrupted (i : interrupt).
Arguments Returned {A} a.
Arguments Interrupted {A} i.

(** What leaves the loop of run, or run itself, other than a return. *)
Inductive raised : Type :=
| Exc (e : exn)
| Base (i : interrupt).

Definition gives {A} (c : awaited A) : Prop := ∃ a, c = Gives a.

(** What the browser shows for one listing page. *)
Record page_view : Type :=
  { (* page.goto: the response status, None for no response *)
    goto : awaited (option Z);
    (* set_records_per_page (first page only), which raises again what
       its waits raise *)
    dropdown : awaited unit;
    (* wait_for_selector and query_selector_all, then get_attribute('href')
       of each element *)
    elements : awaited (list (awaited (option string))) }.

(** The collaborators of the scraper. *)
Class browser : Type :=
  { (* the page shown for a page number *)
    render : Z → page_view;
    (* urljoin(BASE_URL, href) *)
    urljoin : string → string;
    (* config['CHECKPOINT_INTERVAL'] and config['PAGE_DELAY'] > 0 *)
    CHECKPOINT_INTERVAL : Z;
    page_delay_positive : bool;
    (* asyncio.sleep(PAGE_DELAY) after a page: the interrupt delivered
       during it, if any *)
    pause : Z → option interrupt;
    (* whether the k-th write of the output file (json.dump to the
       temporary file, os.replace) goes through; a failed one raises an
       Exception *)
    write_ok : nat → bool }.

(** The attributes of GoszakupScraper that the loop changes, with the
    contents written to the output file (the link set of each write that
    went through, oldest first), the number of calls of save_checkpoint,
    the pages handed to scrape_page and the number of page delays slept
    to their end. *)
Record scraper : Type :=
  { all_links : gset string;
    pages_scraped : Z;
    checkpoints : list (gset string);
    saves : nat;
    visited : list Z;
    page_delays : nat }.

Definition scraper0 : scraper :=
  {| all_links := ∅; pages_scraped := 0; checkpoints := []; saves := 0%nat;
     visited := []; page_delays := 0%nat |}.

(** max_links and len(self.all_links) >= max_links *)
Definition cap_reached (max_links : option Z) (links : gset string) : bool :=
  truthy_opt_int max_links
  && bool_decide (Z.of_nat (size links) >= default 0 max_links).

Section WithBrowser.

Context {B : browser}.

(** The for loop of extract_links on (self.all_links, new_links); what
    get_attribute raises leaves the loop with the set as it is. *)
Fixpoint extract_loop (max_links : option Z)
    (elems : list (awaited (option string)))
    (links : gset string) (new_links : list string)
  : gset string * awaited (list string) :=
  match elems with
  | [] => (links, Gives new_links)
  | element :: rest =>
      if cap_reached max_links links then (links, Gives new_links)
      else
        match element with
        | Interrupts i => (links, Interrupts i)
        | Throws e => (links, Throws e)
        | Gives href =>
            if truthy_opt_str href then
              let absolute_url := urljoin (default "" href) in
              if bool_decide (absolute_url ∉ links) then
                let links' := {[absolute_url]} ∪ links in
                let new_links' := (new_links ++ [absolute_url]) in
                if cap_reached max_links links' then (links', Gives new_links')
                else extract_loop max_links rest links' new_links'
              else extract_loop max_links rest links new_links
            else extract_loop max_links rest links new_links
        end
  end.

(** extract_links: any Exception is logged and [] returned. *)
Definition extract_links (view : page_view) (max_links : option Z)
    (links : gset string) : gset string * guarded (list string) :=
  match elements view with
  | Interrupts i => (links, Interrupted i)
  | Throws _ => (links, Returned [])
  | Gives elems =>
      match extract_loop max_links elems links [] with
      | (links', Gives new_links) => (links', Returned new_links)
      | (links', Throws _) => (links', Returned [])
      | (links', Interrupts i) => (links', Interrupted i)
      end
  end.

Definition set_links (links : gset string) (sc : scraper) : scraper :=
  {| all_links := links; pages_scraped := pages_scraped sc;
     checkpoints := checkpoints sc; saves := saves sc; visited := visited sc;
     page_delays := page_delays sc |}.

Definition count_page (sc : scraper) : scraper :=
  {| all_links := all_links sc; pages_scraped := pages_scraped sc + 1;
     checkpoints := checkpoints sc; saves := saves sc; visited := visited sc;
     page_delays := page_delays sc |}.

Definition visit (page_num : Z) (sc : scraper) : scraper :=
  {| all_links := all_links sc; pages_scraped := pages_scraped sc;
     checkpoints := checkpoints sc; saves := saves sc;
     visited := visited sc ++ [page_num];
     page_delays := page_delays sc |}.

(** save_checkpoint: the file takes the current link set when the write
    goes through; a failed write is logged and nothing is raised.  The
    body awaits nothing, and interrupts are delivered at the awaits. *)
Definition save_checkpoint (sc : scraper) : scraper :=
  {| all_links := all_links sc; pages_scraped := pages_scraped sc;
     checkpoints :=
       if write_ok (saves sc) then checkpoints sc ++ [all_links sc]
       else checkpoints sc;
     saves := S (saves sc); visited := visited sc;
     page_delays := page_delays sc |}.

Definition page_delay (sc : scraper) : scraper :=
  {| all_links := all_links sc; pages_scraped := pages_scraped sc;
     checkpoints := checkpoints sc; saves := saves sc; visited := visited sc;
     page_delays := S (page_delays sc) |}.

(** scrape_page: the number of new links, 0 on any Exception (the
    screenshot taken then is inside a bare except). *)
Definition scrape_page (page_num : Z) (is_first_page : bool)
    (max_links : option Z) (sc : scraper) : guarded Z * scraper :=
  let sc := visit page_num sc in
  let view := render page_num in
  match goto view with
  | Interrupts i => (Interrupted i, sc)
  | Throws _ => (Returned 0, sc)
  | Gives response =>
      if bool_decide (response = Some 404) then (Returned 0, sc)
      else if match response with
              | Some status => bool_decide (status >= 400)
              | None => false
              end then (Returned 0, sc)
      else
        match (if is_first_page then dropdown view else Gives ()) with
        | Interrupts i => (Interrupted i, sc)
        | Throws _ => (Returned 0, sc)
        | Gives _ =>
            match extract_links view max_links (all_links sc) with
            | (links, Interrupted i) => (Interrupted i, set_links links sc)
            | (links, Returned new_links) =>
                (Returned (Z.of_nat (length new_links)),
                 count_page (set_links links sc))
            end
        end
  end.

(** The local variables of run. *)
Record loop_state : Type :=
  { page_num : Z; consecutive_empty_pages : Z; this : scraper }.

(** How one pass through the body of "while True" ends. *)
Inductive pass : Type :=
| Next (st : loop_state)                  (* page_num += 1, back to the top *)
| Break (st : loop_state)                 (* one of the three break statements *)
| Crash (e : exn) (st : loop_state)       (* an Exception leaves the loop *)
| Stop (i : interrupt) (st : loop_state). (* an interrupt leaves the loop *)

Definition max_consecutive_empty : Z := 3.

Definition loop_body (max_links : option Z) (start_page : Z) (st : loop_state)
  : pass :=
  if cap_reached max_links (all_links (this st)) then Break st
  else
    let is_first_page := bool_decide (page_num st = start_page) in
    match scrape_page (page_num st) is_first_page max_links (this st) with
    | (Interrupted i, sc) =>
        Stop i {| page_num := page_num st;
                  consecutive_empty_pages := consecutive_empty_pages st;
                  this := sc |}
    | (Returned new_links_count, sc) =>
        let consecutive :=
          if bool_decide (new_links_count = 0) then consecutive_empty_pages st + 1
          else 0 in
        let st1 := {| page_num := page_num st;
                      consecutive_empty_pages := consecutive; this := sc |} in
        if bool_decide (new_links_count = 0)
           && bool_decide (consecutive >= max_consecutive_empty) then Break st1
        else if bool_decide (CHECKPOINT_INTERVAL = 0) then
          (* pages_scraped % 0 *)
          Crash (OtherError "ZeroDivisionError") st1
        else
          let sc2 :=
            if bool_decide (pages_scraped sc `mod` CHECKPOINT_INTERVAL = 0)
            then save_checkpoint sc else sc in
          let st2 := {| page_num := page_num st;
                        consecutive_empty_pages := consecutive; this := sc2 |} in
          if cap_reached max_links (all_links sc2) then Break st2
          else if page_delay_positive then
            match pause (page_num st) with
            | Some i => Stop i st2
            | None =>
                Next {| page_num := page_num st + 1;
                        consecutive_empty_pages := consecutive;
                        this := page_delay sc2 |}
            end
          else
            Next {| page_num := page_num st + 1;
                    consecutive_empty_pages := consecutive; this := sc2 |}
    end.

(** At most [fuel] passes of the loop; None when the loop is still
    running after them. *)
Fixpoint while_true (fuel : nat) (max_links : option Z) (start_page : Z)
    (st : loop_state) : option (option raised * loop_state) :=
  match fuel with
  | O => None
  | S fuel' =>
      match loop_body max_links start_page st with
      | Next st' => while_true fuel' max_links start_page st'
      | Break st' => Some (None, st')
      | Crash e st' => Some (Some (Exc e), st')
      | Stop i st' => Some (Some (Base i), st')
      end
  end.

(** run, after setup_browser.  After the loop, and in the handlers of
    KeyboardInterrupt (which then returns) and of Exception (which raises
    it again), the final save is made; any other interrupt has no handler
    and leaves run with no final save. *)
Definition run (fuel : nat) (max_links : option Z) (start_page : Z)
    (sc : scraper) : option (option raised * scraper) :=
  match while_true fuel max_links start_page
          {| page_num := start_page; consecutive_empty_pages := 0; this := sc |} with
  | Some (None, st) => Some (None, save_checkpoint (this st))
  | Some (Some (Exc e), st) => Some (Some (Exc e), save_checkpoint (this st))
  | Some (Some (Base KeyboardInterrupt), st) =>
      Some (None, save_checkpoint (this st))
  | Some (Some (Base i), st) => Some (Some (Base i), this st)
  | None => None
  end.

End WithBrowser.

End Scraper.


(* ===================================================================== *)
(** * The vocabulary of the properties, and concrete instances *)
(* ===================================================================== *)

Module ParsersSpec.
Import Config Parsers.

(** The words of the specification for extract_lot_ids: drop the empty
    values, then keep the first occurrence of each value and delete the
    later ones. *)
Fixpoint first_seen (l : list string) : list string :=
  match l with
  | [] => []
  | x :: l' => x :: filter (λ y, y ≠ x) (first_seen l')
  end.

Definition spec_lot_ids (attrs : list string) : list string :=
  first_seen (filter (λ s, s ≠ "") attrs).

Definition lxml_example (html_content : string) : outcome (list string) :=
  if bool_decide (html_content = "") then Raise (OtherError "Document is empty")
  else Ret ["5"; "3"; "5"; "7"].

(** Seven of the twelve fields filled. *)
Definition seven_filled : parsed_dict :=
  <["lot_number" := Some "1"]> (<["lot_status" := Some "Опубликован"]>
  (<["customer_bin" := Some "990740000683"]> (<["customer_name" := Some "A"]>
  (<["tru_code" := Some "B"]> (<["tru_name" := Some "C"]>
  (<["quantity" := Some "3"]> all_none)))))).

(** A path segment: a string without '/'. *)
Fixpoint no_slash (s : string) : bool :=
  match s with
  | EmptyString => true
  | String c s' => negb (bool_decide (c = "/"%char)) && no_slash s'
  end.

(** What one table row assigns: the field key its header maps to and the
    value of its first data cell, None for an empty cell; nothing when the
    row lacks a th or a td or the header is not in FIELD_MAPPING. *)
Definition row_target (row : table_row) : option (string * option string) :=
  match row with
  | (field_name :: _, field_value :: _) =>
      match field_mapping_get field_name with
      | Some english_name =>
          Some (english_name, if truthy_str field_value then Some field_value else None)
      | None => None
      end
  | _ => None
  end.

(** The values the rows assign to one field key, in row order. *)
Definition assigned (key : string) (rows : list table_row) : list (option string) :=
  omap (λ row, match row_target row with
               | Some (english_name, v) =>
                   if bool_decide (english_name = key) then Some v else None
               | None => None
               end) rows.

(** The rows parse_lot_table reads: the first non-empty result of the
    three queries. *)
Definition chosen_rows (q : list table_row * list table_row * list table_row)
  : list table_row :=
  match q with
  | (rows1, rows2, rows3) =>
      match rows1 with
      | [] => match rows2 with [] => rows3 | _ => rows2 end
      | _ => rows1
      end
  end.

(** A detail fragment with two rows for the lot number, an empty status
    cell and a header that is not mapped. *)
Definition lxml_rows_example (html_content : string)
  : outcome (list table_row * list table_row * list table_row) :=
  if bool_decide (html_content = "") then Raise (OtherError "Document is empty")
  else Ret ([], [(["Лот №"], ["1"]); (["Статус лота"], [""]);
                 (["Итого"], ["5"]); (["Лот №"], ["2"; "x"])], []).

End ParsersSpec.

Module HttpClientSpec.
Import HttpClient.

Section Posted.

Context {N : net_env}.
Variables (url : string) (data : form).

(** The state after one POST. *)
Definition posted (st : net) : net := (session_post url data st).2.

End Posted.

(** Delays in whole seconds; the transport answers 429 to the first two
    POSTs and 200 afterwards. *)
Definition two_429_then_200 : net_env :=
  {| delay := Z; mul := Z.mul;
     transport := λ k _ _,
       Responds {| status_code := if bool_decide (k < 2)%nat then 429 else 200;
                   text := "<html>" |} |}.

Definition always_429 : net_env :=
  {| delay := Z; mul := Z.mul;
     transport := λ _ _ _, Responds {| status_code := 429; text := "" |} |}.

(** config.py: MAX_RETRIES = 3, RETRY_BASE_DELAY = 3.0, RATE_LIMIT_DELAY = 10.0 *)
Definition default_client {N : net_env} (base rate : delay) : client :=
  {| max_retries := Config.MAX_RETRIES; base_delay := base; rate_limit_delay := rate |}.

(** The transport answers 404 to every POST. *)
Definition always_404 : net_env :=
  {| delay := Z; mul := Z.mul;
     transport := λ _ _ _, Responds {| status_code := 404; text := "" |} |}.

(** An answer that post_with_retry retries with the exponential backoff:
    a 5xx response, a 4xx response other than 429 (through
    raise_for_status), or an exception of requests. *)
Definition retryable (a : attempt_result) : Prop :=
  match a with
  | Responds r => 400 ≤ status_code r < 600 ∧ status_code r ≠ 429
  | Fails e => is_RequestException e = true
  end.

(** A timeout, then a 503, then 200. *)
Definition flaky : net_env :=
  {| delay := Z; mul := Z.mul;
     transport := λ k _ _,
       match k with
       | O => Fails Timeout
       | S O => Responds {| status_code := 503; text := "" |}
       | _ => Responds {| status_code := 200; text := "<html>" |}
       end |}.

(** The connection fails on every POST. *)
Definition unreachable : net_env :=
  {| delay := Z; mul := Z.mul; transport := λ _ _ _, Fails ConnectionError |}.

(** Every POST is answered 204 with a body. *)
Definition no_content : net_env :=
  {| delay := Z; mul := Z.mul;
     transport := λ _ _ _, Responds {| status_code := 204; text := "x" |} |}.

End HttpClientSpec.

Module DatabaseSpec.
Import Parsers Database.

Definition progress_status (url : string) (db : database) : option string :=
  status <$> select_progress url db.

(** The status argument when it is passed and not empty ("if status:"). *)
Definition passed_status (a : progress_fields) : option string :=
  match f_status a with
  | Some s => if truthy_str s then Some s else None
  | None => None
  end.

(** The row after a sparse update, column by column: a column takes the
    value passed for it and keeps its value otherwise; started_at is stamped
    when status 'processing' is passed without lot_ids_found, completed_at
    when status 'completed' is passed. *)
Definition updated_row (a : progress_fields) (now : timestamp) (p : progress)
  : progress :=
  {| p_lot_url := p_lot_url p;
     p_announce_id := p_announce_id p;
     status := default (status p) (passed_status a);
     lot_ids_found := default (lot_ids_found p) (f_lot_ids_found a);
     lot_ids_processed := default (lot_ids_processed p) (f_lot_ids_processed a);
     started_at :=
       if bool_decide (passed_status a = Some "processing" ∧ f_lot_ids_found a = None)
       then Some now else started_at p;
     completed_at :=
       if bool_decide (passed_status a = Some "completed")
       then Some now else completed_at p;
     error_count := default (error_count p) (f_error_count a);
     last_error :=
       match f_last_error a with
       | Some e => Some e
       | None => last_error p
       end |}.

(** The keyword arguments of update_progress(url, status='processing'). *)
Definition only_processing : progress_fields :=
  {| f_status := Some "processing"; f_lot_ids_found := None;
     f_lot_ids_processed := None; f_error_count := None; f_last_error := None |}.

(** One URL, created at time 50 by get_or_create_progress. *)
Definition one_pending : database :=
  (get_or_create_progress "u" "1" 50 empty_db).2.

(** The sum of the counts of a breakdown. *)
Definition sum_counts (counts : gmap string Z) : Z :=
  map_fold (λ _ n acc, n + acc) 0 counts.

(** The number of occurrences of a key. *)
Definition occurrences (key : string) (keys : list string) : Z :=
  Z.of_nat (length (filter (λ k, k = key) keys)).

(** The keyword arguments of update_progress(url, status=s). *)
Definition only_status (s : string) : progress_fields :=
  {| f_status := Some s; f_lot_ids_found := None;
     f_lot_ids_processed := None; f_error_count := None; f_last_error := None |}.

(** Three URLs: 'completed', 'failed' and 'pending', with one lot stored. *)
Definition three_urls : database :=
  let db := (get_or_create_progress "a" "1" 10 empty_db).2 in
  let db := (get_or_create_progress "b" "2" 11 db).2 in
  let db := (get_or_create_progress "c" "3" 12 db).2 in
  let db := update_progress "a" (only_status "completed") 13 db in
  let db := update_progress "b" (only_status "failed") 14 db in
  (insert_lot_detail "a" "7" "1" all_none "failed" None 15 db).2.

End DatabaseSpec.

Module MainSpec.
Import Parsers HttpClient Database Main.
Import HttpClientSpec.

Section Worlds.

Context {E : env}.

(** A URL from which process_url can read an announce id. *)
Definition readable (url : string) : Prop :=
  ∃ announce_id, extract_announce_id url = Some announce_id ∧ announce_id ≠ "".

(** What holds of every stored database: the UNIQUE constraint of
    lot_details, and a readable URL in every progress row (process_url
    creates the row only after reading the announce id). *)
Definition store_invariant (db : database) : Prop :=
  unique_lots db ∧ Forall readable (p_lot_url <$> scraping_progress db).

(** How a call may change the world: the UNIQUE constraint of lot_details
    is kept, stored lot rows stay as they are and new ones are appended,
    no progress row disappears, the log of POSTs grows at its end, and a
    progress row is created for readable URLs only. *)
Definition evolves (w w' : world) : Prop :=
  (unique_lots (w_db w) → unique_lots (w_db w'))
  ∧ lot_details (w_db w) `prefix_of` lot_details (w_db w')
  ∧ (p_lot_url <$> scraping_progress (w_db w))
      ⊆ (p_lot_url <$> scraping_progress (w_db w'))
  ∧ posts (w_net w) `prefix_of` posts (w_net w')
  ∧ (∀ url, url ∈ p_lot_url <$> scraping_progress (w_db w') →
       url ∈ p_lot_url <$> scraping_progress (w_db w) ∨ readable url).

(** The call changes the world only in the ways of [evolves]. *)
Definition sound {A} (c : M A) : Prop := ∀ w, evolves w (c w).2.

(** The call returns: it raises in no world. *)
Definition total {A} (c : M A) : Prop := ∀ w, returns (c w).1.

(** Whether get_lot_ids_page gave a non-empty page. *)
Definition fetched (page : outcome (option string)) : bool :=
  match page with
  | Ret html_content => truthy_opt_str html_content
  | Raise _ => false
  end.

End Worlds.

Section Effects.

Context {E : env}.

(** A call whose every run relates the world before to the world after. *)
Definition respects {A} (R : world → world → Prop) (c : M A) : Prop :=
  ∀ w, R w (c w).2.

(** What processing one announcement may change: the progress row of its
    URL, and the lot table by appended rows that carry its URL and its
    announce id, each counted in lots_saved. *)
Definition confined (url announce_id : string) (w w' : world) : Prop :=
  (∀ url', url' ≠ url →
     select_progress url' (w_db w') = select_progress url' (w_db w))
  ∧ ∃ rows,
      lot_details (w_db w') = lot_details (w_db w) ++ rows
      ∧ Forall (λ r, Database.lot_url r = url
                     ∧ Database.announce_id r = announce_id) rows
      ∧ lots_saved (w_stats w') = lots_saved (w_stats w) + Z.of_nat (length rows).

(** What a run over some URLs may add to the lot table: rows of these
    URLs, each with the announce id read from its URL and each counted in
    lots_saved. *)
Definition adds_lots (urls : list string) (w w' : world) : Prop :=
  ∃ rows,
    lot_details (w_db w') = lot_details (w_db w) ++ rows
    ∧ Forall (λ r, Database.lot_url r ∈ urls
                   ∧ extract_announce_id (Database.lot_url r)
                     = Some (Database.announce_id r)) rows
    ∧ lots_saved (w_stats w') = lots_saved (w_stats w) + Z.of_nat (length rows).

(** Two worlds that differ at most in the number of readings of the
    shutdown flag. *)
Definition same_but_polls (w w' : world) : Prop :=
  w_db w' = w_db w ∧ w_net w' = w_net w
  ∧ w_stats w' = w_stats w ∧ w_ticks w' = w_ticks w.

(** The message that process_url stores in last_error when the lot-IDs
    page is not fetched: the fixed text when get_lot_ids_page returns
    nothing, str(e) when it raises. *)
Definition fetch_error (page : outcome (option string)) : string :=
  match page with
  | Ret _ => "Failed to fetch lot IDs page"
  | Raise e => str_exn e
  end.

(** How the counters move while up to n lots are processed: lots_found
    and urls_processed stay, lots_saved and lots_failed do not go down,
    and together they go up by at most n. *)
Definition counts_lots (n : Z) (w w' : world) : Prop :=
  lots_found (w_stats w') = lots_found (w_stats w)
  ∧ urls_processed (w_stats w') = urls_processed (w_stats w)
  ∧ lots_saved (w_stats w) ≤ lots_saved (w_stats w')
  ∧ lots_failed (w_stats w) ≤ lots_failed (w_stats w')
  ∧ (lots_saved (w_stats w') - lots_saved (w_stats w))
    + (lots_failed (w_stats w') - lots_failed (w_stats w)) ≤ n.

End Effects.

(** *** A concrete portal *)

(** The lot-IDs page of announcement 2 times out; every other POST is
    answered 200.  Delays are whole seconds. *)
Definition demo_net : net_env :=
  {| delay := Z; mul := Z.mul;
     transport := λ _ url data,
       match data with
       | None =>
           if bool_decide (url = "h/index/2?tab=lots#") then Fails Timeout
           else Responds {| status_code := 200; text := "<page>" |}
       | Some _ => Responds {| status_code := 200; text := "<table>" |}
       end |}.

(** Every page lists lots 84809767 and 84809768 (the first one twice);
    every lot table has the row of the lot number. *)
Definition demo_env (flag : nat → bool) : env :=
  {| env_net := demo_net;
     lxml_lot_ids := λ _, Ret ["84809767"; "84809768"; "84809767"];
     lxml_rows := λ _, Ret ([(["Лот №"], ["1"])], [], []);
     clock := λ k, Z.of_nat k;
     shutdown_flag := flag;
     REQUEST_DELAY := (0 : Z);
     http_client := default_client (N := demo_net) 3 10 |}.

Definition resume_on : tender_parser := {| max_urls := None; resume := true |}.

Definition demo_links : list string := ["h/index/1"; "h/index/2"].

(** The world after a first run over both links with no shutdown request. *)
Definition after_first_run : world (E := demo_env (λ _, false)) :=
  (run resume_on demo_links world0).2.

End MainSpec.

Module ScraperSpec.
Import Scraper.

(** The state with which a pass through the loop body ends. *)
Definition state_of (p : pass) : loop_state :=
  match p with
  | Next st => st
  | Break st => st
  | Crash _ st => st
  | Stop _ st => st
  end.

(** Page 1 shows two links, pages 2 to 4 show the same two links again,
    every page from 5 on would show a new link.  No interrupt is
    delivered and every write goes through. *)
Definition demo_browser : browser :=
  {| render := λ n,
       {| goto := Gives (Some 200);
          dropdown := Gives ();
          elements :=
            Gives (if bool_decide (n ≤ 4)
                   then [Gives (Some "/a/1"); Gives (Some "/a/2")]
                   else [Gives (Some ("/a/" +:+ pretty n))]) |};
     urljoin := λ href, "https://goszakup.gov.kz" +:+ href;
     CHECKPOINT_INTERVAL := 10;
     page_delay_positive := true;
     pause := λ _, None;
     write_ok := λ _, true |}.

(** The top of the loop after page 1, under a cap of five links. *)
Definition after_page_one : loop_state :=
  state_of (loop_body (B := demo_browser) (Some 5) 1
              {| page_num := 1; consecutive_empty_pages := 0; this := scraper0 |}).

(** Link sets in the order they were written, each within the later ones. *)
Definition chain (cps : list (gset string)) : Prop :=
  ∀ i j cp1 cp2, (i ≤ j)%nat →
    cps !! i = Some cp1 → cps !! j = Some cp2 → cp1 ⊆ cp2.

(** A later state of the scraper: no link is lost, and the contents
    written to the file in between lie between the two link sets and form
    a chain. *)
Definition grows (sc sc' : scraper) : Prop :=
  all_links sc ⊆ all_links sc'
  ∧ ∃ added,
      checkpoints sc' = checkpoints sc ++ added
      ∧ chain added
      ∧ Forall (λ cp, all_links sc ⊆ cp ∧ cp ⊆ all_links sc') added.

(** A later state under the cap m: the link set has at most m links,
    unless it had more to begin with, and then it has not grown. *)
Definition within_cap (m : Z) (sc sc' : scraper) : Prop :=
  Z.of_nat (size (all_links sc')) ≤ Z.max m (Z.of_nat (size (all_links sc))).

(** A listing of two pages with two links each; later pages are empty.
    No interrupt is delivered and every write goes through. *)
Definition fresh_browser : browser :=
  {| render := λ n,
       {| goto := Gives (Some 200);
          dropdown := Gives ();
          elements :=
            Gives (if bool_decide (n = 1)
                   then [Gives (Some "/a/1"); Gives (Some "/a/2")]
                   else if bool_decide (n = 2)
                   then [Gives (Some "/a/3"); Gives (Some "/a/4")]
                   else []) |};
     urljoin := λ href, "https://goszakup.gov.kz" +:+ href;
     CHECKPOINT_INTERVAL := 1;
     page_delay_positive := true;
     pause := λ _, None;
     write_ok := λ _, true |}.

End ScraperSpec.


(* ===================================================================== *)
(** * Properties *)
(* ===================================================================== *)

(** ** parsers.py *)

Module ParsersFacts.
Import Config Parsers ParsersSpec.

Lemma dedup_step_skip (st : gset string * list string) (x : string) :
  x = "" ∨ x ∈ st.1 → dedup_step st x = st.
Proof.
  intros H. unfold dedup_step, truthy_str.
  destruct H as [-> | H].
  - rewrite bool_decide_eq_false_2; [done | by intros []].
  - rewrite (bool_decide_eq_false_2 (x ∉ st.1)); [| by intros []].
    by rewrite andb_false_r.
Qed.

Lemma dedup_step_new (st : gset string * list string) (x : string) :
  x ≠ "" → x ∉ st.1 → dedup_step st x = ({[x]} ∪ st.1, st.2 ++ [x]).
Proof.
  intros H1 H2. unfold dedup_step, truthy_str.
  by rewrite !bool_decide_eq_true_2.
Qed.

(** The loop of the code computes the specification's list, whatever the
    set and list it starts from. *)
Lemma dedup_fold (l : list string) :
  ∀ (seen : gset string) (u : list string),
    (foldl dedup_step (seen, u) l).2
    = (u ++ filter (λ y, y ∉ seen) (spec_lot_ids l)).
Proof.
  unfold spec_lot_ids.
  induction l as [| x l IH]; intros seen u; simpl.
  - by rewrite app_nil_r.
  - destruct (decide (x = "")) as [-> | Hne].
    + rewrite dedup_step_skip by (by left).
      rewrite filter_cons_False by (by intros []). apply IH.
    + rewrite (filter_cons_True (λ s, s ≠ "")) by done. simpl.
      destruct (decide (x ∈ seen)) as [Hin | Hnin].
      * rewrite dedup_step_skip by (by right).
        rewrite IH. f_equal.
        rewrite filter_cons_False by (by intros []).
        rewrite list_filter_filter.
        apply list_filter_iff. intros y. split; [| tauto].
        intros Hy. split; [done |]. by intros ->.
      * rewrite dedup_step_new by done. simpl.
        rewrite IH, <- app_assoc. simpl. f_equal.
        rewrite filter_cons_True by done. f_equal.
        rewrite list_filter_filter.
        apply list_filter_iff. intros y.
        rewrite elem_of_union, elem_of_singleton. tauto.
Qed.

Lemma unique_in_order_spec (l : list string) :
  unique_in_order l = spec_lot_ids l.
Proof.
  unfold unique_in_order. rewrite dedup_fold. simpl.
  induction (spec_lot_ids l) as [| y k IH]; [done |].
  rewrite filter_cons_True by apply not_elem_of_empty. by f_equal.
Qed.

Lemma first_seen_elem (l : list string) (x : string) :
  x ∈ first_seen l ↔ x ∈ l.
Proof.
  induction l as [| y l IH]; simpl; [done |].
  rewrite !elem_of_cons, list_elem_of_filter, IH.
  destruct (decide (x = y)); tauto.
Qed.

Lemma first_seen_NoDup (l : list string) : NoDup (first_seen l).
Proof.
  induction l as [| y l IH]; simpl; [constructor |].
  constructor.
  - rewrite list_elem_of_filter. by intros [? _].
  - by apply NoDup_filter.
Qed.

(** First-seen order: a value that has not occurred before comes right
    after the result for everything before it. *)
Lemma unique_in_order_first (l1 l2 : list string) (x : string) :
  x ≠ "" → x ∉ l1 →
  ∃ ext, unique_in_order (l1 ++ x :: l2) = (unique_in_order l1 ++ x :: ext).
Proof.
  intros Hne Hnin. unfold unique_in_order.
  rewrite foldl_app. simpl.
  destruct (foldl dedup_step (∅, []) l1) as [seen u] eqn:Hst.
  assert (Hseen : ∀ y, y ∈ seen → y ∈ l1).
  { clear Hnin. revert seen u Hst.
    induction l1 as [| z l1 IH] using rev_ind; intros seen u Hst y Hy.
    - simpl in Hst. injection Hst as <- <-. by apply elem_of_empty in Hy.
    - rewrite foldl_app in Hst. simpl in Hst.
      destruct (foldl dedup_step (∅, []) l1) as [seen1 u1] eqn:H1.
      specialize (IH seen1 u1 eq_refl).
      unfold dedup_step in Hst. simpl in Hst.
      apply elem_of_app.
      destruct (truthy_str z && bool_decide (z ∉ seen1)).
      + injection Hst as <- <-.
        apply elem_of_union in Hy as [Hy | Hy]; [right | left; by apply IH].
        apply elem_of_singleton in Hy as ->. by left.
      + injection Hst as <- <-. left. by apply IH. }
  rewrite dedup_step_new; [| done | simpl; intros Hx; by apply Hnin, Hseen].
  simpl. rewrite dedup_fold. rewrite <- app_assoc. simpl. eauto.
Qed.

(** Whatever lxml does, extract_lot_ids returns a list. *)
Lemma extract_lot_ids_returns (lxml_lot_ids : string → outcome (list string))
    (html_content announce_url : string) :
  returns (extract_lot_ids lxml_lot_ids html_content announce_url).
Proof.
  unfold extract_lot_ids, returns.
  destruct (lxml_lot_ids html_content); simpl; eauto.
Qed.

(** C5.  extract_lot_ids never raises.  When lxml yields the attribute
    values [attrs], the result is the list of the non-empty values with
    later duplicates removed, in first-occurrence order: it has no
    duplicates, holds exactly the non-empty values of [attrs], and a value
    first seen after the prefix [l1] comes right after the result for
    [l1].  Values 5,3,5,7 yield 5,3,7; no value at all yields the empty
    list, as does markup on which lxml raises. *)
Theorem extract_lot_ids_dedups_in_order
    (lxml_lot_ids : string → outcome (list string))
    (html_content announce_url : string) :
  returns (extract_lot_ids lxml_lot_ids html_content announce_url)
  ∧ (∀ attrs, lxml_lot_ids html_content = Ret attrs →
       ∃ ids, extract_lot_ids lxml_lot_ids html_content announce_url = Ret ids
         ∧ ids = spec_lot_ids attrs
         ∧ NoDup ids
         ∧ (∀ x, x ∈ ids ↔ x ∈ attrs ∧ x ≠ "")
         ∧ (∀ l1 x l2, attrs = (l1 ++ x :: l2) → x ≠ "" → x ∉ l1 →
              ∃ ext, ids = (spec_lot_ids l1 ++ x :: ext))
         ∧ (attrs = ["5"; "3"; "5"; "7"] → ids = ["5"; "3"; "7"])
         ∧ (attrs = [] → ids = []))
  ∧ (∀ e, lxml_lot_ids html_content = Raise e →
       extract_lot_ids lxml_lot_ids html_content announce_url = Ret []).
Proof.
  unfold extract_lot_ids, returns.
  destruct (lxml_lot_ids html_content) as [attrs | e] eqn:Hx; simpl.
  - split; [eauto |]. split; [| by intros].
    intros ? [= <-]. exists (unique_in_order attrs).
    split; [done |]. rewrite unique_in_order_spec.
    split; [done |]. split; [apply first_seen_NoDup |].
    split.
    { intros x. unfold spec_lot_ids.
      rewrite first_seen_elem, list_elem_of_filter. tauto. }
    split.
    { intros l1 x l2 -> Hne Hnin.
      rewrite <- !unique_in_order_spec. by apply unique_in_order_first. }
    split; by intros ->.
  - split; [eauto |]. split; [by intros |]. by intros.
Qed.

(** On a page with the values 5, 3, 5, 7, and on the empty document. *)
Lemma extract_lot_ids_dedups_in_order_witness :
  lxml_example "<a data-lot-id=5>" = Ret ["5"; "3"; "5"; "7"]
  ∧ extract_lot_ids lxml_example "<a data-lot-id=5>" "u" = Ret ["5"; "3"; "7"]
  ∧ extract_lot_ids lxml_example "" "u" = Ret [].
Proof.
  destruct (extract_lot_ids_dedups_in_order lxml_example "<a data-lot-id=5>" "u")
    as (_ & H & _).
  destruct (H ["5"; "3"; "5"; "7"] eq_refl) as (ids & Hids & _ & _ & _ & _ & Hex & _).
  split; [reflexivity |]. split.
  - rewrite Hids. f_equal. exact (Hex eq_refl).
  - reflexivity.
Defined.

Lemma all_none_dom : dom all_none = list_to_set FIELD_KEYS.
Proof. refine (bool_decide_unpack _ _). vm_compute. exact I. Qed.

Lemma field_mapping_get_key (field_name english_name : string) :
  field_mapping_get field_name = Some english_name →
  english_name ∈ FIELD_KEYS.
Proof.
  unfold field_mapping_get, FIELD_KEYS. intros H.
  apply elem_of_list_to_map_2 in H.
  apply list_elem_of_fmap. by exists (field_name, english_name).
Qed.

Lemma parse_row_dom (result : parsed_dict) (row : table_row) :
  dom result = list_to_set FIELD_KEYS →
  dom (parse_row result row) = list_to_set FIELD_KEYS.
Proof.
  intros Hdom. unfold parse_row.
  destruct row as [[| field_name ths] [| field_value tds]]; try done.
  destruct (field_mapping_get field_name) as [english_name |] eqn:Hget; [| done].
  apply field_mapping_get_key in Hget.
  rewrite dom_insert_L, Hdom.
  apply set_eq. intros k.
  rewrite elem_of_union, elem_of_singleton, elem_of_list_to_set.
  split; [| tauto]. by intros [-> | ?].
Qed.

(** parse_lot_table never raises, and its result is a mapping over the
    twelve field keys: the dict that determine_parse_status receives in
    process_lot. *)
Lemma parse_lot_table_keys
    (lxml_rows : string → outcome (list table_row * list table_row * list table_row))
    (html_content data_lot_id : string) :
  ∃ parsed_data,
    parse_lot_table lxml_rows html_content data_lot_id = Ret parsed_data
    ∧ dom parsed_data = list_to_set FIELD_KEYS.
Proof.
  assert (Hfold : ∀ rows result, dom result = list_to_set FIELD_KEYS →
            dom (foldl parse_row result rows) = list_to_set FIELD_KEYS).
  { induction rows as [| row rows IH]; intros result Hdom; [done |].
    simpl. by apply IH, parse_row_dom. }
  assert (Hrows : ∀ rows : list table_row,
            ∃ parsed_data,
              match rows with
              | [] => Ret all_none
              | _ => Ret (foldl parse_row all_none rows)
              end = Ret parsed_data
              ∧ dom parsed_data = list_to_set FIELD_KEYS).
  { intros [| row rows]; eexists; (split; [reflexivity |]).
    - apply all_none_dom.
    - apply Hfold, all_none_dom. }
  unfold parse_lot_table.
  destruct (lxml_rows html_content) as [[[rows1 rows2] rows3] | e]; simpl.
  - set (rows := match match rows1 with [] => rows2 | _ => rows1 end with
                 | [] => rows3
                 | _ => match rows1 with [] => rows2 | _ => rows1 end
                 end).
    destruct (Hrows rows) as (parsed_data & Heq & Hdom).
    exists parsed_data. split; [| done].
    unfold try_except. by destruct rows.
  - eexists. split; [reflexivity | apply all_none_dom].
Qed.

Lemma field_keys_size : size (list_to_set FIELD_KEYS : gset string) = 12%nat.
Proof.
  rewrite size_list_to_set; [reflexivity |].
  refine (bool_decide_unpack _ _). vm_compute. exact I.
Qed.

Lemma dict_values_length (parsed_data : parsed_dict) :
  dom parsed_data = list_to_set FIELD_KEYS →
  length (dict_values parsed_data) = 12%nat.
Proof.
  intros Hdom. unfold dict_values.
  rewrite length_fmap, length_map_to_list, <- (size_dom (D := gset string)), Hdom.
  apply field_keys_size.
Qed.

Lemma filter_length_zero {A} (P : A → Prop) `{!∀ x, Decision (P x)} (l : list A) :
  length (filter P l) = 0%nat ↔ Forall (λ x, ¬ P x) l.
Proof.
  induction l as [| x l IH]; simpl.
  - split; [constructor | done].
  - rewrite filter_cons. destruct (decide (P x)) as [Hp | Hp]; simpl.
    + split; [done |]. by inversion 1.
    + rewrite IH. split; [by constructor |]. by inversion 1.
Qed.

Lemma filter_length_all {A} (P : A → Prop) `{!∀ x, Decision (P x)} (l : list A) :
  length (filter P l) = length l ↔ Forall P l.
Proof.
  induction l as [| x l IH]; simpl.
  - split; [constructor | done].
  - rewrite filter_cons. destruct (decide (P x)) as [Hp | Hp]; simpl.
    + split.
      * intros [= Hs]. constructor; [done |]. by apply IH.
      * inversion 1; subst. f_equal. by apply IH.
    + pose proof (length_filter P l). split; [lia |]. by inversion 1.
Qed.

Lemma dict_values_Forall (Q : option string → Prop) (parsed_data : parsed_dict) :
  Forall Q (dict_values parsed_data)
  ↔ ∀ key v, parsed_data !! key = Some v → Q v.
Proof.
  unfold dict_values. rewrite Forall_fmap, Forall_forall. split.
  - intros H key v Hk. apply (H (key, v)). by apply elem_of_map_to_list.
  - intros H [key v] Hin. apply (H key). by apply elem_of_map_to_list.
Qed.

(** C4.  On a mapping over the twelve field keys, with n the number of
    values that are not None (so 0 <= n <= 12; n = 0 says every value is
    None and n = 12 that none is): for n = 0 the result is 'failed' with
    the message 'No fields could be parsed'; for 1 <= n <= 11 it is
    'partial' with the message 'Only n/12 fields parsed (12-n missing)',
    so 7 filled fields give '(5 missing)'; for n = 12 it is 'success'
    with no message. *)
Theorem determine_parse_status_tristate (parsed_data : parsed_dict) :
  dom parsed_data = list_to_set FIELD_KEYS →
  let n := filled_count parsed_data in
  0 ≤ n ≤ 12
  ∧ (n = 0 ↔ ∀ key v, parsed_data !! key = Some v → v = None)
  ∧ (n = 12 ↔ ∀ key v, parsed_data !! key = Some v → v ≠ None)
  ∧ (n = 0 →
       determine_parse_status parsed_data
       = ("failed", Some "No fields could be parsed"))
  ∧ (1 ≤ n ≤ 11 →
       determine_parse_status parsed_data
       = ("partial",
          Some ("Only " +:+ str_of_int n +:+ "/12 fields parsed ("
                +:+ str_of_int (12 - n) +:+ " missing)")))
  ∧ (n = 7 →
       determine_parse_status parsed_data
       = ("partial", Some "Only 7/12 fields parsed (5 missing)"))
  ∧ (n = 12 → determine_parse_status parsed_data = ("success", None)).
Proof.
  intros Hdom n.
  pose proof (dict_values_length parsed_data Hdom) as Hlen.
  pose proof (length_filter is_Some (dict_values parsed_data)) as Hle.
  assert (Hn : n = Z.of_nat (length (filter is_Some (dict_values parsed_data))))
    by reflexivity.
  assert (Htot : Z.of_nat (length FIELD_MAPPING) = 12) by reflexivity.
  assert (Hpartial : 1 ≤ n ≤ 11 →
    determine_parse_status parsed_data
    = ("partial",
       Some ("Only " +:+ str_of_int n +:+ "/12 fields parsed ("
             +:+ str_of_int (12 - n) +:+ " missing)"))).
  { intros Hr. unfold determine_parse_status. fold n. rewrite Htot.
    rewrite bool_decide_eq_false_2 by lia.
    rewrite bool_decide_eq_true_2 by lia.
    reflexivity. }
  split; [lia |]. split; [| split; [| split; [| split; [| split]]]].
  - rewrite <- (dict_values_Forall (λ v, v = None)).
    rewrite (Forall_iff (λ v, v = None) _ (λ v, ¬ is_Some v))
      by (intros v; apply eq_None_not_Some).
    rewrite <- (filter_length_zero is_Some). lia.
  - rewrite <- (dict_values_Forall (λ v, v ≠ None)).
    rewrite (Forall_iff (λ v, v ≠ None) _ is_Some)
      by (intros v; apply not_eq_None_Some).
    rewrite <- (filter_length_all is_Some). lia.
  - intros H0. unfold determine_parse_status. fold n.
    by rewrite bool_decide_eq_true_2.
  - exact Hpartial.
  - intros H7. rewrite Hpartial by lia. by rewrite H7.
  - intros H12. unfold determine_parse_status. fold n. rewrite Htot.
    rewrite bool_decide_eq_false_2 by lia.
    by rewrite bool_decide_eq_false_2 by lia.
Qed.

(** On a record with seven fields filled. *)
Lemma determine_parse_status_tristate_witness :
  dom seven_filled = list_to_set FIELD_KEYS
  ∧ filled_count seven_filled = 7
  ∧ determine_parse_status seven_filled
    = ("partial", Some "Only 7/12 fields parsed (5 missing)").
Proof.
  assert (Hdom : dom seven_filled = list_to_set FIELD_KEYS).
  { refine (bool_decide_unpack _ _). vm_compute. exact I. }
  split; [exact Hdom |]. split; [reflexivity |].
  destruct (determine_parse_status_tristate seven_filled Hdom)
    as (_ & _ & _ & _ & _ & H7 & _).
  apply H7. reflexivity.
Defined.

(** *** extract_announce_id *)

Lemma string_app_assoc (a b c : string) : (a +:+ b) +:+ c = a +:+ (b +:+ c).
Proof.
  induction a as [| x a IH]; [done |].
  change (String x ((a +:+ b) +:+ c) = String x (a +:+ (b +:+ c))).
  by rewrite IH.
Qed.

Lemma rstrip_slash_app_slash (s : string) :
  rstrip_slash (s +:+ "/") = rstrip_slash s.
Proof.
  induction s as [| c s IH]; [reflexivity |].
  simpl. by rewrite IH.
Qed.

Lemma rstrip_slash_no_slash (s : string) :
  no_slash s = true → rstrip_slash s = s.
Proof.
  induction s as [| c s IH]; [done |].
  simpl. intros [Hc Hs]%andb_true_iff. rewrite (IH Hs).
  destruct s; [| done].
  apply negb_true_iff in Hc. by rewrite Hc.
Qed.

Lemma rstrip_slash_suffix (x s : string) :
  s ≠ "" → no_slash s = true → rstrip_slash (x +:+ s) = x +:+ s.
Proof.
  intros Hne Hs. induction x as [| c x IH]; simpl.
  - by apply rstrip_slash_no_slash.
  - rewrite IH. destruct x; simpl; [| done]. by destruct s.
Qed.

Lemma split_slash_nonempty (s : string) : split_slash s ≠ [].
Proof.
  induction s as [| c s IH]; simpl; [done |].
  destruct (bool_decide _); [done |]. by destruct (split_slash s).
Qed.

Lemma split_slash_app (a b : string) :
  split_slash (a +:+ "/" +:+ b) = split_slash a ++ split_slash b.
Proof.
  induction a as [| c a IH]; [reflexivity |].
  simpl. rewrite IH.
  destruct (bool_decide (c = "/"%char)); [done |].
  pose proof (split_slash_nonempty a).
  by destruct (split_slash a).
Qed.

Lemma split_slash_no_slash (s : string) :
  no_slash s = true → split_slash s = [s].
Proof.
  induction s as [| c s IH]; [done |].
  simpl. intros [Hc Hs]%andb_true_iff. apply negb_true_iff in Hc.
  by rewrite Hc, (IH Hs).
Qed.

Lemma list_index_Some (x : string) (parts : list string) (idx : nat) :
  list_index x parts = Some idx
  ↔ ∃ before after, parts = before ++ x :: after
                    ∧ (x ∉ before) ∧ idx = length before.
Proof.
  revert idx. induction parts as [| p ps IH]; intros idx; simpl.
  - split; [done |]. intros (before & after & H & _). by destruct before.
  - case_bool_decide as Hp.
    + subst p. split.
      * intros [= <-]. exists [], ps. split; [done |]. split; [apply not_elem_of_nil | done].
      * intros (before & after & H & Hnin & ->).
        destruct before as [| b before]; [done |].
        injection H as <- _. exfalso. apply Hnin. by left.
    + split.
      * destruct (list_index x ps) as [i |] eqn:Hi; [| done].
        intros [= <-]. destruct (proj1 (IH i) eq_refl) as (before & after & -> & Hnin & ->).
        exists (p :: before), after. split; [done |].
        split; [| done]. apply not_elem_of_cons. split; [congruence | done].
      * intros (before & after & H & Hnin & ->).
        destruct before as [| b before]; [injection H as -> _; done |].
        injection H as -> ->. apply not_elem_of_cons in Hnin as [_ Hnin].
        rewrite (proj2 (IH (length before))); [done |]. eauto.
Qed.

Lemma list_index_None (x : string) (parts : list string) :
  list_index x parts = None ↔ x ∉ parts.
Proof.
  induction parts as [| p ps IH]; simpl.
  - split; [intros _; apply not_elem_of_nil | done].
  - rewrite not_elem_of_cons. case_bool_decide as Hp.
    + split; [done | intros [? _]; congruence].
    + destruct (list_index x ps); simpl.
      * split; [done |]. intros [_ H]. by apply IH in H.
      * split; [| done]. intros _. split; [congruence | by apply IH].
Qed.

(** extract_announce_id yields a value exactly when, once the trailing
    slashes are dropped, 'index' is a path segment and its first
    occurrence is followed by another segment; the value is that
    segment. *)
Lemma extract_announce_id_segments (url announce_id : string) :
  extract_announce_id url = Some announce_id
  ↔ ∃ before after,
      split_slash (rstrip_slash url) = before ++ "index" :: announce_id :: after
      ∧ "index" ∉ before.
Proof.
  unfold extract_announce_id. split.
  - destruct (list_index "index" _) as [idx |] eqn:Hidx; [| done].
    apply list_index_Some in Hidx as (before & after & Hparts & Hnin & ->).
    rewrite Hparts. rewrite lookup_app_r by lia.
    replace (length before + 1 - length before)%nat with 1%nat by lia.
    destruct after as [| a after]; [done |]. intros [= <-]. eauto.
  - intros (before & after & Hparts & Hnin).
    rewrite (proj2 (list_index_Some "index" _ (length before))).
    + rewrite Hparts, lookup_app_r by lia.
      by replace (length before + 1 - length before)%nat with 1%nat by lia.
    + eauto.
Qed.

Lemma extract_announce_id_app_slash (url : string) :
  extract_announce_id (url +:+ "/") = extract_announce_id url.
Proof. unfold extract_announce_id. by rewrite rstrip_slash_app_slash. Qed.

(** X1.  A trailing slash does not change the announce id read from a URL. *)
Theorem extract_announce_id_trailing_slash (url : string) :
  extract_announce_id (url +:+ "/") = extract_announce_id url.
Proof. apply extract_announce_id_app_slash. Qed.

(** X2.  For a URL of the portal's form, a prefix without an 'index' segment
    followed by /index/<id> with a non-empty id that has no slash, the
    announce id is <id>, also with a slash after it; with nothing after
    /index/ there is no announce id. *)
Theorem extract_announce_id_of_url (prefix announce_id : string) :
  "index" ∉ split_slash prefix →
  no_slash announce_id = true → announce_id ≠ "" →
  extract_announce_id (prefix +:+ "/index/" +:+ announce_id) = Some announce_id
  ∧ extract_announce_id (prefix +:+ "/index/" +:+ announce_id +:+ "/") = Some announce_id
  ∧ extract_announce_id (prefix +:+ "/index/") = None.
Proof.
  intros Hnin Hseg Hne.
  assert (Hid : extract_announce_id (prefix +:+ "/index/" +:+ announce_id)
                = Some announce_id).
  { apply extract_announce_id_segments. exists (split_slash prefix), [].
    split; [| done].
    rewrite <- (string_app_assoc prefix "/index/" announce_id).
    rewrite rstrip_slash_suffix by done.
    rewrite (string_app_assoc prefix "/index/" announce_id).
    change ("/index/" +:+ announce_id)
      with ("/" +:+ ("index" +:+ ("/" +:+ announce_id))).
    rewrite (split_slash_app prefix ("index" +:+ ("/" +:+ announce_id))).
    rewrite (split_slash_app "index" announce_id).
    by rewrite (split_slash_no_slash announce_id). }
  split; [exact Hid |]. split.
  - rewrite <- (string_app_assoc "/index/" announce_id "/").
    rewrite <- (string_app_assoc prefix ("/index/" +:+ announce_id) "/").
    by rewrite extract_announce_id_app_slash.
  - change "/index/" with ("/index" +:+ "/").
    rewrite <- (string_app_assoc prefix "/index" "/").
    rewrite extract_announce_id_app_slash.
    unfold extract_announce_id.
    change "/index" with ("/" +:+ "index").
    rewrite <- (string_app_assoc prefix "/" "index").
    rewrite rstrip_slash_suffix by done.
    rewrite (string_app_assoc prefix "/" "index").
    rewrite (split_slash_app prefix "index").
    change (split_slash "index") with ["index"].
    rewrite (proj2 (list_index_Some "index" _ (length (split_slash prefix))));
      [| by exists (split_slash prefix), []].
    apply lookup_ge_None_2. rewrite length_app. simpl. lia.
Qed.

(** The URL form of the portal. *)
Lemma extract_announce_id_of_url_witness :
  extract_announce_id "https://goszakup.gov.kz/ru/announce/index/16099116"
  = Some "16099116"
  ∧ extract_announce_id "https://goszakup.gov.kz/ru/announce/index/16099116/"
    = Some "16099116"
  ∧ extract_announce_id "https://goszakup.gov.kz/ru/announce/index/" = None.
Proof.
  apply (extract_announce_id_of_url "https://goszakup.gov.kz/ru/announce" "16099116").
  - vm_compute. intros H. repeat (apply elem_of_cons in H as [H | H]; [discriminate |]).
    by apply elem_of_nil in H.
  - reflexivity.
  - discriminate.
Defined.

(** *** parse_lot_table *)

Lemma parse_row_target (result : parsed_dict) (row : table_row) :
  parse_row result row
  = match row_target row with
    | Some (english_name, v) => <[english_name := v]> result
    | None => result
    end.
Proof.
  unfold parse_row, row_target.
  destruct row as [[| field_name ths] [| field_value tds]]; try done.
  by destruct (field_mapping_get field_name).
Qed.

(** After the row loop a field holds what the last row for it assigned,
    and what it held before when no row is for it. *)
Lemma parse_rows_last_wins (rows : list table_row) (result : parsed_dict)
    (key : string) :
  foldl parse_row result rows !! key
  = match last (assigned key rows) with
    | Some v => Some v
    | None => result !! key
    end.
Proof.
  induction rows as [| row rows IH] using rev_ind; [done |].
  rewrite foldl_app. simpl. rewrite parse_row_target.
  unfold assigned in *. rewrite omap_app. simpl.
  destruct (row_target row) as [[english_name v] |]; simpl.
  - case_bool_decide as Hk.
    + subst. rewrite last_snoc. by rewrite lookup_insert_eq.
    + rewrite app_nil_r. by rewrite lookup_insert_ne.
  - by rewrite app_nil_r.
Qed.

Lemma all_none_lookup (key : string) :
  key ∈ FIELD_KEYS → all_none !! key = Some None.
Proof.
  intros Hin. unfold all_none.
  apply elem_of_list_to_map_1.
  - refine (bool_decide_unpack _ _). vm_compute. exact I.
  - apply list_elem_of_fmap. by exists key.
Qed.

Lemma parse_lot_table_chosen
    (lxml_rows : string → outcome (list table_row * list table_row * list table_row))
    (html_content data_lot_id : string)
    (q : list table_row * list table_row * list table_row) :
  lxml_rows html_content = Ret q →
  parse_lot_table lxml_rows html_content data_lot_id
  = Ret (foldl parse_row all_none (chosen_rows q)).
Proof.
  intros Hq. unfold parse_lot_table. rewrite Hq.
  destruct q as [[rows1 rows2] rows3]. simpl.
  destruct rows1; [| done]. destruct rows2; [| done]. by destruct rows3.
Qed.

(** X3.  When lxml parses the fragment, every field of the record holds the
    value of the last row (of the first non-empty row query) whose header
    maps to the field, None when that cell is empty or no row is for the
    field: rows with an unmapped header, or without a th or a td, count
    for nothing. *)
Theorem parse_lot_table_fields
    (lxml_rows : string → outcome (list table_row * list table_row * list table_row))
    (html_content data_lot_id key : string)
    (q : list table_row * list table_row * list table_row) :
  lxml_rows html_content = Ret q →
  key ∈ FIELD_KEYS →
  ∃ parsed_data,
    parse_lot_table lxml_rows html_content data_lot_id = Ret parsed_data
    ∧ parsed_data !! key
      = Some (default None (last (assigned key (chosen_rows q)))).
Proof.
  intros Hq Hkey. eexists. split; [by apply parse_lot_table_chosen |].
  rewrite parse_rows_last_wins, all_none_lookup by done.
  by destruct (last _).
Qed.

(** Two rows for the lot number: the second wins; an empty status cell
    and a field without a row give None. *)
Lemma parse_lot_table_fields_witness :
  ∃ parsed_data,
    parse_lot_table lxml_rows_example "<table>" "84809767" = Ret parsed_data
    ∧ parsed_data !! "lot_number" = Some (Some "2")
    ∧ parsed_data !! "lot_status" = Some None
    ∧ parsed_data !! "quantity" = Some None.
Proof.
  assert (Hkeys : ∀ key, bool_decide (key ∈ FIELD_KEYS) = true → key ∈ FIELD_KEYS).
  { intros key. apply bool_decide_eq_true_1. }
  destruct (parse_lot_table_fields lxml_rows_example "<table>" "84809767"
              "lot_number" _ eq_refl (Hkeys "lot_number" eq_refl)) as (d & Hd & H1).
  destruct (parse_lot_table_fields lxml_rows_example "<table>" "84809767"
              "lot_status" _ eq_refl (Hkeys "lot_status" eq_refl)) as (d2 & Hd2 & H2).
  destruct (parse_lot_table_fields lxml_rows_example "<table>" "84809767"
              "quantity" _ eq_refl (Hkeys "quantity" eq_refl)) as (d3 & Hd3 & H3).
  rewrite Hd in Hd2, Hd3. injection Hd2 as <-. injection Hd3 as <-.
  exists d. split; [exact Hd |]. split; [exact H1 |]. split; [exact H2 | exact H3].
Defined.

(** X4.  parse_lot_table never raises and always yields a mapping over the
    twelve field keys.  When lxml raises, or none of the three row
    queries finds a row, every field is None and determine_parse_status
    classifies the record as 'failed'. *)
Theorem parse_lot_table_never_raises
    (lxml_rows : string → outcome (list table_row * list table_row * list table_row))
    (html_content data_lot_id : string) :
  ∃ parsed_data,
    parse_lot_table lxml_rows html_content data_lot_id = Ret parsed_data
    ∧ dom parsed_data = list_to_set FIELD_KEYS
    ∧ ((∃ e, lxml_rows html_content = Raise e)
       ∨ lxml_rows html_content = Ret ([], [], []) →
       parsed_data = all_none
       ∧ determine_parse_status parsed_data
         = ("failed", Some "No fields could be parsed")).
Proof.
  destruct (parse_lot_table_keys lxml_rows html_content data_lot_id)
    as (parsed_data & Hp & Hdom).
  exists parsed_data. split; [done |]. split; [done |].
  intros Hfail.
  assert (parsed_data = all_none) as ->; [| done].
  unfold parse_lot_table in Hp.
  destruct Hfail as [[e He] | He]; rewrite He in Hp; simpl in Hp; congruence.
Qed.

Lemma determine_parse_status_success (parsed_data : parsed_dict) :
  dom parsed_data = list_to_set FIELD_KEYS →
  determine_parse_status parsed_data = ("success", None)
  ↔ ∀ key, key ∈ FIELD_KEYS → ∃ v, parsed_data !! key = Some (Some v).
Proof.
  intros Hdom.
  pose proof (dict_values_length parsed_data Hdom) as Hlen.
  pose proof (length_filter is_Some (dict_values parsed_data)) as Hle.
  assert (Hall : filled_count parsed_data = 12
                 ↔ ∀ key v, parsed_data !! key = Some v → is_Some v).
  { rewrite <- (dict_values_Forall is_Some).
    rewrite <- (filter_length_all is_Some). unfold filled_count. lia. }
  assert (Hstatus : determine_parse_status parsed_data = ("success", None)
                    ↔ filled_count parsed_data = 12).
  { unfold determine_parse_status, filled_count.
    change (Z.of_nat (length FIELD_MAPPING)) with 12.
    repeat case_bool_decide; split; intros; try done; lia. }
  rewrite Hstatus, Hall. split.
  - intros H key Hkey.
    assert (Hin : key ∈ dom parsed_data) by (rewrite Hdom; by apply elem_of_list_to_set).
    apply elem_of_dom in Hin as [v Hv].
    destruct (H key v Hv) as [s ->]. eauto.
  - intros H key v Hv.
    assert (Hkey : key ∈ FIELD_KEYS).
    { apply (elem_of_list_to_set (C := gset string)). rewrite <- Hdom.
      apply elem_of_dom. eauto. }
    destruct (H key Hkey) as [s Hs]. rewrite Hs in Hv. injection Hv as <-. eauto.
Qed.

(** X5.  The record parsed from a fragment is classified 'success' exactly
    when each of the twelve field keys has a last row with a non-empty
    value. *)
Theorem parse_then_classify_success
    (lxml_rows : string → outcome (list table_row * list table_row * list table_row))
    (html_content data_lot_id : string)
    (q : list table_row * list table_row * list table_row) :
  lxml_rows html_content = Ret q →
  ∃ parsed_data,
    parse_lot_table lxml_rows html_content data_lot_id = Ret parsed_data
    ∧ (determine_parse_status parsed_data = ("success", None)
       ↔ ∀ key, key ∈ FIELD_KEYS →
           ∃ v, last (assigned key (chosen_rows q)) = Some (Some v)).
Proof.
  intros Hq.
  destruct (parse_lot_table_keys lxml_rows html_content data_lot_id)
    as (parsed_data & Hp & Hdom).
  exists parsed_data. split; [done |].
  rewrite (determine_parse_status_success _ Hdom).
  rewrite (parse_lot_table_chosen _ _ _ q Hq) in Hp. injection Hp as <-.
  split; intros H key Hkey; destruct (H key Hkey) as [v Hv]; exists v.
  - rewrite parse_rows_last_wins, all_none_lookup in Hv by done.
    destruct (last _) as [o |]; congruence.
  - rewrite parse_rows_last_wins, Hv. done.
Qed.

(** The fragment of the example lacks eleven fields: not a success. *)
Lemma parse_then_classify_success_witness :
  ∃ parsed_data,
    parse_lot_table lxml_rows_example "<table>" "84809767" = Ret parsed_data
    ∧ determine_parse_status parsed_data ≠ ("success", None).
Proof.
  destruct (parse_then_classify_success lxml_rows_example "<table>" "84809767"
              _ eq_refl) as (d & Hd & Hiff).
  exists d. split; [exact Hd |].
  intros Hs.
  destruct (proj1 Hiff Hs "quantity") as [v Hv].
  - apply (bool_decide_eq_true_1 ("quantity" ∈ FIELD_KEYS)). reflexivity.
  - discriminate.
Defined.

End ParsersFacts.

(** ** http_client.py *)

Module HttpClientFacts.
Import HttpClient HttpClientSpec.

Section Retry.

Context {N : net_env}.
Variable self : client.
Variables (url : string) (data : form).

Lemma posted_posts (st : net) : posts (posted url data st) = (posts st ++ [(url, data)]).
Proof. reflexivity. Qed.

(** One pass of the loop on a 429 response. *)
Lemma post_attempts_429 (attempt : Z) (rest : list Z) (st : net) (r : response) :
  transport (length (posts st)) url data = Responds r →
  status_code r = 429 →
  post_attempts self url data (attempt :: rest) st
  = post_attempts self url data rest
      (time_sleep (mul (rate_limit_delay self) attempt) (posted url data st)).
Proof.
  intros Ht Hs. simpl. rewrite Ht.
  by rewrite bool_decide_eq_true_2.
Qed.

(** One pass of the loop on a response outside 4xx and 5xx. *)
Lemma post_attempts_success (attempt : Z) (rest : list Z) (st : net) (r : response) :
  transport (length (posts st)) url data = Responds r →
  ¬ 400 ≤ status_code r < 600 →
  post_attempts self url data (attempt :: rest) st = (Ret (Some r), posted url data st).
Proof.
  intros Ht Hs. simpl. rewrite Ht.
  rewrite bool_decide_eq_false_2 by lia.
  rewrite bool_decide_eq_false_2 by lia.
  unfold raise_for_status. by rewrite bool_decide_eq_false_2 by lia.
Qed.

(** One pass of the loop on a 4xx response other than 429:
    raise_for_status raises HTTPError, a RequestException, and the last
    handler retries after the exponential backoff. *)
Lemma post_attempts_4xx (attempt : Z) (rest : list Z) (st : net) (r : response) :
  transport (length (posts st)) url data = Responds r →
  400 ≤ status_code r < 500 → status_code r ≠ 429 →
  post_attempts self url data (attempt :: rest) st
  = if bool_decide (attempt < max_retries self)
    then post_attempts self url data rest (time_sleep (backoff self attempt) (posted url data st))
    else (Ret None, posted url data st).
Proof.
  intros Ht Hs Hne. simpl. rewrite Ht.
  rewrite bool_decide_eq_false_2 by lia.
  rewrite bool_decide_eq_false_2 by lia.
  unfold raise_for_status. by rewrite bool_decide_eq_true_2 by lia.
Qed.

Lemma attempts_range_three :
  3 ≤ max_retries self →
  ∃ rest, attempts_range self = 1 :: 2 :: 3 :: rest.
Proof.
  intros H. unfold attempts_range.
  destruct (Z.to_nat (max_retries self)) as [| [| [| k]]] eqn:Hk; try lia.
  simpl. eauto.
Qed.

(** 429 on every attempt: every attempt is made, each followed by its
    sleep, and the code after the loop returns None. *)
Lemma post_attempts_all_429 (attempts : list Z) :
  ∀ st : net,
    (∀ k, ∃ r, transport k url data = Responds r ∧ status_code r = 429) →
    post_attempts self url data attempts st
    = (Ret None,
       {| posts := posts st ++ replicate (length attempts) (url, data);
          sleeps := sleeps st ++ (mul (rate_limit_delay self) <$> attempts) |}).
Proof.
  induction attempts as [| attempt rest IH]; intros st Hall.
  - simpl. rewrite !app_nil_r. by destruct st.
  - destruct (Hall (length (posts st))) as (r & Ht & Hs).
    rewrite (post_attempts_429 _ _ _ r Ht Hs).
    rewrite IH by done. simpl.
    by rewrite <- !app_assoc.
Qed.

(** Every pass of the loop issues one POST and then either leaves the
    function or sleeps and goes on with the attempts left. *)
Lemma post_attempts_pass (attempt : Z) (rest : list Z) (st : net) :
  (∃ res, post_attempts self url data (attempt :: rest) st = (res, posted url data st))
  ∨ (∃ d, post_attempts self url data (attempt :: rest) st
          = post_attempts self url data rest (time_sleep d (posted url data st))).
Proof.
  simpl. fold (posted url data st).
  destruct (transport (length (posts st)) url data) as [r | e].
  - destruct (bool_decide (status_code r = 429)); [right; eauto |].
    destruct (bool_decide (500 ≤ status_code r < 600)).
    { destruct (bool_decide (attempt < max_retries self)); [right | left]; eauto. }
    destruct (raise_for_status r) as [[] | e]; [left; eauto |].
    destruct e; destruct (bool_decide (attempt < max_retries self)); eauto.
  - destruct e; destruct (bool_decide (attempt < max_retries self)); eauto.
Qed.

(** The log of POSTs only grows. *)
Lemma post_attempts_posts (attempts : list Z) :
  ∀ st : net, posts st `prefix_of` posts (post_attempts self url data attempts st).2.
Proof.
  induction attempts as [| attempt rest IH]; intros st; [done |].
  destruct (post_attempts_pass attempt rest st) as [[res ->] | [d ->]].
  - simpl. by apply prefix_app_r.
  - etrans; [| apply IH]. simpl. by apply prefix_app_r.
Qed.

(** With at least one attempt to make, the first POST goes out. *)
Lemma post_with_retry_first_post (st : net) :
  0 < max_retries self →
  (posts st ++ [(url, data)]) `prefix_of` posts (post_with_retry self url data st).2.
Proof.
  intros Hmax. unfold post_with_retry, attempts_range.
  destruct (Z.to_nat (max_retries self)) as [| k] eqn:Hk; [lia |].
  simpl seq. rewrite fmap_cons.
  destruct (post_attempts_pass (Z.of_nat 1) (Z.of_nat <$> seq 2 k) st)
    as [[res ->] | [d ->]].
  - done.
  - etrans; [| apply post_attempts_posts]. done.
Qed.

(** A 4xx status other than 429 on every attempt, over the attempts
    a, a+1, ..., max_retries: each is made, each but the last is followed
    by its backoff sleep, and the last handler pass returns None. *)
Lemma post_attempts_all_4xx (n : nat) :
  ∀ (a : nat) (st : net),
    Z.of_nat (a + n) = max_retries self →
    (∀ k, ∃ r, transport k url data = Responds r
               ∧ 400 ≤ status_code r < 500 ∧ status_code r ≠ 429) →
    post_attempts self url data (Z.of_nat <$> seq a (S n)) st
    = (Ret None,
       {| posts := posts st ++ replicate (S n) (url, data);
          sleeps := sleeps st ++ (backoff self <$> (Z.of_nat <$> seq a n)) |}).
Proof.
  induction n as [| n IH]; intros a st Hlast Hall.
  - destruct (Hall (length (posts st))) as (r & Ht & Hr & Hne).
    simpl seq. rewrite fmap_cons, fmap_nil.
    rewrite (post_attempts_4xx _ _ _ r Ht Hr Hne).
    rewrite bool_decide_eq_false_2 by lia.
    simpl. by rewrite app_nil_r.
  - destruct (Hall (length (posts st))) as (r & Ht & Hr & Hne).
    change (seq a (S (S n))) with (a :: seq (S a) (S n)). rewrite fmap_cons.
    rewrite (post_attempts_4xx _ _ _ r Ht Hr Hne).
    rewrite bool_decide_eq_true_2 by lia.
    rewrite IH by (done || lia).
    simpl. by rewrite <- !app_assoc.
Qed.

End Retry.

(** C3, as amended.  A 4xx status other than 429 is not a failure on the
    first attempt: raise_for_status raises HTTPError, a RequestException,
    and the handler of RequestException retries it like the other request
    errors.  When every attempt yields such a status, post_with_retry
    makes max_retries attempts, sleeps base_delay * 2 ** (attempt - 1)
    after each attempt but the last, and returns None, the result of
    every exhausted retry; only with max_retries = 1 is there one attempt
    and no sleep. *)
Theorem post_with_retry_client_error_is_retried {N : net_env} (self : client)
    (url : string) (data : form) (st : net) :
  (∀ k, ∃ r, transport k url data = Responds r
             ∧ 400 ≤ status_code r < 500 ∧ status_code r ≠ 429) →
  post_with_retry self url data st
  = (Ret None,
     {| posts := posts st ++ replicate (Z.to_nat (max_retries self)) (url, data);
        sleeps := sleeps st
                  ++ (backoff self <$>
                        (Z.of_nat <$> seq 1 (Z.to_nat (max_retries self) - 1))) |}).
Proof.
  intros Hall. unfold post_with_retry, attempts_range.
  destruct (Z.to_nat (max_retries self)) as [| n] eqn:Hmax.
  - simpl. rewrite !app_nil_r. by destruct st.
  - rewrite (post_attempts_all_4xx self url data n 1 st) by (done || lia).
    by replace (S n - 1)%nat with n by lia.
Qed.

(** With the configured client and a transport that always answers 404. *)
Lemma post_with_retry_client_error_is_retried_witness :
  post_with_retry (default_client (N := always_404) 3 10) "u" None net0
  = (Ret None,
     @Build_net always_404 [("u", None); ("u", None); ("u", None)] [3; 6]).
Proof.
  apply (post_with_retry_client_error_is_retried
           (default_client (N := always_404) 3 10) "u" None net0).
  intros k. eexists. split; [reflexivity |]. simpl. lia.
Defined.

(** C6.  With max_retries at least 3 and a transport that answers 429 to
    the next two POSTs and 200 to the third, post_with_retry returns that
    third response after exactly three POSTs, having slept
    rate_limit_delay * 1 and then rate_limit_delay * 2.  With a transport
    that answers 429 to every POST, it makes max_retries attempts and
    returns None: a returned value, not a raised exception. *)
Theorem post_with_retry_rate_limit {N : net_env} (self : client)
    (url : string) (data : form) (st : net) :
  (∀ r1 r2 r3,
     3 ≤ max_retries self →
     transport (length (posts st)) url data = Responds r1 → status_code r1 = 429 →
     transport (length (posts st) + 1) url data = Responds r2 → status_code r2 = 429 →
     transport (length (posts st) + 2) url data = Responds r3 → status_code r3 = 200 →
     post_with_retry self url data st
     = (Ret (Some r3),
        {| posts := posts st ++ [(url, data); (url, data); (url, data)];
           sleeps := sleeps st ++ [mul (rate_limit_delay self) 1;
                                   mul (rate_limit_delay self) 2] |}))
  ∧ ((∀ k, ∃ r, transport k url data = Responds r ∧ status_code r = 429) →
     post_with_retry self url data st
     = (Ret None,
        {| posts := posts st ++ replicate (Z.to_nat (max_retries self)) (url, data);
           sleeps := sleeps st
                     ++ (mul (rate_limit_delay self) <$> attempts_range self) |})).
Proof.
  split.
  - intros r1 r2 r3 Hmax H1 S1 H2 S2 H3 S3.
    unfold post_with_retry.
    destruct (attempts_range_three self Hmax) as [rest ->].
    rewrite (post_attempts_429 self url data _ _ _ r1 H1 S1).
    rewrite (post_attempts_429 self url data _ _ _ r2).
    2: { simpl. rewrite length_app. simpl. exact H2. }
    2: exact S2.
    rewrite (post_attempts_success self url data _ _ _ r3).
    2: { simpl. rewrite !length_app. simpl.
         by replace (length (posts st) + 1 + 1)%nat with (length (posts st) + 2)%nat by lia. }
    2: lia.
    unfold posted, session_post, time_sleep. simpl. by rewrite <- !app_assoc.
  - intros Hall. unfold post_with_retry.
    rewrite post_attempts_all_429 by done.
    unfold attempts_range. by rewrite length_fmap, length_seq.
Qed.

(** With the configured client: 429, 429, 200, and 429 throughout. *)
Lemma post_with_retry_rate_limit_witness :
  post_with_retry (default_client (N := two_429_then_200) 3 10) "u" None net0
  = (Ret (Some {| status_code := 200; text := "<html>" |}),
     @Build_net two_429_then_200 [("u", None); ("u", None); ("u", None)] [10; 20])
  ∧ post_with_retry (default_client (N := always_429) 3 10) "u" None net0
    = (Ret None,
       @Build_net always_429 [("u", None); ("u", None); ("u", None)] [10; 20; 30]).
Proof.
  split.
  - apply (proj1 (post_with_retry_rate_limit
                    (default_client (N := two_429_then_200) 3 10) "u" None net0)
             {| status_code := 429; text := "<html>" |}
             {| status_code := 429; text := "<html>" |}
             {| status_code := 200; text := "<html>" |});
      solve [reflexivity | vm_compute; congruence].
  - apply (proj2 (post_with_retry_rate_limit
                    (default_client (N := always_429) 3 10) "u" None net0)).
    intros k. eexists. split; reflexivity.
Defined.

(** C3, the claim as stated fails.  With the configured MAX_RETRIES = 3
    and RETRY_BASE_DELAY = 3 seconds, a transport that answers 404 is asked
    three times, not once, with backoff sleeps of 3 and 6 seconds in
    between, before None is returned. *)
Lemma post_with_retry_404_is_retried :
  let res := post_with_retry (default_client (N := always_404) 3 10) "u" None net0 in
  res = (Ret None,
         @Build_net always_404 [("u", None); ("u", None); ("u", None)] [3; 6])
  ∧ length (posts res.2) ≠ 1%nat
  ∧ sleeps res.2 ≠ [].
Proof. split; [reflexivity |]. split; discriminate. Qed.

(** *** The retry policy in general *)

Section RetryPolicy.

Context {N : net_env}.
Variable self : client.
Variables (url : string) (data : form).

(** One pass of the loop on a retryable answer. *)
Lemma post_attempts_retryable (attempt : Z) (rest : list Z) (st : net) :
  retryable (transport (length (posts st)) url data) →
  post_attempts self url data (attempt :: rest) st
  = if bool_decide (attempt < max_retries self)
    then post_attempts self url data rest
           (time_sleep (backoff self attempt) (posted url data st))
    else (Ret None, posted url data st).
Proof.
  intros Hr. simpl. fold (posted url data st).
  destruct (transport (length (posts st)) url data) as [r | e]; simpl in Hr.
  - destruct Hr as [Hr Hne].
    rewrite (bool_decide_eq_false_2 (status_code r = 429)) by done.
    case_bool_decide as H5; [done |].
    unfold raise_for_status. by rewrite bool_decide_eq_true_2 by lia.
  - by destruct e.
Qed.

(** How one pass of the loop ends. *)
Lemma post_attempts_pass_result (attempt : Z) (rest : list Z) (st : net) :
  (∃ d, post_attempts self url data (attempt :: rest) st
        = post_attempts self url data rest (time_sleep d (posted url data st)))
  ∨ post_attempts self url data (attempt :: rest) st = (Ret None, posted url data st)
  ∨ (∃ r, post_attempts self url data (attempt :: rest) st
          = (Ret (Some r), posted url data st)
          ∧ transport (length (posts st)) url data = Responds r
          ∧ ¬ 400 ≤ status_code r < 600)
  ∨ (∃ e, post_attempts self url data (attempt :: rest) st
          = (Raise e, posted url data st)
          ∧ transport (length (posts st)) url data = Fails e
          ∧ is_RequestException e = false).
Proof.
  simpl. fold (posted url data st).
  destruct (transport (length (posts st)) url data) as [r | e].
  - case_bool_decide as H429; [left; eauto |].
    case_bool_decide as H5.
    { destruct (bool_decide (attempt < max_retries self)); [left | right; left]; eauto. }
    unfold raise_for_status. case_bool_decide as H4.
    + destruct (bool_decide (attempt < max_retries self)); [left | right; left]; eauto.
    + right; right; left. exists r. split; [done |]. split; [done | lia].
  - destruct e;
      try (destruct (bool_decide (attempt < max_retries self));
           [left | right; left]; by eauto);
      right; right; right; eauto.
Qed.

Lemma post_attempts_shape (attempts : list Z) :
  ∀ st : net,
    ∃ (k : nat) (waits : list delay),
      (k ≤ length attempts)%nat ∧ (length waits ≤ k)%nat
      ∧ (attempts ≠ [] → (1 ≤ k)%nat)
      ∧ (post_attempts self url data attempts st).2
        = {| posts := posts st ++ replicate k (url, data);
             sleeps := sleeps st ++ waits |}.
Proof.
  induction attempts as [| attempt rest IH]; intros st.
  - exists 0%nat, []. simpl. rewrite !app_nil_r.
    split; [done |]. split; [done |]. split; [done |]. by destruct st.
  - assert (Hstop : ∀ res, post_attempts self url data (attempt :: rest) st
                           = (res, posted url data st) →
              ∃ (k : nat) (waits : list delay),
                (k ≤ length (attempt :: rest))%nat ∧ (length waits ≤ k)%nat
                ∧ (attempt :: rest ≠ [] → (1 ≤ k)%nat)
                ∧ (post_attempts self url data (attempt :: rest) st).2
                  = {| posts := posts st ++ replicate k (url, data);
                       sleeps := sleeps st ++ waits |}).
    { intros res ->. exists 1%nat, []. simpl. rewrite app_nil_r.
      repeat split; lia. }
    destruct (post_attempts_pass_result attempt rest st)
      as [[d ->] | [H | [(r & H & _) | (e & H & _)]]]; eauto.
    destruct (IH (time_sleep d (posted url data st))) as (k & waits & Hk & Hw & _ & ->).
    exists (S k), (d :: waits). simpl.
    split; [lia |]. split; [lia |]. split; [lia |].
    by rewrite <- !app_assoc.
Qed.

Lemma post_attempts_result (attempts : list Z) :
  ∀ st : net,
    let res := post_attempts self url data attempts st in
    (∀ r, res.1 = Ret (Some r) →
       ¬ 400 ≤ status_code r < 600
       ∧ transport (length (posts res.2) - 1) url data = Responds r)
    ∧ (∀ e, res.1 = Raise e →
         is_RequestException e = false
         ∧ transport (length (posts res.2) - 1) url data = Fails e).
Proof.
  induction attempts as [| attempt rest IH]; intros st; [done |].
  assert (Hlast : (length (posts (posted url data st)) - 1)%nat = length (posts st)).
  { simpl. rewrite length_app. simpl. lia. }
  destruct (post_attempts_pass_result attempt rest st)
    as [[d ->] | [-> | [(r & -> & Ht & Hs) | (e & -> & Ht & He)]]].
  - apply IH.
  - done.
  - cbn [fst snd]. split; [| done]. intros ? [= <-]. by rewrite Hlast.
  - cbn [fst snd]. split; [done |]. intros ? [= <-]. by rewrite Hlast.
Qed.

(** After n retryable answers, an answer outside 4xx and 5xx to attempt
    n+1 ends the loop. *)
Lemma post_attempts_recovers (n : nat) :
  ∀ (a : nat) (rest : list Z) (st : net) (r : response),
    Z.of_nat (a + n) ≤ max_retries self →
    (∀ k, (k < n)%nat → retryable (transport (length (posts st) + k) url data)) →
    transport (length (posts st) + n) url data = Responds r →
    ¬ 400 ≤ status_code r < 600 →
    post_attempts self url data ((Z.of_nat <$> seq a (S n)) ++ rest) st
    = (Ret (Some r),
       {| posts := posts st ++ replicate (S n) (url, data);
          sleeps := sleeps st ++ (backoff self <$> (Z.of_nat <$> seq a n)) |}).
Proof.
  induction n as [| n IH]; intros a rest st r Hmax Hfail Hok Hstatus.
  - rewrite Nat.add_0_r in Hok. simpl seq. rewrite fmap_cons, fmap_nil. simpl app.
    rewrite (post_attempts_success self url data _ _ _ r Hok Hstatus).
    simpl. by rewrite app_nil_r.
  - change (seq a (S (S n))) with (a :: seq (S a) (S n)).
    rewrite fmap_cons. simpl app.
    rewrite post_attempts_retryable.
    2: { specialize (Hfail 0%nat). rewrite Nat.add_0_r in Hfail. apply Hfail. lia. }
    rewrite bool_decide_eq_true_2 by lia.
    rewrite (IH (S a) rest _ r).
    + simpl. by rewrite <- !app_assoc.
    + lia.
    + intros k Hk. simpl. rewrite length_app. simpl.
      replace (length (posts st) + 1 + k)%nat with (length (posts st) + S k)%nat by lia.
      apply Hfail. lia.
    + simpl. rewrite length_app. simpl.
      by replace (length (posts st) + 1 + n)%nat with (length (posts st) + S n)%nat by lia.
    + done.
Qed.

Lemma post_attempts_all_retryable (n : nat) :
  ∀ (a : nat) (st : net),
    Z.of_nat (a + n) = max_retries self →
    (∀ k, retryable (transport k url data)) →
    post_attempts self url data (Z.of_nat <$> seq a (S n)) st
    = (Ret None,
       {| posts := posts st ++ replicate (S n) (url, data);
          sleeps := sleeps st ++ (backoff self <$> (Z.of_nat <$> seq a n)) |}).
Proof.
  induction n as [| n IH]; intros a st Hlast Hall.
  - simpl seq. rewrite fmap_cons, fmap_nil.
    rewrite post_attempts_retryable by done.
    rewrite bool_decide_eq_false_2 by lia.
    simpl. by rewrite app_nil_r.
  - change (seq a (S (S n))) with (a :: seq (S a) (S n)). rewrite fmap_cons.
    rewrite post_attempts_retryable by done.
    rewrite bool_decide_eq_true_2 by lia.
    rewrite IH by (done || lia).
    simpl. by rewrite <- !app_assoc.
Qed.

End RetryPolicy.

(** X6.  post_with_retry issues between 0 and max_retries POSTs (at least one
    when max_retries is positive), all of them the same request, and
    sleeps at most once per POST. *)
Theorem post_with_retry_bounded {N : net_env} (self : client)
    (url : string) (data : form) (st : net) :
  ∃ (k : nat) (waits : list delay),
    (k ≤ Z.to_nat (max_retries self))%nat
    ∧ (length waits ≤ k)%nat
    ∧ (0 < max_retries self → (1 ≤ k)%nat)
    ∧ (post_with_retry self url data st).2
      = {| posts := posts st ++ replicate k (url, data);
           sleeps := sleeps st ++ waits |}.
Proof.
  unfold post_with_retry.
  destruct (post_attempts_shape self url data (attempts_range self) st)
    as (k & waits & Hk & Hw & Hone & Heq).
  exists k, waits. unfold attempts_range in Hk, Hone.
  rewrite length_fmap, length_seq in Hk.
  split; [done |]. split; [done |]. split; [| done].
  intros Hmax. apply Hone.
  destruct (Z.to_nat (max_retries self)) eqn:Hn; [lia | done].
Qed.

(** X7.  A response that post_with_retry returns is the answer to the last
    POST it issued and has a status outside 400..599; an exception that it
    raises was raised by the last POST and is not an exception of
    requests. *)
Theorem post_with_retry_result {N : net_env} (self : client)
    (url : string) (data : form) (st : net) :
  let res := post_with_retry self url data st in
  (∀ r, res.1 = Ret (Some r) →
     ¬ 400 ≤ status_code r < 600
     ∧ transport (length (posts res.2) - 1) url data = Responds r)
  ∧ (∀ e, res.1 = Raise e →
       is_RequestException e = false
       ∧ transport (length (posts res.2) - 1) url data = Fails e).
Proof. apply post_attempts_result. Qed.

(** X8.  Exponential backoff: when the next n POSTs get retryable answers
    (5xx, 4xx other than 429, timeouts, connection and other request
    errors, in any mix), n is below max_retries and the POST after them
    gets a response outside 4xx and 5xx, post_with_retry returns that
    response after n + 1 POSTs and the sleeps base_delay * 2 ** (k - 1)
    for k = 1..n. *)
Theorem post_with_retry_recovers {N : net_env} (self : client)
    (url : string) (data : form) (st : net) (n : nat) (r : response) :
  (n < Z.to_nat (max_retries self))%nat →
  (∀ k, (k < n)%nat → retryable (transport (length (posts st) + k) url data)) →
  transport (length (posts st) + n) url data = Responds r →
  ¬ 400 ≤ status_code r < 600 →
  post_with_retry self url data st
  = (Ret (Some r),
     {| posts := posts st ++ replicate (S n) (url, data);
        sleeps := sleeps st ++ (backoff self <$> (Z.of_nat <$> seq 1 n)) |}).
Proof.
  intros Hn Hfail Hok Hstatus. unfold post_with_retry, attempts_range.
  replace (Z.to_nat (max_retries self))
    with (S n + (Z.to_nat (max_retries self) - S n))%nat by lia.
  rewrite seq_app, fmap_app.
  apply post_attempts_recovers; try done. lia.
Qed.

(** A timeout, then a 503, then 200: two backoff sleeps of 3 and 6 seconds. *)
Lemma post_with_retry_recovers_witness :
  post_with_retry (default_client (N := flaky) 3 10) "u" None net0
  = (Ret (Some {| status_code := 200; text := "<html>" |}),
     @Build_net flaky [("u", None); ("u", None); ("u", None)] [3; 6]).
Proof.
  apply (post_with_retry_recovers (default_client (N := flaky) 3 10) "u" None net0 2
           {| status_code := 200; text := "<html>" |}).
  - vm_compute. lia.
  - intros [| [| k]] Hk; [reflexivity | simpl; lia | lia].
  - reflexivity.
  - simpl. lia.
Defined.

(** X9.  Exhaustion: when every POST gets a retryable answer, post_with_retry
    makes max_retries attempts, sleeps base_delay * 2 ** (k - 1) after
    attempt k for every k below max_retries, and returns None. *)
Theorem post_with_retry_exhausted {N : net_env} (self : client)
    (url : string) (data : form) (st : net) :
  (∀ k, retryable (transport k url data)) →
  post_with_retry self url data st
  = (Ret None,
     {| posts := posts st ++ replicate (Z.to_nat (max_retries self)) (url, data);
        sleeps := sleeps st
                  ++ (backoff self <$>
                        (Z.of_nat <$> seq 1 (Z.to_nat (max_retries self) - 1))) |}).
Proof.
  intros Hall. unfold post_with_retry, attempts_range.
  destruct (Z.to_nat (max_retries self)) as [| n] eqn:Hmax.
  - simpl. rewrite !app_nil_r. by destruct st.
  - rewrite (post_attempts_all_retryable self url data n 1 st) by (done || lia).
    by replace (S n - 1)%nat with n by lia.
Qed.

(** A host that cannot be reached: three attempts, sleeps of 3 and 6 seconds. *)
Lemma post_with_retry_exhausted_witness :
  post_with_retry (default_client (N := unreachable) 3 10) "u" None net0
  = (Ret None,
     @Build_net unreachable [("u", None); ("u", None); ("u", None)] [3; 6]).
Proof.
  apply (post_with_retry_exhausted (default_client (N := unreachable) 3 10)
           "u" None net0).
  intros k. reflexivity.
Defined.

(** X10.  get_lot_ids_page and get_lot_detail hand on a body only from a
    response with status 200, the answer to their last POST: any other
    returned response (a 204, a 3xx) gives None.  Their POSTs go to the
    announcement URL with ?tab=lots# and no form body, and to the
    ajax_load_lot URL of the announcement with the form id=<lot id>. *)
Theorem fetchers_need_status_200 {N : net_env} (self : client)
    (announce_url announce_id data_lot_id : string) (st : net) :
  let page := get_lot_ids_page self announce_url st in
  let detail := get_lot_detail self announce_id data_lot_id st in
  (∀ body, page.1 = Ret (Some body) →
     ∃ r, transport (length (posts page.2) - 1) (announce_url +:+ "?tab=lots#") None
          = Responds r
          ∧ status_code r = 200 ∧ text r = body)
  ∧ (∃ k, posts page.2
          = posts st ++ replicate k (announce_url +:+ "?tab=lots#", None))
  ∧ (∀ body, detail.1 = Ret (Some body) →
       ∃ r, transport (length (posts detail.2) - 1)
              (Config.AJAX_LOAD_LOT_URL announce_id) (Some [("id", data_lot_id)])
            = Responds r
            ∧ status_code r = 200 ∧ text r = body)
  ∧ (∃ k, posts detail.2
          = posts st ++ replicate k (Config.AJAX_LOAD_LOT_URL announce_id,
                                     Some [("id", data_lot_id)])).
Proof.
  assert (Hone : ∀ (url : string) (data : form),
    let res := post_with_retry self url data st in
    (∀ body, Py.bind res.1 (λ response, Ret (text_if_200 response)) = Ret (Some body) →
       ∃ r, transport (length (posts res.2) - 1) url data = Responds r
            ∧ status_code r = 200 ∧ text r = body)
    ∧ (∃ k, posts res.2 = posts st ++ replicate k (url, data))).
  { intros url data res. split.
    - intros body Hbody.
      pose proof (post_attempts_result self url data (attempts_range self) st)
        as [Hres _].
      fold (post_with_retry self url data st) in Hres. fold res in Hres.
      destruct res.1 as [[r |] | e]; simpl in Hbody; try done.
      destruct (Hres r eq_refl) as [_ Ht].
      case_bool_decide as H200; [| done].
      injection Hbody as <-. exists r. by split.
    - destruct (post_attempts_shape self url data (attempts_range self) st)
        as (k & waits & _ & _ & _ & Heq).
      exists k. subst res. unfold post_with_retry. by rewrite Heq. }
  intros page detail.
  destruct (Hone (announce_url +:+ "?tab=lots#") None) as [Hp1 Hp2].
  destruct (Hone (Config.AJAX_LOAD_LOT_URL announce_id) (Some [("id", data_lot_id)]))
    as [Hd1 Hd2].
  subst page detail. unfold get_lot_ids_page, get_lot_detail.
  destruct (post_with_retry self (announce_url +:+ "?tab=lots#") None st).
  destruct (post_with_retry self (Config.AJAX_LOAD_LOT_URL announce_id) _ st).
  by repeat split.
Qed.

End HttpClientFacts.

(** ** database.py *)

Module DatabaseFacts.
Import Parsers Database ParsersSpec DatabaseSpec.

Lemma filter_key_absent (key : string * string) (rows : list lot_detail) :
  key ∉ lot_key <$> rows → filter (λ r, lot_key r = key) rows = [].
Proof.
  induction rows as [| r rows IH]; [done |].
  rewrite fmap_cons, not_elem_of_cons. intros [Hne Hnin].
  rewrite filter_cons_False by done. by apply IH.
Qed.

Lemma lot_row_key (url lid aid : string) (pd : parsed_dict) (ps : string)
    (em : option string) (now : timestamp) :
  lot_key (lot_row url lid aid pd ps em now) = (url, lid).
Proof. reflexivity. Qed.

(** A fresh pair is inserted at the end of the table. *)
Lemma insert_lot_detail_fresh (db : database) (url lid aid : string)
    (pd : parsed_dict) (ps : string) (em : option string) (now : timestamp) :
  (url, lid) ∉ lot_key <$> lot_details db →
  insert_lot_detail url lid aid pd ps em now db
  = (Ret true,
     {| lot_details := lot_details db ++ [lot_row url lid aid pd ps em now];
        scraping_progress := scraping_progress db |}).
Proof.
  intros H. unfold insert_lot_detail, sql_insert_lot.
  rewrite lot_row_key. by rewrite bool_decide_eq_false_2.
Qed.

(** A stored pair is rejected and the database left as it is. *)
Lemma insert_lot_detail_duplicate (db : database) (url lid aid : string)
    (pd : parsed_dict) (ps : string) (em : option string) (now : timestamp) :
  (url, lid) ∈ lot_key <$> lot_details db →
  insert_lot_detail url lid aid pd ps em now db = (Ret false, db).
Proof.
  intros H. unfold insert_lot_detail, sql_insert_lot.
  rewrite lot_row_key. by rewrite bool_decide_eq_true_2.
Qed.

(** insert_lot_detail never raises, keeps the UNIQUE constraint and does
    not touch scraping_progress. *)
Lemma insert_lot_detail_inv (db : database) (url lid aid : string)
    (pd : parsed_dict) (ps : string) (em : option string) (now : timestamp) :
  let res := insert_lot_detail url lid aid pd ps em now db in
  returns res.1
  ∧ (unique_lots db → unique_lots res.2)
  ∧ scraping_progress res.2 = scraping_progress db.
Proof.
  destruct (decide ((url, lid) ∈ lot_key <$> lot_details db)) as [Hin | Hnin].
  - rewrite insert_lot_detail_duplicate by done. simpl.
    split; [by eexists |]. done.
  - rewrite insert_lot_detail_fresh by done. simpl.
    split; [by eexists |]. split; [| done].
    unfold unique_lots. simpl. intros Hu.
    rewrite fmap_app. apply NoDup_app. split; [done |].
    split; [| apply NoDup_singleton].
    intros key Hk. simpl. rewrite list_elem_of_singleton. by intros ->.
Qed.

(** C1.  When the pair (lot_url, data_lot_id) is not stored yet, the first
    insert_lot_detail returns True and the second, with the same pair and
    any other arguments, returns False without raising and without
    changing the database: the table then holds exactly one row for the
    pair, with the column values of the first call. *)
Theorem insert_lot_detail_twice (db : database) (lot_url data_lot_id : string)
    (announce_id1 announce_id2 : string) (parsed_data1 parsed_data2 : parsed_dict)
    (parse_status1 parse_status2 : string)
    (error_message1 error_message2 : option string) (now1 now2 : timestamp) :
  (lot_url, data_lot_id) ∉ lot_key <$> lot_details db →
  let first :=
    insert_lot_detail lot_url data_lot_id announce_id1 parsed_data1
                      parse_status1 error_message1 now1 db in
  let second :=
    insert_lot_detail lot_url data_lot_id announce_id2 parsed_data2
                      parse_status2 error_message2 now2 first.2 in
  first.1 = Ret true
  ∧ second.1 = Ret false
  ∧ second.2 = first.2
  ∧ select_lots (lot_url, data_lot_id) second.2
    = [lot_row lot_url data_lot_id announce_id1 parsed_data1
               parse_status1 error_message1 now1].
Proof.
  intros Hfresh first second. subst first second.
  rewrite (insert_lot_detail_fresh db) by done. simpl.
  rewrite insert_lot_detail_duplicate.
  2: { simpl. rewrite fmap_app. apply elem_of_app. right.
       simpl. apply list_elem_of_singleton. reflexivity. }
  simpl. repeat split.
  unfold select_lots. simpl.
  rewrite filter_app, filter_key_absent by done.
  by rewrite filter_cons_True.
Qed.

(** Two inserts of the same pair into the empty database. *)
Lemma insert_lot_detail_twice_witness :
  let first :=
    insert_lot_detail "u" "84809767" "16099116" seven_filled
                      "partial" (Some "m") 10 empty_db in
  let second :=
    insert_lot_detail "u" "84809767" "16099116" all_none "failed" None 20 first.2 in
  first.1 = Ret true
  ∧ second.1 = Ret false
  ∧ second.2 = first.2
  ∧ select_lots ("u", "84809767") second.2
    = [lot_row "u" "84809767" "16099116" seven_filled
               "partial" (Some "m") 10].
Proof.
  apply (insert_lot_detail_twice empty_db "u" "84809767").
  simpl. apply not_elem_of_nil.
Defined.

(** *** scraping_progress *)

Lemma head_filter_fmap (url : string) (f : progress → progress)
    (rows : list progress) :
  (∀ p, p_lot_url (f p) = p_lot_url p) →
  head (filter (λ p, p_lot_url p = url) (f <$> rows))
  = f <$> head (filter (λ p, p_lot_url p = url) rows).
Proof.
  intros Hf. induction rows as [| p rows IH]; [done |].
  rewrite fmap_cons, !filter_cons, Hf.
  destruct (decide (p_lot_url p = url)); [done | apply IH].
Qed.

Lemma assign_url (p : progress) (a : assignment) :
  p_lot_url (assign p a) = p_lot_url p.
Proof. by destruct a. Qed.

Lemma foldl_assign_url (updates : list assignment) (p : progress) :
  p_lot_url (foldl assign p updates) = p_lot_url p.
Proof.
  revert p. induction updates as [| a l IH]; intros p; simpl; [done |].
  by rewrite IH, assign_url.
Qed.

(** update_progress as one map over the table, also when nothing is passed. *)
Lemma update_progress_rows (url : string) (a : progress_fields)
    (now : timestamp) (db : database) :
  lot_details (update_progress url a now db) = lot_details db
  ∧ scraping_progress (update_progress url a now db)
    = (λ p, if bool_decide (p_lot_url p = url)
            then foldl assign p (build_updates a now) else p)
        <$> scraping_progress db.
Proof.
  unfold update_progress.
  destruct (build_updates a now) as [| u us] eqn:Hb; [| done].
  split; [done |]. simpl.
  induction (scraping_progress db) as [| p rows IH]; [done |].
  rewrite fmap_cons, <- IH. by destruct (bool_decide _).
Qed.

Lemma update_progress_urls (url : string) (a : progress_fields)
    (now : timestamp) (db : database) :
  p_lot_url <$> scraping_progress (update_progress url a now db)
  = p_lot_url <$> scraping_progress db.
Proof.
  rewrite (proj2 (update_progress_rows url a now db)).
  rewrite <- list_fmap_compose. apply list_fmap_ext.
  intros i p _. simpl. destruct (bool_decide _); [apply foldl_assign_url | done].
Qed.

Lemma update_progress_select (url : string) (a : progress_fields)
    (now : timestamp) (db : database) :
  select_progress url (update_progress url a now db)
  = (λ p, foldl assign p (build_updates a now)) <$> select_progress url db.
Proof.
  unfold select_progress.
  rewrite (proj2 (update_progress_rows url a now db)).
  rewrite head_filter_fmap.
  2: { intros p. destruct (bool_decide _); [apply foldl_assign_url | done]. }
  destruct (head _) as [p |] eqn:Hh; [| done]. simpl. f_equal.
  apply head_Some_elem_of, list_elem_of_filter in Hh as [Hu _].
  by rewrite bool_decide_eq_true_2.
Qed.

Lemma build_updates_row (a : progress_fields) (now : timestamp) (p : progress) :
  foldl assign p (build_updates a now) = updated_row a now p.
Proof.
  destruct p as [u i s f pr sa ca ec le].
  destruct a as [[st |] [fo |] [po |] [eo |] [lo |]];
    unfold build_updates, updated_row, passed_status; simpl;
    try destruct (truthy_str st) eqn:Ht; simpl;
    repeat case_bool_decide; simpl; try reflexivity;
    try (exfalso; subst; intuition congruence).
Qed.

Lemma select_progress_other (url url' : string) (a : progress_fields)
    (now : timestamp) (db : database) :
  url' ≠ url →
  select_progress url' (update_progress url a now db) = select_progress url' db.
Proof.
  intros Hne. unfold select_progress.
  rewrite (proj2 (update_progress_rows url a now db)).
  rewrite head_filter_fmap.
  2: { intros p. destruct (bool_decide _); [apply foldl_assign_url | done]. }
  destruct (head _) as [p |] eqn:Hh; [| done]. simpl. f_equal.
  apply head_Some_elem_of, list_elem_of_filter in Hh as [Hu _].
  rewrite bool_decide_eq_false_2; [done | congruence].
Qed.

(** C8, as amended.  update_progress changes only the progress row of the
    given lot_url, and there only what the call passes: a non-empty status
    sets status; status 'processing' passed without lot_ids_found stamps
    started_at with the current time, on every such call; status
    'completed' stamps completed_at; lot_ids_found, lot_ids_processed,
    error_count and last_error are set exactly when passed, whether or not
    status is; every other column, every other row and the lot table keep
    their values. *)
Theorem update_progress_sparse (lot_url : string) (a : progress_fields)
    (now : timestamp) (db : database) (p : progress) :
  select_progress lot_url db = Some p →
  ∃ p',
    select_progress lot_url (update_progress lot_url a now db) = Some p'
    ∧ p' = updated_row a now p
    ∧ (∀ s, f_status a = Some s → s ≠ "" → status p' = s)
    ∧ (f_status a = None → status p' = status p)
    ∧ (f_status a = Some "processing" → f_lot_ids_found a = None →
         started_at p' = Some now)
    ∧ (f_status a ≠ Some "processing" ∨ f_lot_ids_found a ≠ None →
         started_at p' = started_at p)
    ∧ (f_status a = Some "completed" → completed_at p' = Some now)
    ∧ (f_status a ≠ Some "completed" → completed_at p' = completed_at p)
    ∧ lot_ids_found p' = default (lot_ids_found p) (f_lot_ids_found a)
    ∧ lot_ids_processed p' = default (lot_ids_processed p) (f_lot_ids_processed a)
    ∧ error_count p' = default (error_count p) (f_error_count a)
    ∧ last_error p' = from_option Some (last_error p) (f_last_error a)
    ∧ p_lot_url p' = p_lot_url p ∧ p_announce_id p' = p_announce_id p
    ∧ lot_details (update_progress lot_url a now db) = lot_details db
    ∧ (∀ url', url' ≠ lot_url →
         select_progress url' (update_progress lot_url a now db)
         = select_progress url' db).
Proof.
  intros Hsel. exists (updated_row a now p).
  split. { by rewrite update_progress_select, Hsel; simpl; rewrite build_updates_row. }
  split; [done |].
  assert (Hps : ∀ s, f_status a = Some s → s ≠ "" → passed_status a = Some s).
  { intros s Hs Hne. unfold passed_status, truthy_str. rewrite Hs.
    by rewrite bool_decide_eq_true_2. }
  assert (Hpn : ∀ s, passed_status a = Some s → f_status a = Some s).
  { intros s. unfold passed_status. destruct (f_status a) as [s' |]; [| done].
    by destruct (truthy_str s'). }
  split. { intros s Hs Hne. simpl. by rewrite (Hps s). }
  split. { intros Hs. simpl. unfold passed_status. by rewrite Hs. }
  split. { intros Hs Hf. simpl. rewrite bool_decide_eq_true_2; [done |].
           split; [by apply Hps | done]. }
  split. { intros Hor. simpl. rewrite bool_decide_eq_false_2; [done |].
           intros [H1 H2]. apply Hpn in H1. tauto. }
  split. { intros Hs. simpl. rewrite bool_decide_eq_true_2; [done |]. by apply Hps. }
  split. { intros Hs. simpl. rewrite bool_decide_eq_false_2; [done |].
           intros H1. by apply Hpn in H1. }
  split; [done |]. split; [done |]. split; [done |].
  split. { simpl. by destruct (f_last_error a). }
  split; [done |]. split; [done |].
  split. { apply update_progress_rows. }
  intros url' Hne. by apply select_progress_other.
Qed.

(** Setting 'processing' at time 100 on a URL created at time 50. *)
Lemma update_progress_sparse_witness :
  ∃ p',
    select_progress "u" (update_progress "u" only_processing 100 one_pending) = Some p'
    ∧ status p' = "processing" ∧ started_at p' = Some 100
    ∧ completed_at p' = None ∧ lot_ids_found p' = 0.
Proof.
  destruct (update_progress_sparse "u" only_processing 100 one_pending
              (new_progress "u" "1" 50) eq_refl)
    as (p' & Hsel & _ & Hst & _ & Hsa & _ & _ & Hca & Hf & _).
  exists p'. split; [exact Hsel |].
  split; [by apply Hst |]. split; [by apply Hsa |].
  split; [by rewrite Hca |]. by rewrite Hf.
Defined.

(** C8, the claim as stated fails: setting status 'processing' a second
    time (a retry, at time 200) does not leave the started_at stamped by
    the first (at time 100); it is stamped again. *)
Lemma update_progress_retry_restamps :
  let db1 := update_progress "u" only_processing 100 one_pending in
  let db2 := update_progress "u" only_processing 200 db1 in
  started_at <$> select_progress "u" db1 = Some (Some 100)
  ∧ started_at <$> select_progress "u" db2 = Some (Some 200)
  ∧ started_at <$> select_progress "u" db2 ≠ started_at <$> select_progress "u" db1.
Proof. split; [reflexivity |]. split; [reflexivity |]. discriminate. Qed.

(** *** The progress table *)

Lemma select_progress_None (url : string) (db : database) :
  select_progress url db = None ↔ url ∉ p_lot_url <$> scraping_progress db.
Proof.
  unfold select_progress. rewrite head_None.
  induction (scraping_progress db) as [| p rows IH]; simpl.
  - split; [intros _; apply not_elem_of_nil | done].
  - rewrite filter_cons, not_elem_of_cons.
    destruct (decide (p_lot_url p = url)) as [Hp | Hp].
    + split; [done | intros [? _]; congruence].
    + rewrite IH. split; [by split; [congruence |] | tauto].
Qed.

Lemma select_progress_app (url : string) (rows : list progress) (p : progress)
    (lots : list lot_detail) :
  select_progress url {| lot_details := lots; scraping_progress := rows ++ [p] |}
  = match select_progress url {| lot_details := lots; scraping_progress := rows |} with
    | Some q => Some q
    | None => if bool_decide (p_lot_url p = url) then Some p else None
    end.
Proof.
  unfold select_progress. simpl. rewrite filter_app.
  destruct (filter _ rows) as [| q qs]; simpl; [| done].
  rewrite filter_cons. case_bool_decide; by destruct (decide _).
Qed.

(** X11.  get_or_create_progress is idempotent: a second call for the same
    URL, with any announce id and at any time, returns the row of the
    first and leaves the database as the first left it.  The first call
    returns the stored row unchanged when there is one, and otherwise
    appends a 'pending' row; in both cases the row can be selected
    afterwards, and the rows of other URLs and the lot table are as
    before. *)
Theorem get_or_create_progress_idempotent (db : database)
    (lot_url announce_id1 announce_id2 : string) (now1 now2 : timestamp) :
  let first := get_or_create_progress lot_url announce_id1 now1 db in
  let second := get_or_create_progress lot_url announce_id2 now2 first.2 in
  second = first
  ∧ select_progress lot_url first.2 = Some first.1
  ∧ lot_details first.2 = lot_details db
  ∧ (∀ url', url' ≠ lot_url →
       select_progress url' first.2 = select_progress url' db)
  ∧ (select_progress lot_url db = None →
       first.1 = new_progress lot_url announce_id1 now1
       ∧ scraping_progress first.2 = scraping_progress db ++ [first.1])
  ∧ (∀ p, select_progress lot_url db = Some p → first = (p, db)).
Proof.
  unfold get_or_create_progress.
  destruct (select_progress lot_url db) as [p |] eqn:Hsel; simpl.
  - rewrite Hsel. repeat split; try done. by intros ? [= <-].
  - destruct db as [lots rows]. simpl in *.
    assert (Hnew : select_progress lot_url
                     {| lot_details := lots;
                        scraping_progress :=
                          rows ++ [new_progress lot_url announce_id1 now1] |}
                   = Some (new_progress lot_url announce_id1 now1)).
    { rewrite select_progress_app, Hsel. simpl. by rewrite bool_decide_eq_true_2. }
    rewrite Hnew. repeat split; try done.
    intros url' Hne. rewrite select_progress_app.
    destruct (select_progress url' _); [done |]. simpl.
    by rewrite bool_decide_eq_false_2.
Qed.

Lemma increment_processed_urls (url : string) (db : database) :
  p_lot_url <$> scraping_progress (increment_processed url db)
  = p_lot_url <$> scraping_progress db.
Proof.
  unfold increment_processed. simpl. rewrite <- list_fmap_compose.
  apply list_fmap_ext. intros i p _. simpl. by destruct (bool_decide _).
Qed.

(** X12.  Every operation of Database keeps the UNIQUE constraint on the
    lot_url column of scraping_progress. *)
Theorem unique_progress_kept (db : database) (lot_url data_lot_id announce_id : string)
    (a : progress_fields) (parsed_data : parsed_dict) (parse_status : string)
    (error_message : option string) (now : timestamp) :
  unique_progress db →
  unique_progress (get_or_create_progress lot_url announce_id now db).2
  ∧ unique_progress (update_progress lot_url a now db)
  ∧ unique_progress (increment_processed lot_url db)
  ∧ unique_progress
      (insert_lot_detail lot_url data_lot_id announce_id parsed_data
                         parse_status error_message now db).2.
Proof.
  intros Hu. unfold unique_progress in *. split; [| split; [| split]].
  - unfold get_or_create_progress.
    destruct (select_progress lot_url db) eqn:Hsel; simpl; [done |].
    rewrite fmap_app. apply NoDup_app. split; [done |].
    split; [| apply NoDup_singleton].
    intros u Hin. simpl. rewrite list_elem_of_singleton. intros ->.
    by apply select_progress_None in Hsel.
  - by rewrite update_progress_urls.
  - by rewrite increment_processed_urls.
  - by rewrite (proj2 (proj2 (insert_lot_detail_inv db lot_url data_lot_id
                                 announce_id parsed_data parse_status
                                 error_message now))).
Qed.

(** On the database with three URLs. *)
Lemma unique_progress_kept_witness :
  unique_progress three_urls
  ∧ unique_progress (get_or_create_progress "d" "4" 20 three_urls).2
  ∧ unique_progress (get_or_create_progress "a" "1" 20 three_urls).2.
Proof.
  assert (Hu : unique_progress three_urls).
  { refine (bool_decide_unpack _ _). vm_compute. exact I. }
  split; [exact Hu |]. split.
  - apply (unique_progress_kept three_urls "d" "" "4" no_fields all_none "" None 20 Hu).
  - apply (unique_progress_kept three_urls "a" "" "1" no_fields all_none "" None 20 Hu).
Defined.

(** X13.  No operation of Database changes or removes a stored lot row: the lot
    table after the operation starts with the lot table before it. *)
Theorem lot_rows_immutable (db : database) (lot_url data_lot_id announce_id : string)
    (a : progress_fields) (parsed_data : parsed_dict) (parse_status : string)
    (error_message : option string) (now : timestamp) :
  lot_details db `prefix_of`
    lot_details (insert_lot_detail lot_url data_lot_id announce_id parsed_data
                                   parse_status error_message now db).2
  ∧ lot_details (get_or_create_progress lot_url announce_id now db).2 = lot_details db
  ∧ lot_details (update_progress lot_url a now db) = lot_details db
  ∧ lot_details (increment_processed lot_url db) = lot_details db
  ∧ (∀ key, key ≠ (lot_url, data_lot_id) →
       select_lots key
         (insert_lot_detail lot_url data_lot_id announce_id parsed_data
                            parse_status error_message now db).2
       = select_lots key db).
Proof.
  split; [| split; [| split; [| split]]].
  - destruct (decide ((lot_url, data_lot_id) ∈ lot_key <$> lot_details db)).
    + by rewrite insert_lot_detail_duplicate.
    + rewrite insert_lot_detail_fresh by done. simpl. by apply prefix_app_r.
  - unfold get_or_create_progress. by destruct (select_progress lot_url db).
  - apply update_progress_rows.
  - done.
  - intros key Hne.
    destruct (decide ((lot_url, data_lot_id) ∈ lot_key <$> lot_details db)).
    + by rewrite insert_lot_detail_duplicate.
    + rewrite insert_lot_detail_fresh by done. unfold select_lots. simpl.
      rewrite filter_app, filter_cons_False, filter_nil, app_nil_r; [done |].
      rewrite lot_row_key. congruence.
Qed.

Lemma increment_processed_other (url url' : string) (db : database) :
  url' ≠ url →
  select_progress url' (increment_processed url db) = select_progress url' db.
Proof.
  intros Hne. unfold select_progress, increment_processed. simpl.
  rewrite head_filter_fmap by (intros p; by destruct (bool_decide _)).
  destruct (head _) as [p |] eqn:Hh; [| done]. simpl. f_equal.
  apply head_Some_elem_of, list_elem_of_filter in Hh as [Hu _].
  rewrite bool_decide_eq_false_2; [done | congruence].
Qed.

(** X14.  increment_processed adds one to lot_ids_processed in the row of the
    URL and changes nothing else; for a URL without a row it changes
    nothing at all. *)
Theorem increment_processed_row (lot_url : string) (db : database) :
  (∀ p, select_progress lot_url db = Some p →
     select_progress lot_url (increment_processed lot_url db)
     = Some (assign p (SetLotIdsProcessed (lot_ids_processed p + 1))))
  ∧ (select_progress lot_url db = None → increment_processed lot_url db = db)
  ∧ (∀ url', url' ≠ lot_url →
       select_progress url' (increment_processed lot_url db)
       = select_progress url' db)
  ∧ lot_details (increment_processed lot_url db) = lot_details db.
Proof.
  assert (Hurl : ∀ p, p_lot_url (if bool_decide (p_lot_url p = lot_url)
                                 then assign p (SetLotIdsProcessed (lot_ids_processed p + 1))
                                 else p) = p_lot_url p).
  { intros p. by destruct (bool_decide _). }
  split; [| split; [| split]].
  - intros p Hsel. unfold select_progress, increment_processed in *. simpl.
    rewrite head_filter_fmap, Hsel by done. simpl. f_equal.
    apply head_Some_elem_of, list_elem_of_filter in Hsel as [Hu _].
    by rewrite bool_decide_eq_true_2.
  - intros Hsel. apply select_progress_None in Hsel.
    destruct db as [lots rows]. unfold increment_processed. simpl in *. f_equal.
    induction rows as [| p rows IH]; [done |].
    rewrite fmap_cons in Hsel. apply not_elem_of_cons in Hsel as [Hp Hrest].
    rewrite fmap_cons, IH by done.
    by rewrite bool_decide_eq_false_2 by congruence.
  - intros url' Hne. unfold select_progress, increment_processed. simpl.
    rewrite head_filter_fmap by done.
    destruct (head _) as [p |] eqn:Hh; [| done]. simpl. f_equal.
    apply head_Some_elem_of, list_elem_of_filter in Hh as [Hu _].
    rewrite bool_decide_eq_false_2; [done | congruence].
  - done.
Qed.

(** *** get_pending_urls *)

Lemma get_pending_urls_elem (url : string) (db : database) :
  url ∈ get_pending_urls db
  ↔ ∃ p, p ∈ scraping_progress db ∧ p_lot_url p = url
         ∧ (status p = "pending" ∨ status p = "failed").
Proof.
  unfold get_pending_urls. rewrite list_elem_of_fmap. split.
  - intros (p & -> & Hin). apply list_elem_of_filter in Hin as [Hs Hin]. eauto.
  - intros (p & Hin & <- & Hs). exists p. split; [done |].
    by apply list_elem_of_filter.
Qed.

(** X15.  get_pending_urls lists the URLs whose row is 'pending' or 'failed',
    in the order of the table.  A URL that has just got its row is the
    last of them; a URL set 'completed' or 'processing' is not among
    them, one set 'failed' is (when it has a row); setting the status of
    one URL leaves the others among them or not as they were. *)
Theorem get_pending_urls_tracks_status (db : database)
    (lot_url announce_id s : string) (now : timestamp) :
  get_pending_urls db `sublist_of` (p_lot_url <$> scraping_progress db)
  ∧ (select_progress lot_url db = None →
       get_pending_urls (get_or_create_progress lot_url announce_id now db).2
       = get_pending_urls db ++ [lot_url])
  ∧ (s ≠ "" →
       (lot_url ∈ get_pending_urls (update_progress lot_url (only_status s) now db)
        ↔ lot_url ∈ p_lot_url <$> scraping_progress db
          ∧ (s = "pending" ∨ s = "failed"))
       ∧ ∀ url', url' ≠ lot_url →
           url' ∈ get_pending_urls (update_progress lot_url (only_status s) now db)
           ↔ url' ∈ get_pending_urls db).
Proof.
  split; [| split].
  - unfold get_pending_urls. apply fmap_sublist, sublist_filter.
  - intros Hsel. unfold get_or_create_progress. rewrite Hsel. simpl.
    unfold get_pending_urls. simpl.
    rewrite filter_app, fmap_app. f_equal.
  - intros Hs.
    assert (Hpassed : passed_status (only_status s) = Some s).
    { unfold passed_status, truthy_str. simpl. by rewrite bool_decide_eq_true_2. }
    assert (Hrows : ∀ q, q ∈ scraping_progress (update_progress lot_url (only_status s) now db)
              ↔ ∃ p, p ∈ scraping_progress db
                     ∧ q = if bool_decide (p_lot_url p = lot_url)
                           then updated_row (only_status s) now p else p).
    { intros q. rewrite (proj2 (update_progress_rows _ _ _ _)), list_elem_of_fmap.
      split; intros (p & H1 & H2); exists p.
      - by rewrite <- build_updates_row.
      - by rewrite build_updates_row. }
    split.
    + rewrite get_pending_urls_elem, list_elem_of_fmap. split.
      * intros (q & Hq & Hu & Hst). apply Hrows in Hq as (p & Hp & ->).
        case_bool_decide as Hpu.
        -- simpl in Hst. rewrite Hpassed in Hst. simpl in Hst. split; [eauto | done].
        -- done.
      * intros [(p & Hp & Hin) Hst].
        exists (updated_row (only_status s) now p). split; [| split].
        -- apply Hrows. exists p. split; [done |]. by rewrite bool_decide_eq_true_2.
        -- done.
        -- simpl. by rewrite Hpassed.
    + intros url' Hne. rewrite !get_pending_urls_elem. split.
      * intros (q & Hq & Hu & Hst). apply Hrows in Hq as (p & Hp & ->).
        case_bool_decide as Hpu; [simpl in Hu; congruence | eauto].
      * intros (p & Hp & Hu & Hst). exists p. split; [| done].
        apply Hrows. exists p. split; [done |].
        rewrite bool_decide_eq_false_2; [done | congruence].
Qed.

(** On the database with three URLs: 'b' is failed and 'c' pending;
    completing 'b' leaves 'c' alone. *)
Lemma get_pending_urls_tracks_status_witness :
  get_pending_urls three_urls = ["b"; "c"]
  ∧ get_pending_urls (get_or_create_progress "d" "4" 20 three_urls).2 = ["b"; "c"; "d"]
  ∧ ("b" ∉ get_pending_urls (update_progress "b" (only_status "completed") 20 three_urls))
  ∧ "c" ∈ get_pending_urls (update_progress "b" (only_status "completed") 20 three_urls).
Proof.
  destruct (get_pending_urls_tracks_status three_urls "d" "4" "completed" 20)
    as (_ & Hnew & _).
  destruct (get_pending_urls_tracks_status three_urls "b" "2" "completed" 20)
    as (_ & _ & Hset).
  destruct (Hset ltac:(discriminate)) as [Hb Hother].
  split; [reflexivity |]. split; [exact (Hnew eq_refl) |]. split.
  - intros Hin. apply Hb in Hin as [_ [H | H]]; discriminate.
  - apply Hother; [discriminate |]. vm_compute.
    apply list_elem_of_In. simpl. tauto.
Defined.

(** *** get_statistics *)

Lemma sum_counts_insert (counts : gmap string Z) (key : string) (n : Z) :
  sum_counts (<[key := n]> counts)
  = n + sum_counts counts - default 0 (counts !! key).
Proof.
  unfold sum_counts.
  assert (Hcomm : ∀ (m : gmap string Z) (j1 j2 : string) (z1 z2 y : Z),
            j1 ≠ j2 → m !! j1 = Some z1 → m !! j2 = Some z2 →
            z1 + (z2 + y) = z2 + (z1 + y)) by (intros; lia).
  destruct (counts !! key) as [c |] eqn:Hc; simpl.
  - rewrite <- insert_delete_eq.
    rewrite map_fold_insert_L by (apply Hcomm || apply lookup_delete_eq).
    rewrite <- (insert_delete_id counts key c Hc) at 2.
    rewrite map_fold_insert_L by (apply Hcomm || apply lookup_delete_eq). lia.
  - rewrite map_fold_insert_L by (apply Hcomm || done). lia.
Qed.

Lemma group_count_lookup (keys : list string) (key : string) :
  group_count keys !! key
  = if bool_decide (key ∈ keys) then Some (occurrences key keys) else None.
Proof.
  unfold occurrences. induction keys as [| k keys IH].
  - change (group_count []) with (∅ : gmap string Z). rewrite lookup_empty.
    by rewrite bool_decide_eq_false_2 by apply not_elem_of_nil.
  - change (group_count (k :: keys))
      with (<[k := default 0 (group_count keys !! k) + 1]> (group_count keys)).
    rewrite filter_cons.
    destruct (decide (k = key)) as [-> | Hne].
    + rewrite lookup_insert_eq, IH.
      rewrite (bool_decide_eq_true_2 (key ∈ key :: keys)) by (by left).
      f_equal. case_bool_decide as Hin; simpl; [lia |].
      rewrite (proj2 (ParsersFacts.filter_length_zero (λ k, k = key) keys)); [done |].
      apply Forall_forall. by intros x Hx ->.
    + rewrite lookup_insert_ne, IH by done.
      case_bool_decide as Hin.
      * by rewrite bool_decide_eq_true_2 by (by right).
      * rewrite bool_decide_eq_false_2; [done |].
        apply not_elem_of_cons. split; [congruence | done].
Qed.

Lemma group_count_sum (keys : list string) :
  sum_counts (group_count keys) = Z.of_nat (length keys).
Proof.
  induction keys as [| k keys IH]; [done |].
  simpl. fold (group_count keys). rewrite sum_counts_insert, IH.
  destruct (group_count keys !! k); simpl; lia.
Qed.

(** X16.  get_statistics: the breakdown by parse status has an entry exactly
    for the statuses that occur in lot_details, with the number of rows
    of that status, and its counts add up to total_lots; likewise the
    breakdown by progress status and total_urls. *)
Theorem get_statistics_breakdowns (db : database) (s : string) :
  let stats := get_statistics db in
  by_parse_status stats !! s
  = (if bool_decide (s ∈ parse_status <$> lot_details db)
     then Some (occurrences s (parse_status <$> lot_details db)) else None)
  ∧ by_progress_status stats !! s
    = (if bool_decide (s ∈ status <$> scraping_progress db)
       then Some (occurrences s (status <$> scraping_progress db)) else None)
  ∧ sum_counts (by_parse_status stats) = total_lots stats
  ∧ sum_counts (by_progress_status stats) = total_urls stats.
Proof.
  simpl. rewrite !group_count_lookup, !group_count_sum, !length_fmap. done.
Qed.

End DatabaseFacts.

(** ** main.py *)

Module MainFacts.
Import Parsers HttpClient Database Main.
Import ParsersSpec HttpClientSpec DatabaseSpec MainSpec.
Import ParsersFacts HttpClientFacts DatabaseFacts.

Section OrchestratorFacts.

Context {E : env}.
Variable self : tender_parser.

#[local] Instance evolves_refl : Reflexive evolves.
Proof. intros w. repeat split; try done. by left. Qed.

#[local] Instance evolves_trans : Transitive evolves.
Proof.
  intros w1 w2 w3 (U1 & L1 & P1 & N1 & R1) (U2 & L2 & P2 & N2 & R2).
  split; [tauto |]. split; [by etrans |]. split; [by etrans |].
  split; [by etrans |].
  intros url Hin. destruct (R2 url Hin) as [H | H]; [exact (R1 url H) | by right].
Qed.

Lemma evolves_store_invariant (w w' : world) :
  evolves w w' → store_invariant (w_db w) → store_invariant (w_db w').
Proof.
  intros (U & _ & _ & _ & R) [Hu Hr]. split; [by apply U |].
  apply Forall_forall. intros url Hin.
  destruct (R url Hin) as [H | H]; [| done].
  by apply (proj1 (Forall_forall _ _) Hr).
Qed.

Lemma sound_ret {A} (a : A) : sound (ret a).
Proof. intros w. reflexivity. Qed.

Lemma sound_lift {A} (o : outcome A) : sound (lift o).
Proof. intros w. reflexivity. Qed.

Lemma sound_bind {A B} (c : M A) (k : A → M B) :
  sound c → (∀ a, sound (k a)) → sound (c ≫= k).
Proof.
  intros Hc Hk w. unfold mbind, M_bind, bindM.
  specialize (Hc w). destruct (c w) as [[a | e] w1]; simpl in *; [| done].
  etrans; [exact Hc | apply Hk].
Qed.

Lemma sound_try {A} (c : M A) (h : exn → M A) :
  sound c → (∀ e, sound (h e)) → sound (try_catch c h).
Proof.
  intros Hc Hh w. unfold try_catch.
  specialize (Hc w). destruct (c w) as [[a | e] w1]; simpl in *; [done |].
  etrans; [exact Hc | apply Hh].
Qed.

Lemma total_ret {A} (a : A) : total (ret a).
Proof. intros w. by eexists. Qed.

Lemma total_bind {A B} (c : M A) (k : A → M B) :
  total c → (∀ a, total (k a)) → total (c ≫= k).
Proof.
  intros Hc Hk w. unfold mbind, M_bind, bindM.
  destruct (Hc w) as [a Ha]. destruct (c w) as [r w1]; simpl in *; subst r.
  apply Hk.
Qed.

Lemma total_try {A} (c : M A) (h : exn → M A) :
  (∀ e, total (h e)) → total (try_catch c h).
Proof.
  intros Hh w. unfold try_catch.
  destruct (c w) as [[a | e] w1]; simpl; [by eexists | apply Hh].
Qed.

(** *** The primitive calls *)

Lemma select_progress_is_Some (url : string) (db : database) :
  is_Some (select_progress url db) ↔ url ∈ p_lot_url <$> scraping_progress db.
Proof.
  unfold select_progress. rewrite list_elem_of_fmap.
  induction (scraping_progress db) as [| p rows IH]; simpl.
  - split; [by intros [? ?] | intros (? & _ & H); by apply elem_of_nil in H].
  - rewrite filter_cons. destruct (decide (p_lot_url p = url)) as [Hp | Hp]; simpl.
    + split; [| by eauto]. intros _. exists p. split; [done | by left].
    + rewrite IH. split.
      * intros (q & Hq & Hin). exists q. split; [done | by right].
      * intros (q & Hq & Hin). apply elem_of_cons in Hin as [-> | Hin];
          [congruence | eauto].
Qed.

Lemma sound_get_or_create (url aid : string) :
  readable url → sound (db_get_or_create_progress url aid).
Proof.
  intros Hread w. unfold db_get_or_create_progress, get_or_create_progress.
  destruct (select_progress url (w_db w)); simpl; [reflexivity |].
  repeat split; simpl; try done.
  - rewrite fmap_app. by apply list_subseteq_app_l.
  - intros u. rewrite fmap_app, elem_of_app. simpl.
    rewrite list_elem_of_singleton. intros [H | ->]; [by left | by right].
Qed.

Lemma total_get_or_create (url aid : string) :
  total (db_get_or_create_progress url aid).
Proof.
  intros w. unfold db_get_or_create_progress, get_or_create_progress.
  destruct (select_progress url (w_db w)); simpl; by eexists.
Qed.

Lemma sound_update_progress (url : string) (a : progress_fields) :
  sound (db_update_progress url a).
Proof.
  intros w. unfold db_update_progress. simpl.
  pose proof (update_progress_rows url a (clock (w_ticks w)) (w_db w)) as [Hl _].
  pose proof (update_progress_urls url a (clock (w_ticks w)) (w_db w)) as Hu.
  destruct (stamps a); simpl; unfold evolves, unique_lots; simpl;
    rewrite Hl, Hu; repeat split; try done; by left.
Qed.

Lemma total_update_progress (url : string) (a : progress_fields) :
  total (db_update_progress url a).
Proof. intros w. by eexists. Qed.

Lemma sound_insert (url lid aid : string) (pd : parsed_dict) (ps : string)
    (em : option string) :
  sound (db_insert_lot_detail url lid aid pd ps em).
Proof.
  intros w. unfold db_insert_lot_detail.
  pose proof (insert_lot_detail_inv (w_db w) url lid aid pd ps em
                (clock (w_ticks w))) as (_ & Hu & Hp).
  destruct (decide ((url, lid) ∈ lot_key <$> lot_details (w_db w))) as [Hin | Hnin].
  - rewrite insert_lot_detail_duplicate by done. simpl.
    repeat split; try done. by left.
  - rewrite insert_lot_detail_fresh in * by done. simpl in *.
    repeat split; simpl; try done; [by apply prefix_app_r | by left].
Qed.

Lemma total_insert (url lid aid : string) (pd : parsed_dict) (ps : string)
    (em : option string) :
  total (db_insert_lot_detail url lid aid pd ps em).
Proof.
  intros w. unfold db_insert_lot_detail.
  pose proof (insert_lot_detail_inv (w_db w) url lid aid pd ps em
                (clock (w_ticks w))) as (Hr & _).
  by destruct (insert_lot_detail _ _ _ _ _ _ _ _).
Qed.

Lemma sound_increment (url : string) : sound (db_increment_processed url).
Proof.
  intros w.
  assert (Hurls : p_lot_url <$> scraping_progress (increment_processed url (w_db w))
                  = p_lot_url <$> scraping_progress (w_db w)).
  { unfold increment_processed. simpl. rewrite <- list_fmap_compose.
    apply list_fmap_ext. intros i p _. simpl. by destruct (bool_decide _). }
  unfold db_increment_processed, evolves, unique_lots.
  cbn [fst snd w_db set_db w_net]. rewrite Hurls.
  repeat split; try done. by left.
Qed.

Lemma sound_get_lot_ids_page (url : string) : sound (http_get_lot_ids_page url).
Proof.
  intros w. unfold http_get_lot_ids_page, get_lot_ids_page.
  pose proof (post_attempts_posts http_client (url +:+ "?tab=lots#") None
                (attempts_range http_client) (w_net w)) as Hp.
  unfold post_with_retry.
  destruct (post_attempts _ _ _ _ _) as [res n]. simpl in *.
  repeat split; try done. by left.
Qed.

Lemma sound_get_lot_detail (aid lid : string) : sound (http_get_lot_detail aid lid).
Proof.
  intros w. unfold http_get_lot_detail, get_lot_detail.
  pose proof (post_attempts_posts http_client (Config.AJAX_LOAD_LOT_URL aid)
                (Some [("id", lid)]) (attempts_range http_client) (w_net w)) as Hp.
  unfold post_with_retry.
  destruct (post_attempts _ _ _ _ _) as [res n]. simpl in *.
  repeat split; try done. by left.
Qed.

Lemma sound_sleep (d : delay) : sound (sleep d).
Proof. intros w. repeat split; try done. by left. Qed.

Lemma sound_shutdown_requested : sound shutdown_requested.
Proof. intros w. repeat split; try done. by left. Qed.

Lemma sound_add_lots_found (n : Z) : sound (add_lots_found n).
Proof. intros w. repeat split; try done. by left. Qed.

Lemma sound_add_lots_saved : sound add_lots_saved.
Proof. intros w. repeat split; try done. by left. Qed.

Lemma sound_add_lots_failed : sound add_lots_failed.
Proof. intros w. repeat split; try done. by left. Qed.

Lemma sound_add_urls_processed : sound add_urls_processed.
Proof. intros w. repeat split; try done. by left. Qed.

Lemma total_simple {A} (f : world → A * world) :
  total (λ w, (Ret (f w).1, (f w).2)).
Proof. intros w. by eexists. Qed.

Lemma total_increment (url : string) : total (db_increment_processed url).
Proof. intros w. by eexists. Qed.
Lemma total_sleep (d : delay) : total (sleep d).
Proof. intros w. by eexists. Qed.
Lemma total_shutdown_requested : total shutdown_requested.
Proof. intros w. by eexists. Qed.
Lemma total_add_lots_found (n : Z) : total (add_lots_found n).
Proof. intros w. by eexists. Qed.
Lemma total_add_lots_saved : total add_lots_saved.
Proof. intros w. by eexists. Qed.
Lemma total_add_lots_failed : total add_lots_failed.
Proof. intros w. by eexists. Qed.
Lemma total_add_urls_processed : total add_urls_processed.
Proof. intros w. by eexists. Qed.

(** *** The methods of TenderParser *)

Ltac step_sound :=
  first
    [ apply sound_ret | apply sound_lift
    | apply sound_update_progress
    | apply sound_insert | apply sound_increment
    | apply sound_get_lot_ids_page | apply sound_get_lot_detail
    | apply sound_sleep | apply sound_shutdown_requested
    | apply sound_add_lots_found | apply sound_add_lots_saved
    | apply sound_add_lots_failed | apply sound_add_urls_processed
    | apply sound_bind; [| intros ?]
    | apply sound_try; [| intros ?]
    | match goal with
      | |- sound (if ?b then _ else _) => destruct b
      | |- sound (match ?x with _ => _ end) => destruct x
      end ].

Ltac step_total :=
  first
    [ apply total_ret
    | apply total_get_or_create | apply total_update_progress
    | apply total_insert | apply total_increment
    | apply total_sleep | apply total_shutdown_requested
    | apply total_add_lots_found | apply total_add_lots_saved
    | apply total_add_lots_failed | apply total_add_urls_processed
    | apply total_bind; [| intros ?]
    | apply total_try; intros ?
    | match goal with
      | |- total (if ?b then _ else _) => destruct b
      | |- total (match ?x with _ => _ end) => destruct x
      end ].

Lemma sound_process_lot (url aid lid : string) : sound (process_lot url aid lid).
Proof. unfold process_lot. repeat step_sound. Qed.

(** process_lot catches every exception. *)
Lemma total_process_lot (url aid lid : string) : total (process_lot url aid lid).
Proof. unfold process_lot. repeat step_total. Qed.

Lemma sound_lot_loop (url aid : string) (lot_ids : list string) :
  sound (lot_loop url aid lot_ids).
Proof.
  induction lot_ids as [| lid rest IH]; simpl; [apply sound_ret |].
  repeat first [ apply sound_process_lot | exact IH | step_sound ].
Qed.

Lemma total_lot_loop (url aid : string) (lot_ids : list string) :
  total (lot_loop url aid lot_ids).
Proof.
  induction lot_ids as [| lid rest IH]; simpl; [apply total_ret |].
  repeat first [ apply total_process_lot | exact IH | step_total ].
Qed.

Lemma sound_process_lot_ids (url aid : string) (lot_ids : list string) :
  sound (process_lot_ids url aid lot_ids).
Proof.
  unfold process_lot_ids. destruct lot_ids as [| lid rest].
  - apply sound_update_progress.
  - repeat first [ apply sound_lot_loop | step_sound ].
Qed.

Lemma total_process_lot_ids (url aid : string) (lot_ids : list string) :
  total (process_lot_ids url aid lot_ids).
Proof.
  unfold process_lot_ids. destruct lot_ids as [| lid rest].
  - apply total_update_progress.
  - repeat first [ apply total_lot_loop | step_total ].
Qed.

Lemma sound_process_url_try (url aid : string) : sound (process_url_try url aid).
Proof.
  unfold process_url_try.
  repeat first [ apply sound_process_lot_ids | step_sound ].
Qed.

Lemma total_process_url_try (url aid : string) : total (process_url_try url aid).
Proof. unfold process_url_try. repeat step_total. Qed.

Lemma sound_process_url (url : string) : sound (process_url self url).
Proof.
  unfold process_url.
  destruct (extract_announce_id url) as [aid |] eqn:Hext; [| apply sound_ret].
  destruct (truthy_str aid) eqn:Haid; [| apply sound_ret].
  apply sound_bind.
  - apply sound_get_or_create. exists aid. split; [done |].
    by apply bool_decide_eq_true in Haid.
  - intros progress.
    repeat first [ apply sound_process_url_try | step_sound ].
Qed.

(** process_url returns in every world: what its try block raises is
    caught and recorded as 'failed'. *)
Lemma total_process_url (url : string) : total (process_url self url).
Proof.
  unfold process_url.
  repeat first [ apply total_process_url_try | step_total ].
Qed.

Lemma sound_url_loop (urls : list string) : sound (url_loop self urls).
Proof.
  induction urls as [| url rest IH]; simpl; [apply sound_ret |].
  repeat first [ apply sound_process_url | exact IH | step_sound ].
Qed.

Lemma sound_load_urls (links : list string) : sound (load_urls self links).
Proof. intros w. reflexivity. Qed.

Lemma sound_run (links : list string) : sound (run self links).
Proof.
  unfold run.
  repeat first [ apply sound_url_loop | apply sound_load_urls | step_sound ].
Qed.

Lemma total_run (links : list string) : total (run self links).
Proof. unfold run. apply total_try. intros e. apply total_ret. Qed.

(** Every database that runs produce from the empty one satisfies the
    UNIQUE constraint of lot_details. *)
Lemma run_from_scratch (links : list string) :
  store_invariant (w_db (run self links world0).2).
Proof.
  apply (evolves_store_invariant world0); [apply sound_run |].
  split; [apply NoDup_nil_2 | constructor].
Qed.

(** *** What process_url leaves in the progress table *)

Lemma bind_eq_ret {A B} (c : M A) (k : A → M B) (w w' : world) (a : A) :
  c w = (Ret a, w') → (c ≫= k) w = k a w'.
Proof. intros H. unfold mbind, M_bind, bindM. by rewrite H. Qed.

Lemma bind_eq_raise {A B} (c : M A) (k : A → M B) (w w' : world) (e : exn) :
  c w = (Raise e, w') → (c ≫= k) w = (Raise e, w').
Proof. intros H. unfold mbind, M_bind, bindM. by rewrite H. Qed.

Lemma db_update_progress_run (url : string) (a : progress_fields) (w : world) :
  ∃ w', db_update_progress url a w = (Ret (), w')
    ∧ w_db w' = update_progress url a (clock (w_ticks w)) (w_db w)
    ∧ w_net w' = w_net w ∧ w_polls w' = w_polls w.
Proof.
  unfold db_update_progress. eexists. split; [reflexivity |].
  by destruct (stamps a).
Qed.

Lemma update_progress_status (url : string) (a : progress_fields) (s : string)
    (now : timestamp) (db : database) :
  passed_status a = Some s →
  url ∈ p_lot_url <$> scraping_progress db →
  progress_status url (update_progress url a now db) = Some s.
Proof.
  intros Hs Hin. unfold progress_status.
  rewrite update_progress_select.
  apply select_progress_is_Some in Hin as [p Hp]. rewrite Hp. simpl.
  rewrite build_updates_row. simpl. by rewrite Hs.
Qed.

(** A status update as the last change to the database. *)
Lemma db_update_progress_status (url : string) (a : progress_fields) (s : string)
    (w : world) :
  passed_status a = Some s →
  url ∈ p_lot_url <$> scraping_progress (w_db w) →
  ∃ w', db_update_progress url a w = (Ret (), w')
    ∧ progress_status url (w_db w') = Some s
    ∧ lot_details (w_db w') = lot_details (w_db w)
    ∧ w_net w' = w_net w.
Proof.
  intros Hs Hin.
  destruct (db_update_progress_run url a w) as (w' & Hrun & Hdb & Hnet & _).
  exists w'. split; [done |]. rewrite Hdb.
  split; [by apply update_progress_status |].
  split; [apply update_progress_rows | done].
Qed.

(** A set flag at the first check leaves the lot loop at once. *)
Lemma lot_loop_shutdown (url aid : string) (lot_ids : list string) (w : world) :
  shutdown_flag (w_polls w) = true →
  lot_details (w_db (lot_loop url aid lot_ids w).2) = lot_details (w_db w).
Proof.
  intros Hflag. destruct lot_ids as [| lid rest]; [done |]. simpl.
  rewrite (bind_eq_ret shutdown_requested _ w (polled w) true).
  - done.
  - unfold shutdown_requested. by rewrite Hflag.
Qed.

(** Once the lot IDs are extracted, the URL ends 'completed', however
    many passes the lot loop made. *)
Lemma process_lot_ids_completed (url aid : string) (lot_ids : list string)
    (w : world) :
  url ∈ p_lot_url <$> scraping_progress (w_db w) →
  ∃ w', process_lot_ids url aid lot_ids w = (Ret (), w')
    ∧ progress_status url (w_db w') = Some "completed"
    ∧ (shutdown_flag (w_polls w) = true →
         lot_details (w_db w') = lot_details (w_db w)).
Proof.
  intros Hin. unfold process_lot_ids. destruct lot_ids as [| lid rest].
  - edestruct (db_update_progress_status url) as (w' & Hrun & Hst & Hl & _);
      [| exact Hin |].
    2: { exists w'. split; [exact Hrun |]. split; [exact Hst | done]. }
    reflexivity.
  - set (ids := lid :: rest).
    destruct (db_update_progress_run url
                {| f_status := None; f_lot_ids_found := Some (Z.of_nat (length ids));
                   f_lot_ids_processed := None; f_error_count := None;
                   f_last_error := None |} w) as (w1 & H1 & Hdb1 & _ & Hp1).
    rewrite (bind_eq_ret _ _ _ _ _ H1).
    rewrite (bind_eq_ret (add_lots_found _) _ w1 _ () eq_refl).
    set (w2 := set_stats _ w1).
    destruct (total_lot_loop url aid ids w2) as [[] Hret].
    pose proof (sound_lot_loop url aid ids w2) as (_ & _ & Hurls & _).
    pose proof (lot_loop_shutdown url aid ids w2) as Hshut.
    destruct (lot_loop url aid ids w2) as [r w3] eqn:Hloop.
    simpl in Hret, Hurls, Hshut. subst r.
    rewrite (bind_eq_ret _ _ _ _ _ Hloop).
    assert (Hin3 : url ∈ p_lot_url <$> scraping_progress (w_db w3)).
    { apply Hurls. subst w2. simpl. rewrite Hdb1, update_progress_urls. exact Hin. }
    destruct (db_update_progress_status url (with_status "completed") "completed" w3
                eq_refl Hin3) as (w4 & H4 & Hst & Hl4 & _).
    rewrite (bind_eq_ret _ _ _ _ _ H4).
    eexists. split; [reflexivity |]. split; [exact Hst |].
    intros Hflag. simpl. rewrite Hl4, Hshut.
    + subst w2. simpl. rewrite Hdb1. apply update_progress_rows.
    + subst w2. simpl. by rewrite Hp1.
Qed.

(** The try statement always returns and leaves the URL 'completed' when
    the page was fetched and 'failed' otherwise. *)
Lemma process_url_try_spec (url aid : string) (w : world) :
  url ∈ p_lot_url <$> scraping_progress (w_db w) →
  let page := get_lot_ids_page http_client url (w_net w) in
  ∃ w', process_url_try url aid w = (Ret (), w')
    ∧ progress_status url (w_db w')
      = Some (if fetched page.1 then "completed" else "failed")
    ∧ posts page.2 `prefix_of` posts (w_net w')
    ∧ (shutdown_flag (w_polls w) = true →
         lot_details (w_db w') = lot_details (w_db w)).
Proof.
  intros Hin page. unfold process_url_try, try_catch.
  assert (Hpage : http_get_lot_ids_page url w = (page.1, set_net page.2 w)).
  { unfold http_get_lot_ids_page. subst page.
    by destruct (get_lot_ids_page http_client url (w_net w)). }
  destruct page.1 as [html_content | e] eqn:Hres; simpl.
  - rewrite (bind_eq_ret _ _ _ _ _ Hpage).
    destruct (truthy_opt_str html_content) eqn:Htruthy.
    + destruct (extract_lot_ids_returns lxml_lot_ids
                  (default "" html_content) url) as [lot_ids Hids].
      rewrite (bind_eq_ret (lift _) _ (set_net page.2 w) (set_net page.2 w) lot_ids)
        by (unfold lift; by rewrite Hids).
      destruct (process_lot_ids_completed url aid lot_ids (set_net page.2 w) Hin)
        as (w' & Hrun & Hst & Hshut).
      pose proof (sound_process_lot_ids url aid lot_ids (set_net page.2 w))
        as (_ & _ & _ & Hposts & _).
      rewrite Hrun in *. simpl in Hposts.
      exists w'. by repeat split.
    + destruct (db_update_progress_status url
                  (failed_with "Failed to fetch lot IDs page") "failed"
                  (set_net page.2 w) eq_refl Hin) as (w' & Hrun & Hst & Hl & Hn).
      rewrite Hrun. exists w'. split; [done |]. split; [done |].
      split; [by rewrite Hn | done].
  - rewrite (bind_eq_raise _ _ _ _ _ Hpage).
    destruct (db_update_progress_status url (failed_with (str_exn e)) "failed"
                (set_net page.2 w) eq_refl Hin) as (w' & Hrun & Hst & Hl & Hn).
    rewrite Hrun. exists w'. split; [done |]. split; [done |].
    split; [by rewrite Hn | done].
Qed.

Lemma get_or_create_run (url aid : string) (w : world) :
  ∃ p w0, db_get_or_create_progress url aid w = (Ret p, w0)
    ∧ select_progress url (w_db w0) = Some p
    ∧ w_net w0 = w_net w ∧ w_polls w0 = w_polls w
    ∧ lot_details (w_db w0) = lot_details (w_db w)
    ∧ (is_Some (select_progress url (w_db w)) → w0 = w).
Proof.
  unfold db_get_or_create_progress, get_or_create_progress.
  destruct (select_progress url (w_db w)) as [p |] eqn:Hsel.
  - exists p, w. by repeat split.
  - eexists _, _. split; [reflexivity |]. simpl.
    split; [| repeat split; by intros [? ?]].
    unfold select_progress in *. simpl.
    rewrite filter_app. apply head_None in Hsel. rewrite Hsel. simpl.
    by rewrite filter_cons_True.
Qed.

(** process_url in a world where the page of the URL can be fetched. *)
Lemma process_url_fetched (url aid : string) (w : world) :
  extract_announce_id url = Some aid → aid ≠ "" →
  fetched (get_lot_ids_page http_client url (w_net w)).1 = true →
  ∃ w', process_url self url w = (Ret (), w')
    ∧ progress_status url (w_db w') = Some "completed"
    ∧ (shutdown_flag (w_polls w) = true →
         lot_details (w_db w') = lot_details (w_db w)).
Proof.
  intros Hext Haid Hfetch. unfold process_url. rewrite Hext.
  unfold truthy_str at 1. rewrite bool_decide_eq_true_2 by done.
  destruct (get_or_create_run url aid w) as (p & w0 & Hrun & Hsel & Hn0 & Hp0 & Hl0 & _).
  rewrite (bind_eq_ret _ _ _ _ _ Hrun).
  destruct (bool_decide (status p = "completed") && resume self) eqn:Hskip.
  - exists w0. split; [done |]. split; [| by rewrite Hl0].
    unfold progress_status. rewrite Hsel. simpl. f_equal.
    apply andb_true_iff in Hskip as [Hs _]. by apply bool_decide_eq_true in Hs.
  - destruct (db_update_progress_run url (with_status "processing") w0)
      as (w1 & H1 & Hdb1 & Hn1 & Hp1).
    rewrite (bind_eq_ret _ _ _ _ _ H1).
    assert (Hin : url ∈ p_lot_url <$> scraping_progress (w_db w1)).
    { rewrite Hdb1, update_progress_urls. apply select_progress_is_Some.
      by rewrite Hsel. }
    destruct (process_url_try_spec url aid w1 Hin) as (w' & Htry & Hst & _ & Hshut).
    rewrite Hn1, Hn0, Hfetch in Hst.
    exists w'. split; [done |]. split; [done |].
    intros Hflag. rewrite Hshut by (by rewrite Hp1, Hp0).
    rewrite Hdb1, <- Hl0. apply update_progress_rows.
Qed.

(** C7.  When the announce id can be read from the URL and the lot-IDs
    page is fetched (so that extract_lot_ids, which never raises, yields
    its list), process_url returns with the URL's progress status
    'completed', whatever the shutdown flag reads at the checks of the lot
    loop; in particular when the flag is already set at the first check,
    so that the loop is left before any lot is fetched and no lot row is
    added, the status is 'completed' all the same. *)
Theorem process_url_completed_even_if_interrupted
    (announce_url announce_id html_content : string) (w : world) :
  extract_announce_id announce_url = Some announce_id → announce_id ≠ "" →
  (get_lot_ids_page http_client announce_url (w_net w)).1 = Ret (Some html_content) →
  html_content ≠ "" →
  ∃ w', process_url self announce_url w = (Ret (), w')
    ∧ progress_status announce_url (w_db w') = Some "completed"
    ∧ (shutdown_flag (w_polls w) = true →
         lot_details (w_db w') = lot_details (w_db w)).
Proof.
  intros Hext Haid Hpage Hne.
  apply (process_url_fetched announce_url announce_id w Hext Haid).
  rewrite Hpage. simpl. unfold truthy_str. by rewrite bool_decide_eq_true_2.
Qed.

(** process_url on a URL that is stored 'completed', in resume mode. *)
Lemma process_url_skips (url : string) (w : world) :
  resume self = true →
  progress_status url (w_db w) = Some "completed" →
  process_url self url w = (Ret (), w).
Proof.
  intros Hres Hst. unfold process_url.
  destruct (extract_announce_id url) as [aid |]; [| done].
  destruct (truthy_str aid); [| done].
  unfold progress_status in Hst.
  destruct (select_progress url (w_db w)) as [p |] eqn:Hsel; [| done].
  injection Hst as Hst.
  rewrite (bind_eq_ret _ _ w w p).
  - by rewrite Hst, Hres.
  - unfold db_get_or_create_progress. by rewrite Hsel.
Qed.



Lemma filter_tautology (pending : gset string) (urls : list string) :
  filter (λ url, url ∈ pending ∨ url ∉ pending) urls = urls.
Proof.
  induction urls as [| url rest IH]; [done |].
  rewrite filter_cons_True; [by f_equal |].
  destruct (decide (url ∈ pending)); tauto.
Qed.

(** C10.  load_urls leaves the world as it is and returns the input links
    in their order: all of them when max_urls is None, the first max_urls
    of them when max_urls is a positive number.  The result is the same
    for every value of the resume flag and every content of the progress
    store. *)
Theorem load_urls_ignores_progress (links : list string) (w : world) :
  ∃ urls, load_urls self links w = (Ret urls, w)
    ∧ (max_urls self = None → urls = links)
    ∧ (∀ n, max_urls self = Some n → 0 < n → urls = take (Z.to_nat n) links)
    ∧ (∀ (self' : tender_parser) (w' : world),
         max_urls self' = max_urls self →
         load_urls self' links w' = (Ret urls, w')).
Proof.
  assert (Hfilter : ∀ (flag : bool) (w0 : world),
    (if flag then
       let pending : gset string := list_to_set (get_pending_urls (w_db w0)) in
       if bool_decide (pending ≠ ∅)
       then filter (λ url, url ∈ pending ∨ url ∉ pending) links
       else links
     else links) = links).
  { intros [] w0; [| done]. simpl.
    destruct (bool_decide _); [apply filter_tautology | done]. }
  unfold load_urls. eexists. split; [reflexivity |].
  rewrite Hfilter. split; [| split].
  - by intros ->.
  - intros n -> Hn.
    rewrite bool_decide_eq_true_2 by lia. simpl.
    case_bool_decide as Hlen.
    + unfold slice_to. by rewrite bool_decide_eq_true_2 by lia.
    + rewrite take_ge; [done | lia].
  - intros self' w' Hmax. rewrite !Hfilter, Hmax. reflexivity.
Qed.

End OrchestratorFacts.

(** *** A concrete portal *)

(** A shutdown request before the first lot: two lot IDs found, none
    fetched, the URL 'completed'. *)
Lemma process_url_completed_even_if_interrupted_witness :
  ∃ w', process_url (E := demo_env (λ _, true)) resume_on "h/index/1" world0
        = (Ret (), w')
    ∧ progress_status "h/index/1" (w_db w') = Some "completed"
    ∧ lot_details (w_db w') = [].
Proof.
  destruct (process_url_completed_even_if_interrupted (E := demo_env (λ _, true))
              resume_on "h/index/1" "1" "<page>" world0)
    as (w' & Hrun & Hst & Hlots);
    [reflexivity | discriminate | reflexivity | discriminate |].
  exists w'. split; [exact Hrun |]. split; [exact Hst |].
  apply Hlots. reflexivity.
Defined.


(** max_urls = 1, with announcement 2 stored as 'failed' and with an
    empty store. *)
Lemma load_urls_ignores_progress_witness :
  load_urls {| max_urls := Some 1; resume := true |} demo_links after_first_run
  = (Ret ["h/index/1"], after_first_run)
  ∧ load_urls {| max_urls := Some 1; resume := false |} demo_links
      (world0 (E := demo_env (λ _, false)))
    = (Ret ["h/index/1"], world0).
Proof.
  destruct (load_urls_ignores_progress (E := demo_env (λ _, false))
              {| max_urls := Some 1; resume := true |} demo_links after_first_run)
    as (urls & Hload & _ & Htake & Hany).
  rewrite (Htake 1 eq_refl) in * by lia.
  split; [exact Hload |]. apply Hany. reflexivity.
Defined.

(** *** process_lot and what a URL's processing may touch *)

Section OrchestratorEffects.

Context {E : env}.
Variable self : tender_parser.

Lemma respects_ret {A} (R : world → world → Prop) `{!Reflexive R} (a : A) :
  respects R (ret a).
Proof. intros w. reflexivity. Qed.

Lemma respects_bind {A B} (R : world → world → Prop) `{!Transitive R}
    (c : M A) (k : A → M B) :
  respects R c → (∀ a, respects R (k a)) → respects R (c ≫= k).
Proof.
  intros Hc Hk w. unfold mbind, M_bind, bindM.
  specialize (Hc w). destruct (c w) as [[a | e] w1]; simpl in *; [| done].
  etrans; [exact Hc | apply Hk].
Qed.

Lemma respects_try {A} (R : world → world → Prop) `{!Transitive R}
    (c : M A) (h : exn → M A) :
  respects R c → (∀ e, respects R (h e)) → respects R (try_catch c h).
Proof.
  intros Hc Hh w. unfold try_catch.
  specialize (Hc w). destruct (c w) as [[a | e] w1]; simpl in *; [done |].
  etrans; [exact Hc | apply Hh].
Qed.

#[local] Instance confined_refl (url aid : string) : Reflexive (confined url aid).
Proof.
  intros w. split; [done |]. exists []. rewrite app_nil_r.
  split; [done |]. split; [constructor | simpl; lia].
Qed.

#[local] Instance confined_trans (url aid : string) : Transitive (confined url aid).
Proof.
  intros w1 w2 w3 [P1 (rows1 & L1 & F1 & S1)] [P2 (rows2 & L2 & F2 & S2)].
  split.
  - intros u Hu. by rewrite P2, P1.
  - exists (rows1 ++ rows2). rewrite L2, L1, <- app_assoc.
    split; [done |]. split; [by apply Forall_app |].
    rewrite S2, S1, length_app. lia.
Qed.

(** A call that leaves the database and lots_saved alone. *)
Lemma confined_same (url aid : string) (w w' : world) :
  w_db w' = w_db w → lots_saved (w_stats w') = lots_saved (w_stats w) →
  confined url aid w w'.
Proof.
  intros Hdb Hs. split; [by rewrite Hdb |].
  exists []. rewrite app_nil_r, Hdb, Hs.
  split; [done |]. split; [constructor | simpl; lia].
Qed.

Lemma http_get_lot_detail_run (aid lid : string) (w : world) :
  http_get_lot_detail aid lid w
  = ((get_lot_detail http_client aid lid (w_net w)).1,
     set_net (get_lot_detail http_client aid lid (w_net w)).2 w).
Proof.
  unfold http_get_lot_detail.
  by destruct (get_lot_detail http_client aid lid (w_net w)).
Qed.

(** The cases of process_lot, by the fetch and by the stored pairs. *)
Lemma process_lot_cases (announce_url announce_id lot_id : string) (w : world) :
  let detail := get_lot_detail http_client announce_id lot_id (w_net w) in
  let res := process_lot announce_url announce_id lot_id w in
  res.1 = Ret ()
  ∧ w_net res.2 = detail.2
  ∧ (fetched detail.1 = false →
       w_db res.2 = w_db w
       ∧ lots_failed (w_stats res.2) = lots_failed (w_stats w) + 1
       ∧ lots_saved (w_stats res.2) = lots_saved (w_stats w))
  ∧ (fetched detail.1 = true →
       (announce_url, lot_id) ∈ lot_key <$> lot_details (w_db w) →
       w_db res.2 = w_db w ∧ w_stats res.2 = w_stats w)
  ∧ (fetched detail.1 = true →
       (announce_url, lot_id) ∉ lot_key <$> lot_details (w_db w) →
       ∃ html_content parsed_data,
         detail.1 = Ret (Some html_content)
         ∧ parse_lot_table lxml_rows html_content lot_id = Ret parsed_data
         ∧ lot_details (w_db res.2)
           = lot_details (w_db w)
             ++ [lot_row announce_url lot_id announce_id parsed_data
                         (determine_parse_status parsed_data).1
                         (determine_parse_status parsed_data).2
                         (clock (w_ticks w))]
         ∧ scraping_progress (w_db res.2)
           = scraping_progress (increment_processed announce_url (w_db w))
         ∧ lots_saved (w_stats res.2) = lots_saved (w_stats w) + 1
         ∧ lots_failed (w_stats res.2) = lots_failed (w_stats w)).
Proof.
  intros detail res. subst res. unfold process_lot, try_catch.
  pose proof (http_get_lot_detail_run announce_id lot_id w) as Hrun.
  fold detail in Hrun.
  destruct detail.1 as [[html_content |] | e] eqn:Hd; simpl fetched.
  - rewrite (bind_eq_ret _ _ _ _ _ Hrun).
    destruct (truthy_str html_content) eqn:Htruthy.
    + destruct (parse_lot_table_keys lxml_rows html_content lot_id)
        as (parsed_data & Hparse & _).
      rewrite (bind_eq_ret (lift _) _ (set_net detail.2 w) (set_net detail.2 w)
                 parsed_data) by (unfold lift; by rewrite Hparse).
      destruct (determine_parse_status parsed_data) as [ps em] eqn:Hps.
      destruct (decide ((announce_url, lot_id) ∈ lot_key <$> lot_details (w_db w)))
        as [Hin | Hnin].
      * rewrite (bind_eq_ret _ _ (set_net detail.2 w)
                   (set_db (w_db w) (tick (set_net detail.2 w))) false).
        2: { unfold db_insert_lot_detail. simpl.
             by rewrite insert_lot_detail_duplicate. }
        simpl. by repeat split.
      * rewrite (bind_eq_ret _ _ (set_net detail.2 w)
                   (set_db {| lot_details := lot_details (w_db w)
                                ++ [lot_row announce_url lot_id announce_id
                                      parsed_data ps em (clock (w_ticks w))];
                              scraping_progress := scraping_progress (w_db w) |}
                           (tick (set_net detail.2 w))) true).
        2: { unfold db_insert_lot_detail. simpl.
             by rewrite insert_lot_detail_fresh. }
        simpl. repeat split; try done.
        intros _ _. exists html_content, parsed_data. repeat split; try done.
        by rewrite Hps.
    + simpl. repeat split; done.
  - rewrite (bind_eq_ret _ _ _ _ _ Hrun). simpl. repeat split; done.
  - rewrite (bind_eq_raise _ _ _ _ _ Hrun). simpl. repeat split; done.
Qed.

(** X17.  process_lot never raises and ends in one of three ways.  When the
    detail fragment is not fetched (no response with status 200, an empty
    body, or an exception of the transport), the database is as before
    and lots_failed is one more.  When it is fetched and the pair (URL,
    lot id) is stored already, database and statistics are as before.
    When it is fetched and the pair is new, exactly one row is appended:
    the record parsed from the fragment with the classification of
    determine_parse_status; lot_ids_processed of the URL and lots_saved
    are one more. *)
Theorem process_lot_outcomes (announce_url announce_id lot_id : string) (w : world) :
  let detail := get_lot_detail http_client announce_id lot_id (w_net w) in
  let res := process_lot announce_url announce_id lot_id w in
  res.1 = Ret ()
  ∧ w_net res.2 = detail.2
  ∧ (fetched detail.1 = false →
       w_db res.2 = w_db w
       ∧ lots_failed (w_stats res.2) = lots_failed (w_stats w) + 1
       ∧ lots_saved (w_stats res.2) = lots_saved (w_stats w))
  ∧ (fetched detail.1 = true →
       (announce_url, lot_id) ∈ lot_key <$> lot_details (w_db w) →
       w_db res.2 = w_db w ∧ w_stats res.2 = w_stats w)
  ∧ (fetched detail.1 = true →
       (announce_url, lot_id) ∉ lot_key <$> lot_details (w_db w) →
       ∃ html_content parsed_data,
         detail.1 = Ret (Some html_content)
         ∧ parse_lot_table lxml_rows html_content lot_id = Ret parsed_data
         ∧ lot_details (w_db res.2)
           = lot_details (w_db w)
             ++ [lot_row announce_url lot_id announce_id parsed_data
                         (determine_parse_status parsed_data).1
                         (determine_parse_status parsed_data).2
                         (clock (w_ticks w))]
         ∧ scraping_progress (w_db res.2)
           = scraping_progress (increment_processed announce_url (w_db w))
         ∧ lots_saved (w_stats res.2) = lots_saved (w_stats w) + 1
         ∧ lots_failed (w_stats res.2) = lots_failed (w_stats w)).
Proof. apply process_lot_cases. Qed.

Lemma confined_process_lot (url aid lid : string) :
  respects (confined url aid) (process_lot url aid lid).
Proof.
  intros w.
  destruct (process_lot_cases url aid lid w) as (_ & _ & Hfail & Hdup & Hnew).
  destruct (fetched (get_lot_detail http_client aid lid (w_net w)).1) eqn:Hf.
  - destruct (decide ((url, lid) ∈ lot_key <$> lot_details (w_db w))) as [Hin | Hnin].
    + destruct (Hdup eq_refl Hin) as [Hdb Hst]. apply confined_same; congruence.
    + destruct (Hnew eq_refl Hnin) as (html & pd & _ & _ & Hl & Hp & Hs & _).
      split.
      * intros u Hu. unfold select_progress. rewrite Hp.
        by apply increment_processed_other.
      * eexists [_]. split; [exact Hl |]. split; [| simpl; lia].
        by constructor.
  - destruct (Hfail eq_refl) as (Hdb & _ & Hs). by apply confined_same.
Qed.

(** *** What one URL and a whole run may change *)

Lemma respects_same {A} (url aid : string) (c : M A) :
  (∀ w, w_db (c w).2 = w_db w
        ∧ lots_saved (w_stats (c w).2) = lots_saved (w_stats w)) →
  respects (confined url aid) c.
Proof. intros H w. destruct (H w). by apply confined_same. Qed.

Lemma confined_update_progress (url aid : string) (a : progress_fields) :
  respects (confined url aid) (db_update_progress url a).
Proof.
  intros w. unfold db_update_progress. split.
  - intros u Hu. destruct (stamps a); simpl; by apply select_progress_other.
  - exists []. rewrite app_nil_r.
    destruct (stamps a); simpl;
      (split; [apply update_progress_rows |]); (split; [constructor | lia]).
Qed.

Lemma confined_get_or_create (url aid aid' : string) :
  respects (confined url aid) (db_get_or_create_progress url aid').
Proof.
  intros w. unfold db_get_or_create_progress, get_or_create_progress.
  destruct (select_progress url (w_db w)) as [p |] eqn:Hsel; simpl; [reflexivity |].
  split.
  - intros u Hu. simpl. destruct (w_db w) as [lots rows]. simpl.
    rewrite select_progress_app. destruct (select_progress u _); [done |].
    rewrite bool_decide_eq_false_2; [done |]. simpl. congruence.
  - exists []. rewrite app_nil_r. simpl.
    split; [done |]. split; [constructor | lia].
Qed.

Lemma confined_get_lot_ids_page (url aid u : string) :
  respects (confined url aid) (http_get_lot_ids_page u).
Proof.
  apply respects_same. intros w. unfold http_get_lot_ids_page.
  by destruct (get_lot_ids_page http_client u (w_net w)).
Qed.

Lemma confined_lift {A} (url aid : string) (o : outcome A) :
  respects (confined url aid) (lift o).
Proof. by apply respects_same. Qed.

Lemma confined_sleep (url aid : string) (d : delay) :
  respects (confined url aid) (sleep d).
Proof. by apply respects_same. Qed.

Lemma confined_shutdown_requested (url aid : string) :
  respects (confined url aid) shutdown_requested.
Proof. by apply respects_same. Qed.

Lemma confined_add_lots_found (url aid : string) (n : Z) :
  respects (confined url aid) (add_lots_found n).
Proof. by apply respects_same. Qed.

Lemma confined_add_urls_processed (url aid : string) :
  respects (confined url aid) add_urls_processed.
Proof. by apply respects_same. Qed.

Ltac step_confined :=
  first
    [ apply respects_ret; apply _
    | apply confined_lift
    | apply confined_update_progress | apply confined_get_or_create
    | apply confined_get_lot_ids_page | apply confined_process_lot
    | apply confined_sleep | apply confined_shutdown_requested
    | apply confined_add_lots_found | apply confined_add_urls_processed
    | apply respects_bind; [apply _ | | intros ?]
    | apply respects_try; [apply _ | | intros ?]
    | match goal with
      | |- respects _ (if ?b then _ else _) => destruct b
      | |- respects _ (match ?x with _ => _ end) => destruct x
      end ].

Lemma confined_lot_loop (url aid : string) (lot_ids : list string) :
  respects (confined url aid) (lot_loop url aid lot_ids).
Proof.
  induction lot_ids as [| lid rest IH]; simpl; [apply respects_ret; apply _ |].
  repeat first [ exact IH | step_confined ].
Qed.

Lemma confined_process_lot_ids (url aid : string) (lot_ids : list string) :
  respects (confined url aid) (process_lot_ids url aid lot_ids).
Proof.
  unfold process_lot_ids. destruct lot_ids as [| lid rest].
  - apply confined_update_progress.
  - repeat first [ apply confined_lot_loop | step_confined ].
Qed.

Lemma confined_process_url_try (url aid : string) :
  respects (confined url aid) (process_url_try url aid).
Proof.
  unfold process_url_try.
  repeat first [ apply confined_process_lot_ids | step_confined ].
Qed.

Lemma confined_process_url (url aid : string) :
  extract_announce_id url = Some aid →
  respects (confined url aid) (process_url self url).
Proof.
  intros Hext. unfold process_url. rewrite Hext.
  repeat first [ apply confined_process_url_try | step_confined ].
Qed.

(** X18.  process_url never raises and keeps to its own announcement: the
    progress rows of other URLs are as before, and what it adds to the
    lot table are rows with its URL and the announce id read from it, as
    many as it counts in lots_saved.  On a URL from which no announce id
    can be read it changes nothing. *)
Theorem process_url_keeps_to_its_announcement (announce_url : string) (w : world) :
  let res := process_url self announce_url w in
  res.1 = Ret ()
  ∧ (∀ announce_id,
       extract_announce_id announce_url = Some announce_id →
       (∀ url', url' ≠ announce_url →
          select_progress url' (w_db res.2) = select_progress url' (w_db w))
       ∧ ∃ rows,
           lot_details (w_db res.2) = lot_details (w_db w) ++ rows
           ∧ Forall (λ r, Database.lot_url r = announce_url
                          ∧ Database.announce_id r = announce_id) rows
           ∧ lots_saved (w_stats res.2)
             = lots_saved (w_stats w) + Z.of_nat (length rows))
  ∧ (¬ readable announce_url → res.2 = w).
Proof.
  intros res. subst res. split; [| split].
  - destruct (total_process_url self announce_url w) as [[] Hret]. exact Hret.
  - intros announce_id Hext.
    exact (confined_process_url announce_url announce_id Hext w).
  - intros Hno. unfold process_url.
    destruct (extract_announce_id announce_url) as [aid |] eqn:Hext; [| done].
    unfold truthy_str. case_bool_decide as Haid; [| done].
    destruct Hno. by exists aid.
Qed.

#[local] Instance adds_lots_refl (urls : list string) : Reflexive (adds_lots urls).
Proof.
  intros w. exists []. rewrite app_nil_r.
  split; [done |]. split; [constructor | simpl; lia].
Qed.

#[local] Instance adds_lots_trans (urls : list string) : Transitive (adds_lots urls).
Proof.
  intros w1 w2 w3 (rows1 & L1 & F1 & S1) (rows2 & L2 & F2 & S2).
  exists (rows1 ++ rows2). rewrite L2, L1, <- app_assoc.
  split; [done |]. split; [by apply Forall_app |].
  rewrite S2, S1, length_app. lia.
Qed.

Lemma confined_adds_lots (url aid : string) (urls : list string) (w w' : world) :
  url ∈ urls → extract_announce_id url = Some aid →
  confined url aid w w' → adds_lots urls w w'.
Proof.
  intros Hin Hext [_ (rows & L & F & S)]. exists rows.
  split; [done |]. split; [| done].
  eapply Forall_impl; [exact F |]. intros r [Hu Ha]. simpl.
  by rewrite Hu, Ha.
Qed.

Lemma adds_lots_process_url (urls : list string) (url : string) :
  url ∈ urls → respects (adds_lots urls) (process_url self url).
Proof.
  intros Hin w. destruct (extract_announce_id url) as [aid |] eqn:Hext.
  - eapply confined_adds_lots; [exact Hin | exact Hext |].
    by apply confined_process_url.
  - unfold process_url. rewrite Hext. reflexivity.
Qed.

Lemma adds_lots_url_loop (all urls : list string) :
  urls ⊆ all → respects (adds_lots all) (url_loop self urls).
Proof.
  induction urls as [| url rest IH]; intros Hsub; simpl.
  - apply respects_ret. apply _.
  - apply respects_bind; [apply _ | |].
    + intros w. exists []. rewrite app_nil_r.
      split; [done |]. split; [constructor | simpl; lia].
    + intros stop. destruct stop; [apply respects_ret; apply _ |].
      apply respects_bind; [apply _ | |].
      * apply adds_lots_process_url. apply Hsub. by left.
      * intros _. apply IH. intros x Hx. apply Hsub. by right.
Qed.

(** load_urls returns links of the input and leaves the world alone. *)
Lemma load_urls_subset (links : list string) (w : world) :
  ∃ urls, load_urls self links w = (Ret urls, w) ∧ urls ⊆ links.
Proof.
  assert (Hfilter :
    (if resume self then
       let pending : gset string := list_to_set (get_pending_urls (w_db w)) in
       if bool_decide (pending ≠ ∅)
       then filter (λ url, url ∈ pending ∨ url ∉ pending) links
       else links
     else links) = links).
  { destruct (resume self); [| done]. simpl.
    destruct (bool_decide _); [apply filter_tautology | done]. }
  unfold load_urls. eexists. split; [reflexivity |].
  cbv zeta in Hfilter |- *. rewrite Hfilter.
  destruct (max_urls self) as [n |]; [| done].
  destruct (_ && _); [| done].
  unfold slice_to. destruct (bool_decide (0 ≤ n)); apply subseteq_take.
Qed.

Lemma adds_lots_run (links : list string) :
  respects (adds_lots links) (run self links).
Proof.
  intros w. unfold run, try_catch.
  destruct (load_urls_subset links w) as (urls & Hload & Hsub).
  rewrite (bind_eq_ret _ _ _ _ _ Hload).
  pose proof (adds_lots_url_loop links urls Hsub w) as Hloop.
  destruct urls as [| u rest]; [reflexivity |].
  set (r := url_loop self (u :: rest) w) in *.
  by destruct r as [[[] | e] w'].
Qed.

(** X19.  A run never raises, and the lot rows it adds are accounted for:
    each belongs to one of the input links, carries the announce id that
    extract_announce_id reads from its URL, and is counted once in
    lots_saved; rows stored before stay in place. *)
Theorem run_accounts_for_lot_rows (links : list string) (w : world) :
  let res := run self links w in
  res.1 = Ret ()
  ∧ ∃ rows,
      lot_details (w_db res.2) = lot_details (w_db w) ++ rows
      ∧ Forall (λ r, Database.lot_url r ∈ links
                     ∧ extract_announce_id (Database.lot_url r)
                       = Some (Database.announce_id r)) rows
      ∧ lots_saved (w_stats res.2)
        = lots_saved (w_stats w) + Z.of_nat (length rows).
Proof.
  intros res. subst res. split.
  - destruct (total_run self links w) as [[] Hret]. exact Hret.
  - exact (adds_lots_run links w).
Qed.

(** *** A second run in resume mode *)

Lemma url_loop_all_completed (urls : list string) (w : world) :
  resume self = true →
  Forall (λ url, progress_status url (w_db w) = Some "completed") urls →
  (url_loop self urls w).1 = Ret ()
  ∧ same_but_polls w (url_loop self urls w).2.
Proof.
  intros Hres. revert w.
  induction urls as [| url rest IH]; intros w Hall; simpl.
  - by repeat split.
  - inversion Hall as [| ? ? Hurl Hrest]; subst.
    rewrite (bind_eq_ret shutdown_requested _ w (polled w)
               (shutdown_flag (w_polls w)) eq_refl).
    destruct (shutdown_flag (w_polls w)); [by repeat split |].
    rewrite (bind_eq_ret (process_url self url) _ (polled w) (polled w) ())
      by (by apply process_url_skips).
    exact (IH (polled w) Hrest).
Qed.

(** X20.  In resume mode a run over links that are all stored 'completed'
    returns without a request: database, network (log of POSTs and
    sleeps), statistics and clock are as before. *)
Theorem run_over_completed_links_is_idle (links : list string) (w : world) :
  resume self = true →
  (∀ url, url ∈ links → progress_status url (w_db w) = Some "completed") →
  let res := run self links w in
  res.1 = Ret ()
  ∧ w_db res.2 = w_db w ∧ w_net res.2 = w_net w
  ∧ w_stats res.2 = w_stats w ∧ w_ticks res.2 = w_ticks w.
Proof.
  intros Hres Hall res. subst res. unfold run, try_catch.
  destruct (load_urls_subset links w) as (urls & Hload & Hsub).
  rewrite (bind_eq_ret _ _ _ _ _ Hload).
  assert (Hurls : Forall (λ url, progress_status url (w_db w) = Some "completed") urls).
  { apply Forall_forall. intros url Hin. apply Hall, Hsub, Hin. }
  pose proof (url_loop_all_completed urls w Hres Hurls) as [Hret Hsame].
  destruct urls as [| u rest]; [by repeat split |].
  set (r := url_loop self (u :: rest) w) in *.
  destruct r as [[[] | e] w']; [| done].
  split; [done |]. exact Hsame.
Qed.

(** *** The failure path of process_url *)

Lemma get_or_create_row (url aid : string) (w : world) :
  ∃ p w0, db_get_or_create_progress url aid w = (Ret p, w0)
    ∧ select_progress url (w_db w0) = Some p
    ∧ p = default (new_progress url aid (clock (w_ticks w)))
                  (select_progress url (w_db w))
    ∧ w_net w0 = w_net w ∧ w_stats w0 = w_stats w
    ∧ lot_details (w_db w0) = lot_details (w_db w).
Proof.
  unfold db_get_or_create_progress, get_or_create_progress.
  destruct (select_progress url (w_db w)) as [p |] eqn:Hsel.
  - exists p, w. by repeat split.
  - eexists _, _. split; [reflexivity |]. simpl.
    split; [| by repeat split].
    unfold select_progress in *. simpl.
    rewrite filter_app. apply head_None in Hsel. rewrite Hsel. simpl.
    by rewrite filter_cons_True.
Qed.

(** The skip test of process_url fails unless the URL is stored
    'completed' and the run is in resume mode. *)
Lemma skip_test_false (url aid : string) (w : world) :
  (resume self = true → progress_status url (w_db w) ≠ Some "completed") →
  bool_decide (status (default (new_progress url aid (clock (w_ticks w)))
                               (select_progress url (w_db w))) = "completed")
  && resume self = false.
Proof.
  intros Hnot. destruct (resume self); [| apply andb_false_r].
  rewrite andb_true_r. apply bool_decide_eq_false_2.
  unfold progress_status in Hnot.
  destruct (select_progress url (w_db w)) as [p |]; simpl in *; [| done].
  intros Hst. apply Hnot; [done |]. by rewrite Hst.
Qed.

Lemma http_get_lot_ids_page_run (url : string) (w : world) :
  http_get_lot_ids_page url w
  = ((get_lot_ids_page http_client url (w_net w)).1,
     set_net (get_lot_ids_page http_client url (w_net w)).2 w).
Proof.
  unfold http_get_lot_ids_page.
  by destruct (get_lot_ids_page http_client url (w_net w)).
Qed.

Lemma process_url_try_failed (url aid : string) (w : world) :
  let page := get_lot_ids_page http_client url (w_net w) in
  fetched page.1 = false →
  process_url_try url aid w
  = (Ret (),
     set_db (update_progress url (failed_with (fetch_error page.1))
                             (clock (w_ticks w)) (w_db w))
            (set_net page.2 w)).
Proof.
  intros page Hf. unfold process_url_try, try_catch.
  pose proof (http_get_lot_ids_page_run url w) as Hrun. fold page in Hrun.
  destruct page.1 as [html_content | e] eqn:Hres; simpl in Hf.
  - rewrite (bind_eq_ret _ _ _ _ _ Hrun). by rewrite Hf.
  - by rewrite (bind_eq_raise _ _ _ _ _ Hrun).
Qed.

(** X21.  When the lot-IDs page of a readable URL is not fetched (no response
    with status 200, an empty body, or an exception that the client lets
    through), and the URL is not skipped as 'completed' in resume mode,
    process_url returns with the URL stored 'failed' and last_error set
    to the fixed message or to str(e); error_count keeps its stored value
    (0 for a new row), no lot row is added, the statistics are as before,
    and the only requests are those of the page fetch. *)
Theorem process_url_fetch_failure (announce_url announce_id : string) (w : world) :
  extract_announce_id announce_url = Some announce_id → announce_id ≠ "" →
  (resume self = true →
     progress_status announce_url (w_db w) ≠ Some "completed") →
  let page := get_lot_ids_page http_client announce_url (w_net w) in
  fetched page.1 = false →
  ∃ w' p, process_url self announce_url w = (Ret (), w')
    ∧ select_progress announce_url (w_db w') = Some p
    ∧ status p = "failed"
    ∧ last_error p = Some (fetch_error page.1)
    ∧ error_count p
      = default 0 (error_count <$> select_progress announce_url (w_db w))
    ∧ lot_details (w_db w') = lot_details (w_db w)
    ∧ w_stats w' = w_stats w
    ∧ w_net w' = page.2.
Proof.
  intros Hext Haid Hnot page Hf. unfold process_url. rewrite Hext.
  unfold truthy_str at 1. rewrite bool_decide_eq_true_2 by done.
  destruct (get_or_create_row announce_url announce_id w)
    as (p & w0 & Hrun & Hsel & Hp & Hn0 & Hs0 & Hl0).
  rewrite (bind_eq_ret _ _ _ _ _ Hrun).
  rewrite Hp, (skip_test_false announce_url announce_id w Hnot).
  destruct (db_update_progress_run announce_url (with_status "processing") w0)
    as (w1 & H1 & Hdb1 & Hn1 & _).
  assert (Hs1 : w_stats w1 = w_stats w0).
  { unfold db_update_progress in H1. injection H1 as <-.
    by destruct (stamps (with_status "processing")). }
  rewrite (bind_eq_ret _ _ _ _ _ H1).
  rewrite process_url_try_failed by (by rewrite Hn1, Hn0).
  rewrite Hn1, Hn0. fold page.
  eexists _, _. split; [reflexivity |]. cbn [w_db set_db].
  rewrite update_progress_select, Hdb1, update_progress_select, Hsel.
  cbn [fmap option_fmap option_map].
  rewrite !build_updates_row.
  split; [reflexivity |]. split; [reflexivity |]. split; [reflexivity |].
  split.
  { simpl. rewrite Hp. by destruct (select_progress announce_url (w_db w)). }
  split; [| split; [cbn [w_stats set_db set_net]; by rewrite Hs1, Hs0 | done]].
  pose proof (λ u a now db, proj1 (update_progress_rows u a now db)) as Hrows.
  by rewrite !Hrows.
Qed.

(** *** Without resume mode *)

(** X22.  Unless the URL is stored 'completed' and the run is in resume mode,
    process_url on a readable URL posts the request for the lot-IDs page
    (the client making at least one attempt) and leaves the URL
    'completed' when the page is fetched and 'failed' when it is not,
    with the lot rows stored before still in place.  So without resume
    mode a URL stored 'completed' is requested again. *)
Theorem process_url_requests_unless_skipped (announce_url announce_id : string)
    (w : world) :
  extract_announce_id announce_url = Some announce_id → announce_id ≠ "" →
  0 < max_retries http_client →
  (resume self = true →
     progress_status announce_url (w_db w) ≠ Some "completed") →
  ∃ w', process_url self announce_url w = (Ret (), w')
    ∧ (posts (w_net w) ++ [(announce_url +:+ "?tab=lots#", None)])
        `prefix_of` posts (w_net w')
    ∧ progress_status announce_url (w_db w')
      = Some (if fetched (get_lot_ids_page http_client announce_url (w_net w)).1
              then "completed" else "failed")
    ∧ lot_details (w_db w) `prefix_of` lot_details (w_db w').
Proof.
  intros Hext Haid Hmax Hnot.
  pose proof (sound_process_url self announce_url w) as (_ & Hrows & _).
  revert Hrows. unfold process_url. rewrite Hext.
  unfold truthy_str at 1 2. rewrite bool_decide_eq_true_2 by done.
  destruct (get_or_create_row announce_url announce_id w)
    as (p & w0 & Hrun & Hsel & Hp & Hn0 & Hs0 & Hl0).
  rewrite !(bind_eq_ret _ _ _ _ _ Hrun).
  rewrite Hp, (skip_test_false announce_url announce_id w Hnot).
  destruct (db_update_progress_run announce_url (with_status "processing") w0)
    as (w1 & H1 & Hdb1 & Hn1 & _).
  rewrite !(bind_eq_ret _ _ _ _ _ H1).
  assert (Hin : announce_url ∈ p_lot_url <$> scraping_progress (w_db w1)).
  { rewrite Hdb1, update_progress_urls. apply select_progress_is_Some.
    by rewrite Hsel. }
  destruct (process_url_try_spec announce_url announce_id w1 Hin)
    as (w' & Htry & Hst & Hposts & _).
  rewrite Htry. simpl. intros Hrows.
  exists w'. split; [done |]. split; [| split; [| done]].
  - etrans; [| exact Hposts]. rewrite Hn1, Hn0.
    unfold get_lot_ids_page.
    pose proof (post_with_retry_first_post http_client
                  (announce_url +:+ "?tab=lots#") None (w_net w) Hmax) as Hfirst.
    by destruct (post_with_retry _ _ _ _).
  - by rewrite Hst, Hn1, Hn0.
Qed.

(** *** The counters of a run *)

Lemma process_lot_counts (url aid lid : string) (w : world) :
  counts_lots 1 w (process_lot url aid lid w).2.
Proof.
  unfold process_lot, try_catch, counts_lots.
  pose proof (http_get_lot_detail_run aid lid w) as Hrun.
  destruct (get_lot_detail http_client aid lid (w_net w))
    as [[[html_content |] | e] n]; cbn [fst snd] in Hrun.
  - rewrite (bind_eq_ret _ _ _ _ _ Hrun).
    destruct (truthy_str html_content); [| simpl; lia].
    destruct (parse_lot_table_keys lxml_rows html_content lid)
      as (parsed_data & Hparse & _).
    rewrite (bind_eq_ret (lift _) _ (set_net n w) (set_net n w) parsed_data)
      by (unfold lift; by rewrite Hparse).
    destruct (determine_parse_status parsed_data) as [ps em].
    destruct (decide ((url, lid) ∈ lot_key <$> lot_details (w_db w)))
      as [Hin | Hnin].
    + rewrite (bind_eq_ret _ _ (set_net n w)
                 (set_db (w_db w) (tick (set_net n w))) false).
      2: { unfold db_insert_lot_detail. simpl.
           by rewrite insert_lot_detail_duplicate. }
      simpl. lia.
    + rewrite (bind_eq_ret _ _ (set_net n w)
                 (set_db {| lot_details := lot_details (w_db w)
                              ++ [lot_row url lid aid parsed_data ps em
                                    (clock (w_ticks w))];
                            scraping_progress := scraping_progress (w_db w) |}
                         (tick (set_net n w))) true).
      2: { unfold db_insert_lot_detail. simpl.
           by rewrite insert_lot_detail_fresh. }
      simpl. lia.
  - rewrite (bind_eq_ret _ _ _ _ _ Hrun). simpl. lia.
  - rewrite (bind_eq_raise _ _ _ _ _ Hrun). simpl. lia.
Qed.

Lemma lot_loop_counts (url aid : string) (lot_ids : list string) (w : world) :
  counts_lots (Z.of_nat (length lot_ids)) w (lot_loop url aid lot_ids w).2.
Proof.
  revert w. induction lot_ids as [| lid rest IH]; intros w.
  - unfold counts_lots. simpl. lia.
  - cbn [lot_loop].
    rewrite (bind_eq_ret shutdown_requested _ w (polled w)
               (shutdown_flag (w_polls w)) eq_refl).
    destruct (shutdown_flag (w_polls w)).
    { unfold counts_lots. simpl. lia. }
    destruct (total_process_lot url aid lid (polled w)) as [[] Hret].
    pose proof (process_lot_counts url aid lid (polled w)) as H1.
    destruct (process_lot url aid lid (polled w)) as [r w1] eqn:Hlot.
    simpl in Hret, H1. subst r.
    rewrite (bind_eq_ret _ _ _ _ _ Hlot).
    rewrite (bind_eq_ret (sleep REQUEST_DELAY) _ w1
               (set_net (time_sleep REQUEST_DELAY (w_net w1)) w1) () eq_refl).
    specialize (IH (set_net (time_sleep REQUEST_DELAY (w_net w1)) w1)).
    unfold counts_lots in *. simpl in *. lia.
Qed.

Lemma db_update_progress_stats (url : string) (a : progress_fields) (w : world) :
  ∃ w', db_update_progress url a w = (Ret (), w') ∧ w_stats w' = w_stats w.
Proof.
  unfold db_update_progress. eexists. split; [reflexivity |].
  by destruct (stamps a).
Qed.

(** X23.  The counters over the lots of one announcement.  process_lot_ids
    never raises.  For a page without lot ids the statistics stay as they
    are: the URL is marked 'completed' but not counted in urls_processed.
    For a page with lot ids, lots_found goes up by their number and
    urls_processed by one, whether or not the lot loop was left early;
    lots_saved and lots_failed never go down, and together they go up by
    at most the number of lot ids. *)
Theorem process_lot_ids_counters (announce_url announce_id : string)
    (lot_ids : list string) (w : world) :
  let res := process_lot_ids announce_url announce_id lot_ids w in
  res.1 = Ret ()
  ∧ (lot_ids = [] → w_stats res.2 = w_stats w)
  ∧ (lot_ids ≠ [] →
       lots_found (w_stats res.2)
       = lots_found (w_stats w) + Z.of_nat (length lot_ids)
       ∧ urls_processed (w_stats res.2) = urls_processed (w_stats w) + 1)
  ∧ lots_saved (w_stats w) ≤ lots_saved (w_stats res.2)
  ∧ lots_failed (w_stats w) ≤ lots_failed (w_stats res.2)
  ∧ (lots_saved (w_stats res.2) - lots_saved (w_stats w))
    + (lots_failed (w_stats res.2) - lots_failed (w_stats w))
    ≤ Z.of_nat (length lot_ids).
Proof.
  intros res. subst res. split.
  { destruct (total_process_lot_ids announce_url announce_id lot_ids w)
      as [[] Hret]. exact Hret. }
  unfold process_lot_ids. destruct lot_ids as [| lid rest].
  - destruct (db_update_progress_stats announce_url
                {| f_status := Some "completed"; f_lot_ids_found := Some 0;
                   f_lot_ids_processed := Some 0; f_error_count := None;
                   f_last_error := None |} w) as (w' & -> & Hs).
    simpl. rewrite Hs. repeat split; try done; lia.
  - set (ids := lid :: rest).
    destruct (db_update_progress_stats announce_url
                {| f_status := None;
                   f_lot_ids_found := Some (Z.of_nat (length ids));
                   f_lot_ids_processed := None; f_error_count := None;
                   f_last_error := None |} w) as (w1 & H1 & Hs1).
    rewrite (bind_eq_ret _ _ _ _ _ H1).
    rewrite (bind_eq_ret (add_lots_found _) _ w1 _ () eq_refl).
    set (w2 := set_stats _ w1).
    destruct (total_lot_loop announce_url announce_id ids w2) as [[] Hret].
    pose proof (lot_loop_counts announce_url announce_id ids w2) as Hcounts.
    destruct (lot_loop announce_url announce_id ids w2) as [r w3] eqn:Hloop.
    simpl in Hret, Hcounts. subst r.
    rewrite (bind_eq_ret _ _ _ _ _ Hloop).
    destruct (db_update_progress_stats announce_url (with_status "completed") w3)
      as (w4 & H4 & Hs4).
    rewrite (bind_eq_ret _ _ _ _ _ H4).
    unfold counts_lots in Hcounts. subst w2. simpl in Hcounts.
    rewrite Hs1 in Hcounts. simpl. rewrite Hs4.
    split; [done |]. split; [intros _; lia |]. lia.
Qed.

End OrchestratorEffects.

(** The concrete portal, with lot 84809767 of announcement 1 stored:
    processing it again is a skipped duplicate. *)
Lemma process_lot_outcomes_witness :
  let res := process_lot "h/index/1" "1" "84809767" after_first_run in
  w_db res.2 = w_db after_first_run ∧ w_stats res.2 = w_stats after_first_run.
Proof.
  destruct (process_lot_outcomes (E := demo_env (λ _, false))
              "h/index/1" "1" "84809767" after_first_run)
    as (_ & _ & _ & Hdup & _).
  apply Hdup; [reflexivity |].
  vm_compute. apply list_elem_of_In. simpl. tauto.
Defined.

(** The lot-IDs page of announcement 2 times out at every attempt: from
    the empty store the URL ends 'failed' with the fixed message. *)
Lemma process_url_fetch_failure_witness :
  ∃ w' p, process_url (E := demo_env (λ _, false)) resume_on "h/index/2" world0
          = (Ret (), w')
    ∧ select_progress "h/index/2" (w_db w') = Some p
    ∧ status p = "failed"
    ∧ last_error p = Some "Failed to fetch lot IDs page".
Proof.
  destruct (process_url_fetch_failure (E := demo_env (λ _, false)) resume_on
              "h/index/2" "2" world0)
    as (w' & p & Hrun & Hsel & Hst & Herr & _).
  - reflexivity.
  - discriminate.
  - intros _. discriminate.
  - reflexivity.
  - exists w', p. repeat split; [exact Hrun | exact Hsel | exact Hst |].
    rewrite Herr. reflexivity.
Defined.

(** After the first run announcement 1 is stored 'completed': a second
    run over it in resume mode is idle. *)
Lemma run_over_completed_links_is_idle_witness :
  let res := run (E := demo_env (λ _, false)) resume_on ["h/index/1"]
                 after_first_run in
  res.1 = Ret ()
  ∧ w_db res.2 = w_db after_first_run ∧ w_net res.2 = w_net after_first_run
  ∧ w_stats res.2 = w_stats after_first_run
  ∧ w_ticks res.2 = w_ticks after_first_run.
Proof.
  apply (run_over_completed_links_is_idle (E := demo_env (λ _, false))
           resume_on ["h/index/1"] after_first_run).
  - reflexivity.
  - intros url Hin. apply list_elem_of_singleton in Hin. subst url.
    vm_compute. reflexivity.
Defined.

(** Without resume mode announcement 1, stored 'completed' by the first
    run, is requested again. *)
Lemma process_url_requests_unless_skipped_witness :
  ∃ w', process_url (E := demo_env (λ _, false))
          {| max_urls := None; resume := false |} "h/index/1" after_first_run
        = (Ret (), w')
    ∧ (posts (w_net after_first_run) ++ [("h/index/1?tab=lots#", None)])
        `prefix_of` posts (w_net w')
    ∧ progress_status "h/index/1" (w_db w') = Some "completed".
Proof.
  destruct (process_url_requests_unless_skipped (E := demo_env (λ _, false))
              {| max_urls := None; resume := false |} "h/index/1" "1"
              after_first_run)
    as (w' & Hrun & Hposts & Hst & _).
  - reflexivity.
  - discriminate.
  - vm_compute. reflexivity.
  - intros Hres. discriminate Hres.
  - exists w'. split; [exact Hrun |]. split; [exact Hposts |].
    rewrite Hst. vm_compute. reflexivity.
Defined.

End MainFacts.

(** ** scraper.py *)

Module ScraperFacts.
Import Scraper ScraperSpec.

Section LoopFacts.

Context {B : browser}.
Variables (max_links : option Z) (start_page : Z).









Lemma while_true_S (fuel : nat) (st : loop_state) :
  while_true (S fuel) max_links start_page st
  = match loop_body max_links start_page st with
    | Next st' => while_true fuel max_links start_page st'
    | Break st' => Some (None, st')
    | Crash e st' => Some (Some (Exc e), st')
    | Stop i st' => Some (Some (Base i), st')
    end.
Proof. reflexivity. Qed.


End LoopFacts.

(** *** A concrete listing *)


(** *** The link set, the checkpoints and the pages of a run *)

Section LinkSetFacts.

Context {B : browser}.
Variables (max_links : option Z) (start_page : Z).

Lemma truthy_href (href : option string) :
  truthy_opt_str href = true → ∃ h, href = Some h ∧ h ≠ "".
Proof.
  destruct href as [h |]; [| done]. simpl. unfold truthy_str.
  intros Hh. apply bool_decide_eq_true in Hh. by exists h.
Qed.

(** What the loop of extract_links adds: each link once, none that the
    set held before, each the absolute URL of a non-empty href of the
    page; when the loop ends without an Exception or interrupt, new_links
    is extended by exactly these links, in the order of the page; an
    interrupt that ends it is one delivered to a get_attribute. *)
Lemma extract_loop_added (elems : list (awaited (option string))) :
  ∀ (links : gset string) (new_links : list string),
    let res := extract_loop max_links elems links new_links in
    ∃ added,
      res.1 = list_to_set added ∪ links
      ∧ NoDup added
      ∧ (∀ x, x ∈ added →
           (x ∉ links)
           ∧ ∃ href, Gives (Some href) ∈ elems ∧ href ≠ "" ∧ x = urljoin href)
      ∧ (∀ new_links', res.2 = Gives new_links' → new_links' = new_links ++ added)
      ∧ (∀ i, res.2 = Interrupts i → Interrupts i ∈ elems).
Proof.
  assert (Hnone : ∀ (elems : list (awaited (option string)))
                    (links : gset string) (new_links : list string)
                    (r : awaited (list string)),
            (∀ new_links', r = Gives new_links' → new_links' = new_links) →
            (∀ i, r = Interrupts i → Interrupts i ∈ elems) →
            ∃ added,
              links = list_to_set added ∪ links
              ∧ NoDup added
              ∧ (∀ x, x ∈ added →
                   (x ∉ links)
                   ∧ ∃ href, Gives (Some href) ∈ elems ∧ href ≠ ""
                             ∧ x = urljoin href)
              ∧ (∀ new_links', r = Gives new_links' →
                   new_links' = new_links ++ added)
              ∧ (∀ i, r = Interrupts i → Interrupts i ∈ elems)).
  { intros elems0 links new_links r Hr Hi. exists [].
    split.
    { apply set_eq. intros y.
      rewrite elem_of_union, elem_of_list_to_set, elem_of_nil. tauto. }
    split; [constructor |].
    split; [intros x Hx; by apply elem_of_nil in Hx |].
    split; [| done].
    intros nl Hnl. rewrite app_nil_r. by apply Hr. }
  induction elems as [| element rest IH]; intros links new_links; simpl.
  - apply Hnone; [by intros ? [= <-] | done].
  - destruct (cap_reached max_links links).
    { apply Hnone; [by intros ? [= <-] | done]. }
    destruct element as [href | e | i].
    2: { by apply Hnone. }
    2: { apply Hnone; [done |]. intros i0 [= <-]. by apply elem_of_cons; left. }
    assert (Hskip :
      ∃ added,
        (extract_loop max_links rest links new_links).1 = list_to_set added ∪ links
        ∧ NoDup added
        ∧ (∀ x, x ∈ added →
             (x ∉ links)
             ∧ ∃ href0, Gives (Some href0) ∈ Gives href :: rest ∧ href0 ≠ ""
                        ∧ x = urljoin href0)
        ∧ (∀ new_links',
             (extract_loop max_links rest links new_links).2 = Gives new_links' →
             new_links' = new_links ++ added)
        ∧ (∀ i, (extract_loop max_links rest links new_links).2 = Interrupts i →
             Interrupts i ∈ Gives href :: rest)).
    { destruct (IH links new_links) as (added & H1 & H2 & H3 & H4 & H5).
      exists added. split; [done |]. split; [done |]. split; [| split; [done |]].
      - intros x Hx. destruct (H3 x Hx) as [Hn (h & Hh1 & Hh2 & Hh3)].
        split; [done |]. exists h. split; [by apply elem_of_cons; right | done].
      - intros i Hi. apply elem_of_cons. right. by apply H5. }
    destruct (truthy_opt_str href) eqn:Htr; [| exact Hskip].
    case_bool_decide as Hnew; [| exact Hskip].
    destruct (truthy_href href Htr) as (h & -> & Hh).
    change (default "" (Some h)) with h in *.
    destruct (cap_reached max_links ({[urljoin h]} ∪ links)).
    + exists [urljoin h]. cbn [fst snd].
      split.
      { apply set_eq. intros y.
        rewrite !elem_of_union, elem_of_list_to_set, list_elem_of_singleton,
          elem_of_singleton.
        tauto. }
      split; [apply NoDup_singleton |].
      split; [| split; [by intros ? [= <-] | done]].
      intros x Hx. apply list_elem_of_singleton in Hx. subst x.
      split; [done |]. exists h. split; [by apply elem_of_cons; left | done].
    + destruct (IH ({[urljoin h]} ∪ links) (new_links ++ [urljoin h]))
        as (added & H1 & H2 & H3 & H4 & H5).
      exists (urljoin h :: added).
      split.
      { rewrite H1. apply set_eq. intros y.
        rewrite !elem_of_union, !elem_of_list_to_set, elem_of_cons,
          elem_of_singleton.
        tauto. }
      split.
      { constructor; [| done]. intros Hin. destruct (H3 _ Hin) as [Hn _].
        apply Hn, elem_of_union. left. by apply elem_of_singleton. }
      split.
      { intros x Hx. apply elem_of_cons in Hx as [-> | Hx].
        - split; [done |]. exists h. split; [by apply elem_of_cons; left | done].
        - destruct (H3 x Hx) as [Hn (h0 & Hh1 & Hh2 & Hh3)].
          split.
          + intros Hl. apply Hn, elem_of_union. by right.
          + exists h0. split; [by apply elem_of_cons; right | done]. }
      split.
      { intros nl Hres. rewrite (H4 nl Hres), <- app_assoc. done. }
      intros i Hi. apply elem_of_cons. right. by apply H5.
Qed.

Lemma extract_loop_gives (elems : list (awaited (option string))) :
  Forall gives elems →
  ∀ (links : gset string) (new_links : list string),
    gives (extract_loop max_links elems links new_links).2.
Proof.
  induction 1 as [| element rest [href ->] Hrest IH]; intros links new_links; simpl.
  - by eexists.
  - destruct (cap_reached max_links links); [by eexists |].
    destruct (truthy_opt_str href); [| apply IH].
    case_bool_decide; [| apply IH].
    destruct (cap_reached max_links ({[urljoin (default "" href)]} ∪ links));
      [by eexists | apply IH].
Qed.

Lemma extract_links_cases (view : page_view) (links : gset string) :
  let res := extract_links view max_links links in
  ∃ added,
    res.1 = list_to_set added ∪ links
    ∧ NoDup added
    ∧ (∀ x, x ∈ added →
         (x ∉ links)
         ∧ ∃ elems href, elements view = Gives elems ∧ Gives (Some href) ∈ elems
                         ∧ href ≠ "" ∧ x = urljoin href)
    ∧ (res.2 = Returned added ∨ res.2 = Returned []
       ∨ ∃ i, res.2 = Interrupted i
              ∧ (elements view = Interrupts i
                 ∨ ∃ elems, elements view = Gives elems ∧ Interrupts i ∈ elems))
    ∧ (∀ elems, elements view = Gives elems → Forall gives elems →
         res.2 = Returned added).
Proof.
  unfold extract_links. destruct (elements view) as [elems | e | i] eqn:Hel.
  - destruct (extract_loop_added elems links [])
      as (added & H1 & H2 & H3 & H4 & H5).
    pose proof (λ H, extract_loop_gives elems H links []) as Hret.
    assert (Hfrom : ∀ x, x ∈ added →
              (x ∉ links)
              ∧ ∃ elems0 href, Gives elems = Gives elems0
                  ∧ Gives (Some href) ∈ elems0 ∧ href ≠ "" ∧ x = urljoin href).
    { intros x Hx. destruct (H3 x Hx) as [Hn (h & ? & ? & ?)].
      split; [done |]. by exists elems, h. }
    destruct (extract_loop max_links elems links []) as [links' [nl | e | i]];
      simpl in *; exists added; (split; [done |]); (split; [done |]);
      (split; [exact Hfrom |]).
    + rewrite (H4 nl eq_refl). split; [by left | done].
    + split; [right; by left |].
      intros elems0 [= <-] Hall. by destruct (Hret Hall) as [nl Hnl].
    + split.
      * right. right. exists i. split; [done |]. right. exists elems.
        split; [done | by apply H5].
      * intros elems0 [= <-] Hall. by destruct (Hret Hall) as [nl Hnl].
  - exists []. cbn [fst snd].
    split.
    { apply set_eq. intros y.
      rewrite elem_of_union, elem_of_list_to_set, elem_of_nil. tauto. }
    split; [constructor |].
    split; [intros x Hx; by apply elem_of_nil in Hx |].
    split; [by left | done].
  - exists []. cbn [fst snd].
    split.
    { apply set_eq. intros y.
      rewrite elem_of_union, elem_of_list_to_set, elem_of_nil. tauto. }
    split; [constructor |].
    split; [intros x Hx; by apply elem_of_nil in Hx |].
    split; [| done]. right. right. exists i. split; [done | by left].
Qed.


(** What scrape_page changes. *)
Lemma scrape_page_fields (page : Z) (first : bool) (sc : scraper) :
  let sc' := (scrape_page page first max_links sc).2 in
  visited sc' = visited sc ++ [page]
  ∧ checkpoints sc' = checkpoints sc
  ∧ saves sc' = saves sc
  ∧ page_delays sc' = page_delays sc
  ∧ pages_scraped sc ≤ pages_scraped sc'
  ∧ pages_scraped sc' ≤ pages_scraped sc + 1
  ∧ (all_links sc' = all_links sc
     ∨ all_links sc' = (extract_links (render page) max_links (all_links sc)).1).
Proof.
  unfold scrape_page. change (all_links (visit page sc)) with (all_links sc).
  destruct (extract_links (render page) max_links (all_links sc))
    as [links [new_links | i]];
    (destruct (goto (render page)) as [response | e | i0];
     [| simpl; repeat split; first [done | lia | by left]
      | simpl; repeat split; first [done | lia | by left]]);
    repeat case_match; simpl; repeat split;
      first [done | lia | by left | by right].
Qed.

(** The ways in which one pass through the loop body ends. *)
Lemma loop_body_shape (st : loop_state) :
  let sc1 := (scrape_page (page_num st) (bool_decide (page_num st = start_page))
                max_links (this st)).2 in
  loop_body max_links start_page st = Break st
  ∨ ∃ c sc2,
      (sc2 = sc1 ∨ sc2 = save_checkpoint sc1)
      ∧ (loop_body max_links start_page st
           = Break {| page_num := page_num st; consecutive_empty_pages := c;
                      this := sc2 |}
         ∨ (∃ e, loop_body max_links start_page st
                 = Crash e {| page_num := page_num st;
                              consecutive_empty_pages := c; this := sc2 |})
         ∨ (∃ i, loop_body max_links start_page st
                 = Stop i {| page_num := page_num st;
                             consecutive_empty_pages := c; this := sc2 |})
         ∨ loop_body max_links start_page st
           = Next {| page_num := page_num st + 1; consecutive_empty_pages := c;
                     this := if page_delay_positive then page_delay sc2
                             else sc2 |}).
Proof.
  unfold loop_body.
  destruct (cap_reached max_links (all_links (this st))); [by left | right].
  destruct (scrape_page _ _ _ _) as [[count | i] sc]; cbn [snd].
  2: { eexists _, sc. split; [by left |]. right. right. left. by eexists. }
  destruct (bool_decide (count = 0) && _).
  { eexists _, sc. split; [by left |]. by left. }
  destruct (bool_decide (CHECKPOINT_INTERVAL = 0)).
  { eexists _, sc. split; [by left |]. right. left. by eexists. }
  destruct (bool_decide (pages_scraped sc `mod` CHECKPOINT_INTERVAL = 0)).
  - eexists _, (save_checkpoint sc). split; [by right |].
    destruct (cap_reached max_links (all_links (save_checkpoint sc)));
      [by left |].
    destruct page_delay_positive; [| by repeat right].
    destruct (pause (page_num st)) as [i |]; [| by repeat right].
    right. right. left. by eexists.
  - eexists _, sc. split; [by left |].
    destruct (cap_reached max_links (all_links sc)); [by left |].
    destruct page_delay_positive; [| by repeat right].
    destruct (pause (page_num st)) as [i |]; [| by repeat right].
    right. right. left. by eexists.
Qed.

(** A relation between the scraper before and after that holds across
    each step of the loop holds across the loop. *)
Lemma loop_body_respects (R : relation scraper) `{HR : !PreOrder R} :
  (∀ page first sc, R sc (scrape_page page first max_links sc).2) →
  (∀ sc, R sc (save_checkpoint sc)) →
  (∀ sc, R sc (page_delay sc)) →
  ∀ st, R (this st) (this (state_of (loop_body max_links start_page st))).
Proof.
  intros Hpage Hsave Hdelay st.
  pose proof (Hpage (page_num st) (bool_decide (page_num st = start_page))
                (this st)) as H1.
  destruct (loop_body_shape st) as [-> | (c & sc2 & Hsc2 & Hend)]; [done |].
  assert (H2 : R (this st) sc2).
  { destruct Hsc2 as [-> | ->]; [done |]. etrans; [exact H1 | apply Hsave]. }
  destruct Hend as [-> | [[e ->] | [[i ->] | ->]]]; cbn [state_of this];
    [done | done | done |].
  destruct page_delay_positive; [| done]. etrans; [exact H2 | apply Hdelay].
Qed.

Lemma while_true_respects (R : relation scraper) `{HR : !PreOrder R} :
  (∀ page first sc, R sc (scrape_page page first max_links sc).2) →
  (∀ sc, R sc (save_checkpoint sc)) →
  (∀ sc, R sc (page_delay sc)) →
  ∀ fuel st err st',
    while_true fuel max_links start_page st = Some (err, st') →
    R (this st) (this st').
Proof.
  intros Hpage Hsave Hdelay fuel.
  induction fuel as [| fuel IH]; intros st err st'; [done |].
  pose proof (loop_body_respects R Hpage Hsave Hdelay st) as Hstep.
  simpl. destruct (loop_body max_links start_page st)
    as [st1 | st1 | e st1 | i st1]; cbn [state_of] in Hstep.
  - intros Hrun. etrans; [exact Hstep | by eapply IH].
  - by intros [= _ <-].
  - by intros [= _ <-].
  - by intros [= _ <-].
Qed.

(** **** No link is lost *)

#[local] Instance grows_preorder : PreOrder grows.
Proof.
  split.
  - intros sc. split; [done |]. exists []. rewrite app_nil_r.
    split; [done |]. split; [| constructor].
    intros i j cp1 cp2 _ Hi. by rewrite lookup_nil in Hi.
  - intros sc1 sc2 sc3 [L1 (a1 & C1 & Ch1 & F1)] [L2 (a2 & C2 & Ch2 & F2)].
    split; [by etrans |]. exists (a1 ++ a2).
    split; [by rewrite C2, C1, <- app_assoc |].
    split.
    + intros i j cp1 cp2 Hij Hi Hj.
      apply lookup_app_Some in Hi as [Hi | [Hi1 Hi2]];
        apply lookup_app_Some in Hj as [Hj | [Hj1 Hj2]].
      * exact (Ch1 i j cp1 cp2 Hij Hi Hj).
      * apply list_elem_of_lookup_2 in Hi, Hj2.
        rewrite Forall_forall in F1, F2.
        destruct (F1 _ Hi) as [_ Ha]. destruct (F2 _ Hj2) as [Hb _].
        by etrans.
      * apply lookup_lt_Some in Hj. lia.
      * eapply (Ch2 (i - length a1)%nat (j - length a1)%nat); [lia | done | done].
    + apply Forall_app. split.
      * eapply Forall_impl; [exact F1 |]. intros cp [Ha Hb].
        split; [done | by etrans].
      * eapply Forall_impl; [exact F2 |]. intros cp [Ha Hb].
        split; [by etrans | done].
Qed.

Lemma grows_same (sc sc' : scraper) :
  all_links sc ⊆ all_links sc' → checkpoints sc' = checkpoints sc → grows sc sc'.
Proof.
  intros Hl Hc. split; [done |]. exists []. rewrite app_nil_r.
  split; [done |]. split; [| constructor].
  intros i j cp1 cp2 _ Hi. by rewrite lookup_nil in Hi.
Qed.

(** save_checkpoint adds the current link set to the contents written,
    or nothing when the write fails. *)
Lemma save_checkpoint_checkpoints (sc : scraper) :
  all_links (save_checkpoint sc) = all_links sc
  ∧ saves (save_checkpoint sc) = S (saves sc)
  ∧ checkpoints (save_checkpoint sc)
    = checkpoints sc ++ (if write_ok (saves sc) then [all_links sc] else []).
Proof.
  unfold save_checkpoint. simpl.
  destruct (write_ok (saves sc)); by rewrite ?app_nil_r.
Qed.

Lemma grows_save_checkpoint (sc : scraper) : grows sc (save_checkpoint sc).
Proof.
  destruct (save_checkpoint_checkpoints sc) as (Hl & _ & Hc).
  destruct (write_ok (saves sc)).
  - split; [by rewrite Hl |]. exists [all_links sc]. split; [done |]. split.
    + intros i j cp1 cp2 _ Hi Hj.
      apply list_elem_of_lookup_2, list_elem_of_singleton in Hi, Hj. by subst.
    + constructor; [| constructor]. by rewrite Hl.
  - apply grows_same; [by rewrite Hl | by rewrite Hc, app_nil_r].
Qed.

Lemma grows_scrape_page (page : Z) (first : bool) (sc : scraper) :
  grows sc (scrape_page page first max_links sc).2.
Proof.
  destruct (scrape_page_fields page first sc) as (_ & Hc & _ & _ & _ & _ & Hl).
  apply grows_same; [| done].
  destruct Hl as [-> | ->]; [done |].
  destruct (extract_links_cases (render page) (all_links sc)) as (added & -> & _).
  apply union_subseteq_r.
Qed.

Lemma grows_while_true (fuel : nat) (st : loop_state) (err : option raised)
    (st' : loop_state) :
  while_true fuel max_links start_page st = Some (err, st') →
  grows (this st) (this st').
Proof.
  apply (while_true_respects grows).
  - apply grows_scrape_page.
  - apply grows_save_checkpoint.
  - intros sc. by apply grows_same.
Qed.

(** How run ends, by how its loop ends: with the final save unless an
    interrupt other than KeyboardInterrupt left the loop. *)
Lemma run_cases (fuel : nat) (sc : scraper) (err : option raised) (sc' : scraper) :
  run fuel max_links start_page sc = Some (err, sc') →
  ∃ err0 st,
    while_true fuel max_links start_page
      {| page_num := start_page; consecutive_empty_pages := 0; this := sc |}
    = Some (err0, st)
    ∧ ((∀ i, err ≠ Some (Base i)) ∧ sc' = save_checkpoint (this st)
       ∨ err = Some (Base CancelledError) ∧ err0 = err ∧ sc' = this st).
Proof.
  unfold run.
  destruct (while_true fuel max_links start_page _) as [[err0 st] |] eqn:Hloop;
    [| done].
  intros Hrun. exists err0, st. split; [reflexivity |].
  destruct err0 as [[e | [|]] |]; injection Hrun as <- <-;
    first [by left | by right].
Qed.

(** X25.  A run that ends loses no link: the final link set contains
    the initial one, and the contents written to the output file by the
    run each contain the initial link set, are contained in the final
    one, and are contained in every content written later.  When run
    returns or raises an Exception (it has left the loop by a break, by a
    KeyboardInterrupt or by an Exception, and made the final save) and
    the write of the final save goes through, the last content written
    is the final link set.  An interrupt leaves run only when it is not
    a KeyboardInterrupt, and then without the final save. *)
Theorem run_checkpoints_grow (fuel : nat) (sc : scraper) (err : option raised)
    (sc' : scraper) :
  run fuel max_links start_page sc = Some (err, sc') →
  all_links sc ⊆ all_links sc'
  ∧ (∃ added,
      checkpoints sc' = checkpoints sc ++ added
      ∧ chain added
      ∧ Forall (λ cp, all_links sc ⊆ cp ∧ cp ⊆ all_links sc') added
      ∧ ((∀ i, err ≠ Some (Base i)) →
         write_ok (saves sc' - 1) = true →
         last added = Some (all_links sc')))
  ∧ ((∀ i, err ≠ Some (Base i)) → (saves sc ≤ saves sc' - 1)%nat)
  ∧ (∀ i, err = Some (Base i) →
       i = CancelledError
       ∧ ∃ st, while_true fuel max_links start_page
                 {| page_num := start_page; consecutive_empty_pages := 0;
                    this := sc |}
               = Some (err, st)
               ∧ sc' = this st).
Proof.
  intros Hrun.
  destruct (run_cases fuel sc err sc' Hrun) as (err0 & st & Hloop & Hend).
  pose proof (grows_while_true _ _ _ _ Hloop) as Hgrows. cbn [this] in Hgrows.
  assert (Hsaves : (saves sc ≤ saves (this st))%nat).
  { pose proof (while_true_respects (λ a b, (saves a ≤ saves b)%nat)
                  (HR := Build_PreOrder _ (λ a, le_n _)
                           (λ a b c H1 H2, Nat.le_trans _ _ _ H1 H2))) as Hm.
    refine (Hm _ _ _ _ _ _ _ Hloop).
    - intros page first sc0.
      destruct (scrape_page_fields page first sc0) as (_ & _ & -> & _). done.
    - intros sc0. simpl. lia.
    - intros sc0. done. }
  destruct Hend as [[Hnot ->] | (-> & -> & ->)].
  - assert (Hfinal : grows sc (save_checkpoint (this st))).
    { etrans; [exact Hgrows | apply grows_save_checkpoint]. }
    destruct (save_checkpoint_checkpoints (this st)) as (Hl & Hs & Hc).
    destruct Hgrows as [Hsub (added & Hadd & Hch & Hf)].
    split; [by rewrite Hl |]. split; [| split].
    + destruct Hfinal as [_ (added' & Hadd' & Hch' & Hf')].
      exists added'. split; [done |]. split; [done |]. split; [done |].
      intros _ Hok. rewrite Hs in Hok. simpl in Hok.
      rewrite Nat.sub_0_r in Hok. rewrite Hok in Hc.
      rewrite Hc, Hadd, <- app_assoc in Hadd'.
      apply app_inv_head in Hadd'. subst added'.
      by rewrite last_snoc, Hl.
    + intros _. rewrite Hs. simpl. lia.
    + intros i Hi. by destruct (Hnot i).
  - destruct Hgrows as [Hsub (added & Hadd & Hch & Hf)].
    split; [done |]. split; [| split].
    + exists added. split; [done |]. split; [done |]. split; [done |].
      intros Hnot. by destruct (Hnot CancelledError).
    + intros Hnot. by destruct (Hnot CancelledError).
    + intros i [= <-]. split; [done |]. by exists st.
Qed.

(** **** The cap on the number of links *)

#[local] Instance within_cap_preorder (m : Z) : PreOrder (within_cap m).
Proof.
  split.
  - intros sc. unfold within_cap. lia.
  - intros sc1 sc2 sc3. unfold within_cap. lia.
Qed.

Lemma extract_loop_cap (m : Z) (elems : list (awaited (option string))) :
  m ≠ 0 →
  ∀ (links : gset string) (new_links : list string),
    Z.of_nat (size (extract_loop (Some m) elems links new_links).1)
    ≤ Z.max m (Z.of_nat (size links)).
Proof.
  intros Hm.
  induction elems as [| element rest IH]; intros links new_links; simpl; [lia |].
  destruct (cap_reached (Some m) links) eqn:Hcap; [simpl; lia |].
  destruct element as [href | e | i]; [| simpl; lia | simpl; lia].
  destruct (truthy_opt_str href); [| apply IH].
  case_bool_decide as Hnew; [| apply IH].
  assert (Hsize : size ({[urljoin (default "" href)]} ∪ links) = S (size links)).
  { rewrite size_union by (by apply disjoint_singleton_l).
    by rewrite size_singleton. }
  assert (Hbelow : Z.of_nat (size links) < m).
  { unfold cap_reached in Hcap. simpl in Hcap.
    rewrite bool_decide_eq_true_2 in Hcap by done. simpl in Hcap.
    apply bool_decide_eq_false in Hcap. lia. }
  destruct (cap_reached (Some m) ({[urljoin (default "" href)]} ∪ links)).
  - simpl. rewrite Hsize. lia.
  - etrans; [apply IH |]. rewrite Hsize. lia.
Qed.

End LinkSetFacts.

Section CapFacts.

Context {B : browser}.

Lemma within_cap_scrape_page (m : Z) (page : Z) (first : bool) (sc : scraper) :
  m ≠ 0 → within_cap m sc (scrape_page page first (Some m) sc).2.
Proof.
  intros Hm. unfold within_cap.
  destruct (scrape_page_fields (Some m) page first sc)
    as (_ & _ & _ & _ & _ & _ & [-> | ->]); [lia |].
  unfold extract_links.
  destruct (elements (render page)) as [elems | e | i]; simpl; try lia.
  pose proof (extract_loop_cap m elems Hm (all_links sc) []) as Hloop.
  by destruct (extract_loop (Some m) elems (all_links sc) [])
    as [links' [nl | e | i]].
Qed.

(** X26.  With a cap m other than 0 (0 and None mean no cap) the link set
    never has more than m links, unless it had more to begin with, and
    then it does not grow: this holds after every pass through the loop
    body and after every run that ends. *)
Theorem link_cap_is_respected (m start_page : Z) :
  m ≠ 0 →
  (∀ st,
     Z.of_nat (size (all_links (this (state_of (loop_body (Some m) start_page st)))))
     ≤ Z.max m (Z.of_nat (size (all_links (this st)))))
  ∧ (∀ fuel sc err sc',
       run fuel (Some m) start_page sc = Some (err, sc') →
       Z.of_nat (size (all_links sc')) ≤ Z.max m (Z.of_nat (size (all_links sc)))).
Proof.
  intros Hm.
  assert (Hsave : ∀ sc, within_cap m sc (save_checkpoint sc)).
  { intros sc. unfold within_cap. simpl. lia. }
  assert (Hdelay : ∀ sc, within_cap m sc (page_delay sc)).
  { intros sc. unfold within_cap. simpl. lia. }
  assert (Hpage : ∀ page first sc,
            within_cap m sc (scrape_page page first (Some m) sc).2).
  { intros page first sc. by apply within_cap_scrape_page. }
  split.
  - intros st.
    exact (loop_body_respects (Some m) start_page (within_cap m)
             (HR := within_cap_preorder m) Hpage Hsave Hdelay st).
  - intros fuel sc err sc' Hrun.
    destruct (run_cases (Some m) start_page fuel sc err sc' Hrun)
      as (err0 & st & Hloop & Hend).
    pose proof (while_true_respects (Some m) start_page (within_cap m)
                  (HR := within_cap_preorder m) Hpage Hsave Hdelay _ _ _ _ Hloop)
      as Hcap.
    unfold within_cap in Hcap. cbn [this] in Hcap.
    by destruct Hend as [[_ ->] | (_ & _ & ->)].
Qed.

(** **** The pages of a run *)

Lemma loop_body_fields (max_links : option Z) (start_page : Z) (st : loop_state) :
  loop_body max_links start_page st = Break st
  ∨ ∃ st',
      state_of (loop_body max_links start_page st) = st'
      ∧ visited (this st') = visited (this st) ++ [page_num st]
      ∧ pages_scraped (this st) ≤ pages_scraped (this st')
      ∧ pages_scraped (this st') ≤ pages_scraped (this st) + 1
      ∧ ((∃ st1, loop_body max_links start_page st = Next st1)
           ∧ page_num st' = page_num st + 1
           ∧ page_delays (this st')
             = (page_delays (this st) + if page_delay_positive then 1 else 0)%nat
         ∨ (∀ st1, loop_body max_links start_page st ≠ Next st1)
           ∧ page_num st' = page_num st
           ∧ page_delays (this st') = page_delays (this st)).
Proof.
  destruct (scrape_page_fields max_links (page_num st)
              (bool_decide (page_num st = start_page)) (this st))
    as (Hv & _ & _ & Hd & Hp1 & Hp2 & _).
  destruct (loop_body_shape max_links start_page st)
    as [Htop | (c & sc2 & Hsc2 & Hend)]; [by left | right].
  cbn zeta in *.
  assert (H2 : visited sc2 = visited (this st) ++ [page_num st]
               ∧ page_delays sc2 = page_delays (this st)
               ∧ pages_scraped (this st) ≤ pages_scraped sc2
               ∧ pages_scraped sc2 ≤ pages_scraped (this st) + 1).
  { by destruct Hsc2 as [-> | ->]. }
  destruct H2 as (Hv2 & Hd2 & Hp3 & Hp4).
  destruct Hend as [-> | [[e ->] | [[i ->] | ->]]]; eexists;
    (split; [reflexivity |]); cbn [state_of this page_num].
  - repeat split; try done. right. by repeat split.
  - repeat split; try done. right. by repeat split.
  - repeat split; try done. right. by repeat split.
  - destruct page_delay_positive; simpl; repeat split; try done;
      left; (split; [by eexists |]); split; try done; lia.
Qed.

(** X27.  A loop that ends has handed to scrape_page the pages from the
    first page number on, each once and in order, with no page skipped:
    as many as the page number has advanced, or one more when the loop is
    left after scraping.  pages_scraped has grown by at most that number,
    and the page delay was slept once for each advance of the page
    number, so never after the last page. *)
Theorem pages_are_visited_in_order (max_links : option Z) (start_page : Z)
    (fuel : nat) (st : loop_state) (err : option raised) (st' : loop_state) :
  while_true fuel max_links start_page st = Some (err, st') →
  ∃ n : nat,
    visited (this st') = visited (this st) ++ seqZ (page_num st) (Z.of_nat n)
    ∧ (Z.of_nat n = page_num st' - page_num st
       ∨ Z.of_nat n = page_num st' - page_num st + 1)
    ∧ page_num st ≤ page_num st'
    ∧ pages_scraped (this st) ≤ pages_scraped (this st')
    ∧ pages_scraped (this st') ≤ pages_scraped (this st) + Z.of_nat n
    ∧ page_delays (this st')
      = (page_delays (this st)
         + if page_delay_positive then Z.to_nat (page_num st' - page_num st)
           else 0)%nat.
Proof.
  revert st. induction fuel as [| fuel IH]; intros st; [done |].
  rewrite while_true_S.
  destruct (loop_body_fields max_links start_page st)
    as [-> | (st1 & Hst1 & Hv & Hp1 & Hp2 & Hcase)].
  - intros [= _ <-]. exists 0%nat. simpl. rewrite app_nil_r, Z.sub_diag.
    repeat split; try done; try lia.
    destruct page_delay_positive; simpl; lia.
  - destruct Hcase as [([st2 Hnext] & Hpn & Hpd) | (Hnot & Hpn & Hpd)].
    + rewrite Hnext in *. cbn [state_of] in Hst1. subst st2.
      intros Hrun.
      destruct (IH st1 Hrun) as (n & Hv' & Hn & Hle & Hq1 & Hq2 & Hd').
      exists (S n). split; [| split; [| split; [| split; [| split]]]].
      * rewrite Hv', Hv, <- app_assoc. f_equal.
        rewrite (seqZ_cons (page_num st)) by lia. simpl. f_equal.
        rewrite Hpn. f_equal; lia.
      * lia.
      * lia.
      * lia.
      * lia.
      * rewrite Hd', Hpd. destruct page_delay_positive; lia.
    + destruct (loop_body max_links start_page st)
        as [st2 | st2 | e st2 | i st2];
        [by destruct (Hnot st2) | | |]; cbn [state_of] in Hst1; subst st2;
        intros [= _ <-]; exists 1%nat.
      all: rewrite Hpn, Hpd, Z.sub_diag; simpl.
      all: repeat split; try done; try lia.
      all: try (right; lia).
      all: destruct page_delay_positive; simpl; lia.
Qed.

End CapFacts.

(** On the listing of two pages with two links each and a cap of 3, the
    run ends with at most three links. *)
Lemma link_cap_is_respected_witness :
  ∃ err sc',
    run (B := fresh_browser) 5 (Some 3) 1 scraper0 = Some (err, sc')
    ∧ Z.of_nat (size (all_links sc'))
      ≤ Z.max 3 (Z.of_nat (size (all_links scraper0))).
Proof.
  destruct (link_cap_is_respected (B := fresh_browser) 3 1) as [_ Hcap];
    [discriminate |].
  destruct (run (B := fresh_browser) 5 (Some 3) 1 scraper0)
    as [[err sc'] |] eqn:Hrun; [| vm_compute in Hrun; discriminate Hrun].
  exists err, sc'. split; [reflexivity |].
  exact (Hcap 5%nat scraper0 err sc' Hrun).
Defined.

(** On the same listing, where every write goes through, the run
    returns and the last content written is the final link set. *)
Lemma run_checkpoints_grow_witness :
  ∃ sc' added,
    run (B := fresh_browser) 5 (Some 3) 1 scraper0 = Some (None, sc')
    ∧ checkpoints sc' = added
    ∧ last added = Some (all_links sc')
    ∧ chain added.
Proof.
  destruct (run (B := fresh_browser) 5 (Some 3) 1 scraper0)
    as [[err sc'] |] eqn:Hrun; [| vm_compute in Hrun; discriminate Hrun].
  assert (Herr : err = None).
  { vm_compute in Hrun. by injection Hrun as <- _. }
  subst err.
  destruct (run_checkpoints_grow (B := fresh_browser) (Some 3) 1 5 scraper0
              None sc' Hrun) as (_ & (added & Hc & Hchain & _ & Hlast) & _).
  exists sc', added. split; [reflexivity |]. split; [exact Hc |].
  split; [| exact Hchain].
  apply Hlast; [discriminate | reflexivity].
Defined.

(** On the listing that repeats its first page, the loop entered after
    page 1 hands pages 2, 3 and 4 to scrape_page. *)
Lemma pages_are_visited_in_order_witness :
  ∃ st' (n : nat),
    while_true (B := demo_browser) 5 None 1 after_page_one = Some (None, st')
    ∧ visited (this st')
      = visited (this after_page_one) ++ seqZ (page_num after_page_one) (Z.of_nat n).
Proof.
  destruct (while_true (B := demo_browser) 5 None 1 after_page_one)
    as [[err st'] |] eqn:Hrun; [| vm_compute in Hrun; discriminate Hrun].
  assert (Herr : err = None).
  { vm_compute in Hrun. by injection Hrun as <- _. }
  subst err.
  destruct (pages_are_visited_in_order (B := demo_browser) None 1 5
              after_page_one None st' Hrun) as (n & Hv & _).
  exists st', n. split; [reflexivity | exact Hv].
Defined.

End ScraperFacts.
